(** * Route server: shortest-path search, snapping and indoor classification

    A shallow embedding of the four server variants of the repository
    (src/unnamed/part_000, src/index.js, src/unnamed/part_001,
    src/unnamed/part_002) and the properties of the routing core.

    Conventions of the embedding:
    - a JS object used as a dictionary ([distances], [prev]) is a [gmap]
      keyed by the property name, which is always the string form of the
      key expression;
    - the edge object [graph] is the list of its own properties in
      enumeration order, since [for (const node in graph)] is order
      sensitive;
    - a JS [Set] is the list of its members in insertion order;
    - a JS array is a list; [push] appends, [unshift] conses, [shift]
      removes the head;
    - edge weights and distances are exact integers extended with
      [Infinity]; a value that is [undefined] or [NaN] is [None]; the
      code adds doubles, which agree with the integers as long as the
      sums stay within 2^53 ([exact_sums]);
    - a dictionary holds own properties only, while a read on a [{}]
      object also finds what [Object.prototype] provides; the two agree
      on every property name outside [proto_names], and the statements
      on the searches are made for such names ([plain_key],
      [plain_graph]);
    - unbounded [while] loops take a fuel argument, one unit per
      iteration, and return [None] when it runs out. *)

From Stdlib Require Import ZArith QArith Qcanon.
From stdpp Require Import gmap strings list fin_maps pretty numbers sorting.

Local Open Scope string_scope.
Local Open Scope list_scope.
Local Open Scope Z_scope.

(** ** JavaScript values that occur as node identifiers *)

Inductive jsval :=
  | VUndef
  | VNull
  | VNum (z : Z)
  | VStr (s : string).

#[global] Instance jsval_eq_dec : EqDecision jsval.
Proof. solve_decision. Defined.

(** [String(v)] for the values above; numeric identifiers are integers,
    printed in decimal digits as [String] prints them below 10^21. *)
Definition ToString (v : jsval) : string :=
  match v with
  | VUndef => "undefined"
  | VNull => "null"
  | VNum z => pretty z
  | VStr s => s
  end.

(** Truthiness, as tested by [if (v)], [!v] and [while (v)]. *)
Definition truthy (v : jsval) : bool :=
  match v with
  | VUndef | VNull => false
  | VNum z => negb (z =? 0)
  | VStr s => negb (bool_decide (s = ""))
  end.

(** [a === b] *)
Definition strict_eq (a b : jsval) : bool := bool_decide (a = b).

(** ** Numbers: exact integers with [Infinity] *)

Inductive num :=
  | Fin (z : Z)
  | Inf.

#[global] Instance num_eq_dec : EqDecision num.
Proof. solve_decision. Defined.

Definition num_add (a b : num) : num :=
  match a, b with
  | Fin x, Fin y => Fin (x + y)
  | _, _ => Inf
  end.

Definition num_ltb (a b : num) : bool :=
  match a, b with
  | Fin x, Fin y => x <? y
  | Fin _, Inf => true
  | Inf, _ => false
  end.

Definition num_leb (a b : num) : bool :=
  match a, b with
  | Fin x, Fin y => x <=? y
  | _, Inf => true
  | Inf, Fin _ => false
  end.

(** [x + w] and [x < y] where an operand may be [undefined]: the sum is
    then [NaN] and every comparison with it is false. *)
Definition onum_add (a : option num) (w : num) : option num :=
  match a with
  | Some x => Some (num_add x w)
  | None => None
  end.

Definition onum_ltb (a b : option num) : bool :=
  match a, b with
  | Some x, Some y => num_ltb x y
  | _, _ => false
  end.

(** ** Graph data *)

Record node := { n_id : jsval; n_lat : Qc; n_lng : Qc }.

Record edge := { e_node : jsval; e_weight : Z }.

(** The edge object: own properties in enumeration order. *)
Definition graph := list (string * list edge).

(** [graph[k]] *)
Fixpoint graph_get (g : graph) (k : string) : option (list edge) :=
  match g with
  | [] => None
  | (k', es) :: g' => if bool_decide (k' = k) then Some es else graph_get g' k
  end.

(** ** Graph loading (part_001, part_002): the routable-node filter *)

Definition add_edge_ids (s : gset string) (p : string * list edge) : gset string :=
  foldl (fun acc e => acc ∪ {[ ToString (e_node e) ]}) (s ∪ {[ p.1 ]}) p.2.

Definition routableNodeIds (graphEdges : graph) : gset string :=
  foldl add_edge_ids ∅ graphEdges.

Definition loadGraphData (allNodes : list node) (graphEdges : graph) : list node :=
  filter (fun n => ToString (n_id n) ∈ routableNodeIds graphEdges) allNodes.

(** ** Nearest-node lookup *)

Section Locator.

(** The great-circle distance is floating-point trigonometry; the scan
    only compares its results, so it is a parameter here. Its result is a
    finite number or [NaN] (antipodal points, a node without coordinates);
    [None] stands for [NaN], and [NaN < minDist] is false. *)
Variable haversine : Qc -> Qc -> Qc -> Qc -> option Qc.

(** The guard of the [continue] in part_001 and part_002. *)
Definition skipped (excludeNodeId : jsval) (n : node) : bool :=
  truthy excludeNodeId
  && bool_decide (ToString (n_id n) = ToString excludeNodeId).

(** One iteration of the scan; the state is [(minDist, nearest)] with
    [None] for the initial [Infinity]. *)
Definition scan_step (lat lng : Qc) (excludeNodeId : jsval)
    (st : option Qc * jsval) (n : node) : option Qc * jsval :=
  if skipped excludeNodeId n then st
  else
    match haversine (n_lat n) (n_lng n) lat lng with
    | Some dist =>
        match st.1 with
        | Some m => if bool_decide (dist < m)%Qc then (Some dist, n_id n) else st
        | None => (Some dist, n_id n)
        end
    | None => st
    end.

(** part_001, part_002: [findNearestNode(lat, lng, nodes, excludeNodeId = null)] *)
Definition findNearestNode (lat lng : Qc) (nodes : list node)
    (excludeNodeId : jsval) : jsval :=
  (foldl (scan_step lat lng excludeNodeId) (None, VNull) nodes).2.

(** part_000, index.js: [findNearestNode(lat, lng, nodes)], no exclusion. *)
Definition scan_step0 (lat lng : Qc)
    (st : option Qc * jsval) (n : node) : option Qc * jsval :=
  match haversine (n_lat n) (n_lng n) lat lng with
  | Some dist =>
      match st.1 with
      | Some m => if bool_decide (dist < m)%Qc then (Some dist, n_id n) else st
      | None => (Some dist, n_id n)
      end
  | None => st
  end.

Definition findNearestNode0 (lat lng : Qc) (nodes : list node) : jsval :=
  (foldl (scan_step0 lat lng) (None, VNull) nodes).2.

End Locator.

(** ** Search state shared by the three search functions *)

(** A frontier entry [{ node, dist }]. *)
Record qentry := { q_node : jsval; q_dist : num }.

(** [queue.sort((a, b) => a.dist - b.dist)]; the sort is stable. *)
Fixpoint sort_insert (x : qentry) (l : list qentry) : list qentry :=
  match l with
  | [] => [x]
  | y :: l' =>
      if num_leb (q_dist x) (q_dist y) then x :: l else y :: sort_insert x l'
  end.

Definition queue_sort (l : list qentry) : list qentry := foldr sort_insert [] l.

(** One direction of search: [distances], [prev], [visited], [queue]. *)
Record side := {
  dist : gmap string num;
  prev : gmap string jsval;
  visited : list jsval;
  queue : list qentry
}.

Definition maps := (gmap string num * gmap string jsval)%type.

(** First initialisation loop: every source key gets [Infinity] and [null]. *)
Definition init_keys (g : graph) (m : maps) : maps :=
  foldl (fun m p => (<[p.1 := Inf]> m.1, <[p.1 := VNull]> m.2)) m g.

(** Second loop: destinations that are not yet known. The test reads an
    own property; for a destination named like a property of
    [Object.prototype] the code reads the inherited value and adds no
    entry (see [proto_names]). *)
Definition init_dest (m : maps) (e : edge) : maps :=
  let k := ToString (e_node e) in
  match m.1 !! k with
  | None => (<[k := Inf]> m.1, <[k := VNull]> m.2)
  | Some _ => m
  end.

Definition init_dests (g : graph) (m : maps) : maps :=
  foldl (fun m p => foldl init_dest m p.2) m g.

Definition init_maps (g : graph) : maps := init_dests g (init_keys g (∅, ∅)).

(** [prev[u]]: [undefined] when the property is absent, for a property
    name outside [proto_names]. *)
Definition prev_get (p : gmap string jsval) (u : jsval) : jsval :=
  default VUndef (p !! ToString u).

(** The body of the neighbour loop, with [dist[current]] read afresh at
    every neighbour as the source does. *)
Definition relax (current : jsval) (s : side) (nb : jsval * Z) : side :=
  let k := ToString nb.1 in
  let alt := onum_add (dist s !! ToString current) (Fin nb.2) in
  let d1 := match dist s !! k with
            | None => <[k := Inf]> (dist s)
            | Some _ => dist s
            end in
  match alt with
  | Some a =>
      if onum_ltb alt (d1 !! k) then
        {| dist := <[k := a]> d1;
           prev := <[k := current]> (prev s);
           visited := visited s;
           queue := queue s ++ [ {| q_node := nb.1; q_dist := a |} ] |}
      else {| dist := d1; prev := prev s; visited := visited s; queue := queue s |}
  | None => {| dist := d1; prev := prev s; visited := visited s; queue := queue s |}
  end.

(** part_000: the same loop without the [undefined] repair, so that a
    neighbour with no distance entry is never updated. *)
Definition relax0 (current : jsval) (s : side) (nb : jsval * Z) : side :=
  let k := ToString nb.1 in
  let alt := onum_add (dist s !! ToString current) (Fin nb.2) in
  match alt with
  | Some a =>
      if onum_ltb alt (dist s !! k) then
        {| dist := <[k := a]> (dist s);
           prev := <[k := current]> (prev s);
           visited := visited s;
           queue := queue s ++ [ {| q_node := nb.1; q_dist := a |} ] |}
      else s
  | None => s
  end.

(** [graph[current] || []] as [(neighbor, weight)] pairs, for a property
    name outside [proto_names]. *)
Definition neighbors (g : graph) (current : jsval) : list (jsval * Z) :=
  map (fun e => (e_node e, e_weight e)) (default [] (graph_get g (ToString current))).

(** The backward scan: every edge whose destination is [current], in the
    order of the two nested loops, as [(sourceNode, weight)] pairs. *)
Definition incoming (g : graph) (current : jsval) : list (jsval * Z) :=
  flat_map (fun p : string * list edge =>
    flat_map (fun e =>
      if bool_decide (ToString (e_node e) = ToString current)
      then [(VStr p.1, e_weight e)] else []) p.2) g.

(** [visited.add(current)] followed by the neighbour loop. *)
Definition expand (relax_one : jsval -> side -> jsval * Z -> side)
    (current : jsval) (nbrs : list (jsval * Z)) (s : side) : side :=
  foldl (relax_one current)
    {| dist := dist s; prev := prev s;
       visited := visited s ++ [current]; queue := queue s |} nbrs.

(** The same state with another queue. *)
Definition with_queue (s : side) (q : list qentry) : side :=
  {| dist := dist s; prev := prev s; visited := visited s; queue := q |}.

(** [while (u) { path.unshift(u); u = prev[u]; }] *)
Fixpoint chain_unshift (fuel : nat) (p : gmap string jsval) (u : jsval)
    (path : list jsval) : option (list jsval) :=
  if truthy u then
    match fuel with
    | O => None
    | S f => chain_unshift f p (prev_get p u) (u :: path)
    end
  else Some path.

(** [while (u) { path.push(u); u = prev[u]; }] *)
Fixpoint chain_push (fuel : nat) (p : gmap string jsval) (u : jsval)
    (path : list jsval) : option (list jsval) :=
  if truthy u then
    match fuel with
    | O => None
    | S f => chain_push f p (prev_get p u) (path ++ [u])
    end
  else Some path.

(** The value returned by a search: [{ path, distance }]. *)
Record result := { path : list jsval; distance : option num }.

Definition no_path : result := {| path := []; distance := Some Inf |}.

(** ** Indoor classification (part_002) *)

Module Indoor.

(** Numbers of the request body are rationals; [None] is an absent
    property ([undefined]) or, for a computed value, [NaN]. *)
Definition qtruthy (x : option Qc) : bool :=
  match x with
  | Some q => negb (bool_decide (q = 0%Qc))
  | None => false
  end.

Definition ofZ (z : Z) : Qc := Q2Qc (inject_Z z).

(** [(indoorScore / totalChecks) * 100], as the exact quotient; the code
    computes it in doubles, which differ from it in the last digit
    ([(5 / 3) * 100] is 166.66666666666669). *)
Definition ratio100 (indoorScore totalChecks : Z) : Qc :=
  (ofZ indoorScore / ofZ totalChecks * ofZ 100)%Qc.

(** The [start] and [end] objects of the request body. *)
Record location := {
  lat : Qc;
  lng : Qc;
  accuracy : option Qc;
  altitude : option Qc;
  speed : option Qc
}.

(** A finite number or [Infinity]. *)
Inductive qnum :=
  | QFin (q : Qc)
  | QInf.

Record gps_result := {
  g_isIndoor : bool;
  g_confidence : Qc;
  g_accuracy : qnum;
  g_hasAltitude : bool;
  g_hasSpeed : bool
}.

Definition detectIndoorFromGPS (gpsData : location) : gps_result :=
  let accuracy := if qtruthy (accuracy gpsData)
                  then QFin (default 0%Qc (accuracy gpsData)) else QInf in
  let altitude := altitude gpsData in
  let speed := speed gpsData in
  let s1 := match accuracy with
            | QInf => 3
            | QFin a => if bool_decide (ofZ 20 < a)%Qc then 3 else 0
            end in
  let s2 := if negb (qtruthy altitude) then s1 + 1 else s1 in
  let indoorScore := if negb (qtruthy speed) then s2 + 1 else s2 in
  let totalChecks := 3 in
  {| g_isIndoor := bool_decide (2 <= indoorScore);
     g_confidence := ratio100 indoorScore totalChecks;
     g_accuracy := accuracy;
     g_hasAltitude := qtruthy altitude;
     g_hasSpeed := qtruthy speed |}.

(** An element of [wifiData.networks]. *)
Record network := { signalStrength : option Qc }.

(** [networks] is [None] when the property is absent or [null]; an
    element of the array is [None] when it is [null]. *)
Record wifi_data := { networks : option (list (option network)) }.

Record cellular_data := {
  c_signalStrength : option Qc;
  c_networkType : option string;
  c_downlink : option Qc
}.

Record device_info := {
  wifi : option wifi_data;
  cellular : option cellular_data
}.

(** A call either returns or throws a [TypeError]. *)
Inductive exc (A : Type) :=
  | Ok (a : A)
  | Throw.
Arguments Ok {A} a.
Arguments Throw {A}.

Definition bind {A B} (x : exc A) (f : A -> exc B) : exc B :=
  match x with
  | Ok a => f a
  | Throw => Throw
  end.

(** [networks.reduce((sum, net) => sum + net.signalStrength, 0)]:
    reading a property of a [null] element throws. *)
Fixpoint sum_signals (nets : list (option network)) (sum : option Qc)
    : exc (option Qc) :=
  match nets with
  | [] => Ok sum
  | None :: _ => Throw
  | Some net :: rest =>
      sum_signals rest
        (match sum, signalStrength net with
         | Some a, Some b => Some (a + b)%Qc
         | _, _ => None
         end)
  end.

Record wifi_result := {
  w_isIndoor : bool;
  w_confidence : Qc;
  w_reason : option string;
  w_networkCount : option Z;
  w_averageSignal : option Qc
}.

Definition analyzeWiFiNetworks (wifiData : option wifi_data) : exc wifi_result :=
  match wifiData with
  | None =>
      Ok {| w_isIndoor := false; w_confidence := 0%Qc;
            w_reason := Some "No WiFi data";
            w_networkCount := None; w_averageSignal := None |}
  | Some wd =>
      match networks wd with
      | None =>
          Ok {| w_isIndoor := false; w_confidence := 0%Qc;
                w_reason := Some "No WiFi data";
                w_networkCount := None; w_averageSignal := None |}
      | Some nets =>
          let networkCount := Z.of_nat (length nets) in
          bind (sum_signals nets (Some 0%Qc)) (fun total =>
            let averageSignal :=
              match total with
              | Some t => if bool_decide (networkCount = 0) then None
                          else Some (t / ofZ networkCount)%Qc
              | None => None
              end in
            let s1 := if bool_decide (8 < networkCount) then 2
                      else if bool_decide (5 < networkCount) then 1 else 0 in
            let indoorScore :=
              match averageSignal with
              | Some a => if bool_decide (ofZ (-50) < a)%Qc then s1 + 1 else s1
              | None => s1
              end in
            let totalChecks := 2 in
            Ok {| w_isIndoor := bool_decide (1 <= indoorScore);
                  w_confidence := ratio100 indoorScore totalChecks;
                  w_reason := None;
                  w_networkCount := Some networkCount;
                  w_averageSignal := averageSignal |})
      end
  end.

Record cellular_result := {
  k_isIndoor : bool;
  k_confidence : Qc;
  k_reason : option string;
  k_signalStrength : Qc;
  k_networkType : string;
  k_downlink : Qc
}.

Definition analyzeCellularNetwork (cellularData : option cellular_data)
    : cellular_result :=
  match cellularData with
  | None =>
      {| k_isIndoor := false; k_confidence := 0%Qc;
         k_reason := Some "No cellular data";
         k_signalStrength := 0%Qc; k_networkType := "unknown";
         k_downlink := 0%Qc |}
  | Some cd =>
      let signalStrength :=
        if qtruthy (c_signalStrength cd)
        then default 0%Qc (c_signalStrength cd) else 0%Qc in
      let networkType :=
        match c_networkType cd with
        | Some t => if bool_decide (t = "") then "unknown" else t
        | None => "unknown"
        end in
      let downlink :=
        if qtruthy (c_downlink cd) then default 0%Qc (c_downlink cd) else 0%Qc in
      let s1 := if bool_decide (signalStrength < ofZ 3 / ofZ 10)%Qc then 2
                else if bool_decide (signalStrength < ofZ 6 / ofZ 10)%Qc then 1
                else 0 in
      let s2 := if bool_decide (networkType = "slow-2g")
                   || bool_decide (networkType = "2g") then s1 + 1 else s1 in
      let indoorScore := if bool_decide (downlink < ofZ 1)%Qc then s2 + 1 else s2 in
      let totalChecks := 3 in
      {| k_isIndoor := bool_decide (1 <= indoorScore);
         k_confidence := ratio100 indoorScore totalChecks;
         k_reason := None;
         k_signalStrength := signalStrength;
         k_networkType := networkType;
         k_downlink := downlink |}
  end.

Record indoor_result := {
  isIndoor : bool;
  confidence : Qc;
  d_gps : gps_result;
  d_wifi : wifi_result;
  d_cellular : cellular_result;
  totalScore : Z;
  checksPerformed : Z
}.

(** One of the three accumulation blocks: [(score, confidence, checks)]. *)
Definition tally (acc : Z * Qc * Z) (conf : Qc) (indoor : bool) (w : Z)
    : Z * Qc * Z :=
  if bool_decide (0 < conf)%Qc
  then (acc.1.1 + (if indoor then w else 0), (acc.1.2 + conf)%Qc, acc.2 + 1)
  else acc.

Definition comprehensiveIndoorDetection (locationData : location)
    (deviceInfo : option device_info) : exc indoor_result :=
  let gpsResult := detectIndoorFromGPS locationData in
  bind (analyzeWiFiNetworks (deviceInfo ≫= wifi)) (fun wifiResult =>
    let cellularResult := analyzeCellularNetwork (deviceInfo ≫= cellular) in
    let t1 := tally (0, 0%Qc, 0) (g_confidence gpsResult) (g_isIndoor gpsResult) 3 in
    let t2 := tally t1 (w_confidence wifiResult) (w_isIndoor wifiResult) 1 in
    let t3 := tally t2 (k_confidence cellularResult) (k_isIndoor cellularResult) 1 in
    let totalIndoorScore := t3.1.1 in
    let totalConfidence := t3.1.2 in
    let totalChecks := t3.2 in
    Ok {| isIndoor := bool_decide (2 <= totalIndoorScore);
          confidence := if bool_decide (0 < totalChecks)
                        then (totalConfidence / ofZ totalChecks)%Qc else 0%Qc;
          d_gps := gpsResult;
          d_wifi := wifiResult;
          d_cellular := cellularResult;
          totalScore := totalIndoorScore;
          checksPerformed := totalChecks |}).

End Indoor.

(** ** Requests and responses of [/calculate_route] *)

Record coord := { c_lat : Qc; c_lng : Qc }.

Record indoor_info := {
  i_start : Indoor.indoor_result;
  i_end : Indoor.indoor_result;
  hasIndoorPoints : bool
}.

(** [res.status(503).json(..)], [res.json({ success: false, error })] and
    [res.json({ success: true, route, indoorInfo })]; [indoorInfo] is
    present in part_002 only. *)
Inductive response :=
  | Unavailable (error : string)
  | Failure (error : string)
  | Success (route : list coord) (indoorInfo : option indoor_info).

(** What a handler run ends in: a response, or an exception that leaves
    the request unanswered. *)
Inductive reply :=
  | Responded (r : response)
  | Threw.

(** [path.map(id => graphNodes.find(n => String(n.id) === String(id)) ..)
    .filter(Boolean)] *)
Definition coords_of (graphNodes : list node) (p : list jsval) : list coord :=
  omap (fun id =>
    match find (fun n => bool_decide (ToString (n_id n) = ToString id)) graphNodes with
    | Some n => Some {| c_lat := n_lat n; c_lng := n_lng n |}
    | None => None
    end) p.

(** The same with [n.id === id] (part_000, index.js). *)
Definition coords_of_strict (graphNodes : list node) (p : list jsval) : list coord :=
  omap (fun id =>
    match find (fun n => strict_eq (n_id n) id) graphNodes with
    | Some n => Some {| c_lat := n_lat n; c_lng := n_lng n |}
    | None => None
    end) p.

(** ** Single-direction search *)

Module Part000.

(** part_000: [dijkstra(graph, start, end)] *)
Fixpoint dijkstra_loop (fuel : nat) (g : graph) (end_ : jsval) (s : side)
    : option side :=
  match queue_sort (queue s) with
  | [] => Some s
  | e :: rest =>
      match fuel with
      | O => None
      | S f =>
          let current := q_node e in
          if bool_decide (current ∈ visited s)
          then dijkstra_loop f g end_ (with_queue s rest)
          else if strict_eq current end_
          then Some (expand relax0 current [] (with_queue s rest))
          else dijkstra_loop f g end_
                 (expand relax0 current (neighbors g current) (with_queue s rest))
      end
  end.

Definition dijkstra (fuel : nat) (g : graph) (start end_ : jsval)
    : option result :=
  let m := init_keys g (∅, ∅) in
  let s0 := {| dist := <[ToString start := Fin 0]> m.1; prev := m.2;
               visited := [];
               queue := [ {| q_node := start; q_dist := Fin 0 |} ] |} in
  s ← dijkstra_loop fuel g end_ s0;
  p ← (if negb (bool_decide (prev s !! ToString end_ = Some VNull))
          || strict_eq end_ start
       then chain_unshift fuel (prev s) end_ []
       else Some []);
  Some {| path := p; distance := dist s !! ToString end_ |}.

Section Handler.
Variable haversine : Qc -> Qc -> Qc -> Qc -> option Qc.

(** The tail of the handler, from the test on [result.path] on. *)
Definition respond (graphNodes : list node) (r : result) : response :=
  if bool_decide (length (path r) = 0%nat)
  then Failure "No route found."
  else Success (coords_of_strict graphNodes (path r)) None.

Definition calculate_route (fuel : nat) (graphNodes : option (list node))
    (graphEdges : option graph) (start end_ : Indoor.location)
    : option reply :=
  match graphNodes, graphEdges with
  | Some nodes, Some edges =>
      let startNode := findNearestNode0 haversine
                         (Indoor.lat start) (Indoor.lng start) nodes in
      let endNode := findNearestNode0 haversine
                       (Indoor.lat end_) (Indoor.lng end_) nodes in
      if negb (truthy startNode) || negb (truthy endNode)
      then Some (Responded (Failure "No nearby node found."))
      else
        r ← dijkstra fuel edges startNode endNode;
        Some (Responded (respond nodes r))
  | _, _ => Some (Responded (Unavailable "Graph data not loaded yet."))
  end.
End Handler.

End Part000.

Module Index.

(** index.js: [dijkstra(graph, start, end)] *)
Fixpoint dijkstra_loop (fuel : nat) (g : graph) (end_ : jsval) (s : side)
    : option side :=
  match queue_sort (queue s) with
  | [] => Some s
  | e :: rest =>
      match fuel with
      | O => None
      | S f =>
          let current := q_node e in
          if negb (truthy current) || bool_decide (current ∈ visited s)
          then dijkstra_loop f g end_ (with_queue s rest)
          else if strict_eq current end_
          then Some (expand relax current [] (with_queue s rest))
          else dijkstra_loop f g end_
                 (expand relax current (neighbors g current) (with_queue s rest))
      end
  end.

Definition dijkstra (fuel : nat) (g : graph) (start end_ : jsval)
    : option result :=
  if strict_eq start end_
  then Some {| path := [start]; distance := Some (Fin 0) |}
  else
    let m := init_maps g in
    match m.1 !! ToString start with
    | None => Some no_path
    | Some _ =>
        let s0 := {| dist := <[ToString start := Fin 0]> m.1; prev := m.2;
                     visited := [];
                     queue := [ {| q_node := start; q_dist := Fin 0 |} ] |} in
        s ← dijkstra_loop fuel g end_ s0;
        p ← (if negb (bool_decide (prev s !! ToString end_ = Some VNull))
                || strict_eq end_ start
             then chain_unshift fuel (prev s) end_ []
             else Some []);
        if negb (strict_eq (default VUndef (head p)) start)
        then Some no_path
        else Some {| path := p; distance := dist s !! ToString end_ |}
    end.

Section Handler.
Variable haversine : Qc -> Qc -> Qc -> Qc -> option Qc.

(** The tail of the handler, from the test on [result.path] on. *)
Definition respond (graphNodes : list node) (r : result) : response :=
  if bool_decide (length (path r) <= 1)%nat
  then Failure "No route found."
  else Success (coords_of_strict graphNodes (path r)) None.

Definition calculate_route (fuel : nat) (graphNodes : option (list node))
    (graphEdges : option graph) (start end_ : Indoor.location)
    : option reply :=
  match graphNodes, graphEdges with
  | Some nodes, Some edges =>
      let startNode := findNearestNode0 haversine
                         (Indoor.lat start) (Indoor.lng start) nodes in
      let endNode := findNearestNode0 haversine
                       (Indoor.lat end_) (Indoor.lng end_) nodes in
      if negb (truthy startNode) || negb (truthy endNode)
      then Some (Responded (Failure "No nearby node found."))
      else
        r ← dijkstra fuel edges startNode endNode;
        Some (Responded (respond nodes r))
  | _, _ => Some (Responded (Unavailable "Graph data not loaded yet."))
  end.
End Handler.

End Index.

Module Part001.

(** part_001: [dijkstra(graph, start, end)] is the function of index.js,
    character for character. *)
Definition dijkstra_loop := Index.dijkstra_loop.
Definition dijkstra := Index.dijkstra.

Section Handler.
Variable haversine : Qc -> Qc -> Qc -> Qc -> option Qc.

Definition TooClose : string :=
  "Start and end locations are too close to calculate a meaningful route.".
Definition NoNearbyNode : string :=
  "Could not find a nearby road for the start or end point.".
Definition NoRoute : string :=
  "No route found. The locations may not be connected by road.".

(** The tail of the handler, from the test on [result.path] on. *)
Definition respond (graphNodes : list node) (r : result) : response :=
  if bool_decide (length (path r) < 1)%nat
  then Failure NoRoute
  else Success (coords_of graphNodes (path r)) None.

Definition calculate_route (fuel : nat) (graphNodes : option (list node))
    (graphEdges : option graph) (start end_ : Indoor.location)
    : option reply :=
  match graphNodes, graphEdges with
  | Some nodes, Some edges =>
      let startNode := findNearestNode haversine
                         (Indoor.lat start) (Indoor.lng start) nodes VNull in
      let endNode0 := findNearestNode haversine
                        (Indoor.lat end_) (Indoor.lng end_) nodes VNull in
      let endNode :=
        if bool_decide (ToString startNode = ToString endNode0)
        then findNearestNode haversine
               (Indoor.lat end_) (Indoor.lng end_) nodes startNode
        else endNode0 in
      if bool_decide (ToString startNode = ToString endNode)
      then Some (Responded (Failure TooClose))
      else if negb (truthy startNode) || negb (truthy endNode)
      then Some (Responded (Failure NoNearbyNode))
      else
        r ← dijkstra fuel edges (VStr (ToString startNode))
              (VStr (ToString endNode));
        Some (Responded (respond nodes r))
  | _, _ =>
      Some (Responded
              (Unavailable "Graph data not loaded yet. Please try again in a moment."))
  end.
End Handler.

End Part001.

(** ** Bidirectional search (part_002) *)

Module Part002.

Record bstate := {
  fwd : side;
  bwd : side;
  bestDistance : num;
  meetingNode : jsval
}.

(** [queue.length > 0 ? queue[0].dist : Infinity], read before any sort. *)
Definition head_dist (q : list qentry) : num :=
  match q with
  | [] => Inf
  | e :: _ => q_dist e
  end.

(** The meeting test made when [current] has just been settled by one
    direction: [other] is the visited set of the opposite direction. *)
Definition meet (current : jsval) (dF dB : gmap string num)
    (other : list jsval) (best : num) (meeting : jsval) : num * jsval :=
  if bool_decide (current ∈ other) then
    match dF !! ToString current, dB !! ToString current with
    | Some a, Some b =>
        if num_ltb (num_add a b) best then (num_add a b, current)
        else (best, meeting)
    | _, _ => (best, meeting)
    end
  else (best, meeting).

Definition advance_forward (g : graph) (st : bstate) : bstate :=
  match queue_sort (queue (fwd st)) with
  | [] => st
  | e :: rest =>
      let current := q_node e in
      if negb (truthy current) || bool_decide (current ∈ visited (fwd st))
      then {| fwd := with_queue (fwd st) rest; bwd := bwd st;
              bestDistance := bestDistance st; meetingNode := meetingNode st |}
      else
        let bm := meet current (dist (fwd st)) (dist (bwd st))
                    (visited (bwd st)) (bestDistance st) (meetingNode st) in
        {| fwd := expand relax current (neighbors g current)
                    (with_queue (fwd st) rest);
           bwd := bwd st;
           bestDistance := bm.1; meetingNode := bm.2 |}
  end.

Definition advance_backward (g : graph) (st : bstate) : bstate :=
  match queue_sort (queue (bwd st)) with
  | [] => st
  | e :: rest =>
      let current := q_node e in
      if negb (truthy current) || bool_decide (current ∈ visited (bwd st))
      then {| fwd := fwd st; bwd := with_queue (bwd st) rest;
              bestDistance := bestDistance st; meetingNode := meetingNode st |}
      else
        let bm := meet current (dist (fwd st)) (dist (bwd st))
                    (visited (fwd st)) (bestDistance st) (meetingNode st) in
        {| fwd := fwd st;
           bwd := expand relax current (incoming g current)
                    (with_queue (bwd st) rest);
           bestDistance := bm.1; meetingNode := bm.2 |}
  end.

Inductive outcome :=
  | Break (st : bstate)
  | Continue (st : bstate).

Definition is_nil {A} (l : list A) : bool :=
  match l with [] => true | _ => false end.

(** The stop test of the main loop. *)
Definition stop_check (st : bstate) : bool :=
  num_leb (bestDistance st)
    (num_add (head_dist (queue (fwd st))) (head_dist (queue (bwd st)))).

(** One pass through the [while] statement: its condition, the stop test
    and the two branches. *)
Definition loop_body (g : graph) (st : bstate) : outcome :=
  let qF := queue (fwd st) in
  let qB := queue (bwd st) in
  if is_nil qF && is_nil qB then Break st
  else if stop_check st then Break st
  else if negb (is_nil qF) && num_leb (head_dist qF) (head_dist qB)
  then Continue (advance_forward g st)
  else if negb (is_nil qB) then Continue (advance_backward g st)
  else Continue st.

Fixpoint bidi_loop (fuel : nat) (g : graph) (st : bstate) : option bstate :=
  match loop_body g st with
  | Break st' => Some st'
  | Continue st' =>
      match fuel with
      | O => None
      | S f => bidi_loop f g st'
      end
  end.

(** The state on entry to the main loop. *)
Definition bidi_init (g : graph) (start end_ : jsval) : bstate :=
  let m := init_maps g in
  {| fwd := {| dist := <[ToString start := Fin 0]> m.1; prev := m.2;
               visited := [];
               queue := [ {| q_node := start; q_dist := Fin 0 |} ] |};
     bwd := {| dist := <[ToString end_ := Fin 0]> m.1; prev := m.2;
               visited := [];
               queue := [ {| q_node := end_; q_dist := Fin 0 |} ] |};
     bestDistance := Inf;
     meetingNode := VNull |}.

(** Path reconstruction from the final state. *)
Definition reconstruct (fuel : nat) (st : bstate) : option result :=
  if negb (strict_eq (meetingNode st) VNull) then
    p1 ← chain_unshift fuel (prev (fwd st)) (meetingNode st) [];
    p2 ← chain_push fuel (prev (bwd st))
           (prev_get (prev (bwd st)) (meetingNode st)) p1;
    Some {| path := p2; distance := Some (bestDistance st) |}
  else Some no_path.

Definition bidirectionalDijkstra (fuel : nat) (g : graph)
    (start end_ : jsval) : option result :=
  if strict_eq start end_
  then Some {| path := [start]; distance := Some (Fin 0) |}
  else
    let m := init_maps g in
    match m.1 !! ToString start, m.1 !! ToString end_ with
    | Some _, Some _ =>
        st ← bidi_loop fuel g (bidi_init g start end_);
        reconstruct fuel st
    | _, _ => Some no_path
    end.

Section Handler.
Variable haversine : Qc -> Qc -> Qc -> Qc -> option Qc.

Definition TooClose : string :=
  "Start and end locations are too close to calculate a meaningful route.".
Definition NoNearbyNode : string :=
  "Could not find a nearby road for the start or end point.".
Definition NoRoute : string :=
  "No route found. The locations may not be connected by road.".

(** The tail of the handler, from the test on [result.path] on. *)
Definition respond (graphNodes : list node) (info : indoor_info)
    (r : result) : response :=
  if bool_decide (length (path r) < 1)%nat
  then Failure NoRoute
  else Success (coords_of graphNodes (path r)) (Some info).

Definition calculate_route (fuel : nat) (graphNodes : option (list node))
    (graphEdges : option graph) (start end_ : Indoor.location)
    (deviceInfo : option Indoor.device_info) : option reply :=
  match graphNodes, graphEdges with
  | Some nodes, Some edges =>
      let startNode := findNearestNode haversine
                         (Indoor.lat start) (Indoor.lng start) nodes VNull in
      let endNode0 := findNearestNode haversine
                        (Indoor.lat end_) (Indoor.lng end_) nodes VNull in
      let endNode :=
        if bool_decide (ToString startNode = ToString endNode0)
        then findNearestNode haversine
               (Indoor.lat end_) (Indoor.lng end_) nodes startNode
        else endNode0 in
      if bool_decide (ToString startNode = ToString endNode)
      then Some (Responded (Failure TooClose))
      else
        match Indoor.comprehensiveIndoorDetection start deviceInfo,
              Indoor.comprehensiveIndoorDetection end_ deviceInfo with
        | Indoor.Ok startIndoor, Indoor.Ok endIndoor =>
            if negb (truthy startNode) || negb (truthy endNode)
            then Some (Responded (Failure NoNearbyNode))
            else
              r ← bidirectionalDijkstra fuel edges (VStr (ToString startNode))
                    (VStr (ToString endNode));
              Some (Responded
                (respond nodes
                   {| i_start := startIndoor; i_end := endIndoor;
                      hasIndoorPoints := Indoor.isIndoor startIndoor
                                         || Indoor.isIndoor endIndoor |}
                   r))
        | _, _ => Some Threw
        end
  | _, _ =>
      Some (Responded
              (Unavailable "Graph data not loaded yet. Please try again in a moment."))
  end.
End Handler.

End Part002.

(** ** Specification-side notions *)

(** [a -> b] is an edge of weight [w]: the list stored at [graph[a]] holds
    an edge to [b], identifiers compared in their string form. *)
Definition has_edge (g : graph) (a b : jsval) (w : Z) : Prop :=
  ∃ es e, graph_get g (ToString a) = Some es ∧ e ∈ es
          ∧ ToString (e_node e) = ToString b ∧ e_weight e = w.

(** [is_walk g p d]: consecutive elements of [p] are joined by edges whose
    weights add up to [d]. *)
Inductive is_walk (g : graph) : list jsval -> Z -> Prop :=
  | walk_one a : is_walk g [a] 0
  | walk_step a b l w d :
      has_edge g a b w -> is_walk g (b :: l) d -> is_walk g (a :: b :: l) (w + d).

(** The set S of the graph-construction rule: source keys and string forms
    of destinations. *)
Definition in_S (g : graph) (id : string) : Prop :=
  (∃ es, (id, es) ∈ g)
  ∨ (∃ k es e, (k, es) ∈ g ∧ e ∈ es ∧ id = ToString (e_node e)).

(** The least [dist] of a frontier, [Infinity] when it is empty. *)
Definition frontier_min (q : list qentry) : num :=
  foldr (fun e m => if num_ltb (q_dist e) m then q_dist e else m) Inf q.

Definition is_str (v : jsval) : bool :=
  match v with VStr _ => true | _ => false end.

Definition is_num (v : jsval) : bool :=
  match v with VNum _ => true | _ => false end.

(** Every destination of the edge object is of the given kind. *)
Definition dests_of_kind (kind : jsval -> bool) (g : graph) : Prop :=
  ∀ k es e, (k, es) ∈ g -> e ∈ es -> kind (e_node e) = true.

Definition id_kind (kind : jsval -> bool) : Prop :=
  kind = is_str ∨ kind = is_num.

(** A well-formed edge object: unique keys, weights at least 0, and
    destinations of one kind, all strings or all numbers. *)
Record wf_graph (g : graph) : Prop := {
  wf_keys : NoDup g.*1;
  wf_weights : ∀ k es e, (k, es) ∈ g -> e ∈ es -> 0 <= e_weight e;
  wf_uniform : ∃ kind, id_kind kind ∧ dests_of_kind kind g
}.

(** The same as a test, for closed examples. *)
Definition all_edges (f : edge -> bool) (g : graph) : bool :=
  forallb (fun p : string * list edge => forallb f p.2) g.

Definition wf_graph_check (g : graph) : bool :=
  bool_decide (NoDup g.*1)
  && all_edges (fun e => 0 <=? e_weight e) g
  && (all_edges (fun e => is_str (e_node e)) g
      || all_edges (fun e => is_num (e_node e)) g).

(** ** Invariants of the search *)

Definition qle (a b : qentry) : Prop := num_leb (q_dist a) (q_dist b) = true.

(** The relation followed by each direction: the forward side relaxes
    along edges, the backward side against them. *)
Definition Rf (g : graph) (c k : string) (w : Z) : Prop :=
  has_edge g (VStr c) (VStr k) w.
Definition Rb (g : graph) (c k : string) (w : Z) : Prop :=
  has_edge g (VStr k) (VStr c) w.

(** The values the forward side can hold: the start, a string, and the
    destinations of edges; the backward side holds source keys only. *)
Definition ok_fwd (kind : jsval -> bool) (s : string) (v : jsval) : Prop :=
  v = VStr s ∨ (kind v = true ∧ ToString v ≠ s).
Definition ok_bwd (v : jsval) : Prop := is_str v = true.

Section TreeInvariant.

Variable root : string.
Variable R : string -> string -> Z -> Prop.
Variable ok : jsval -> Prop.

(** One direction of search as a shortest-path tree under construction:
    settled nodes are never farther than queued ones, every finite
    distance is witnessed by an entry of the queue until the node is
    settled, and [prev] points to a node settled earlier. *)
Record side_inv (s : side) : Prop := {
  inv_root : dist s !! root = Some (Fin 0);
  inv_prev_root : prev s !! root = Some VNull;
  inv_queue : ∀ e, e ∈ queue s ->
    ok (q_node e)
    ∧ ∃ z z', q_dist e = Fin z
              ∧ dist s !! ToString (q_node e) = Some (Fin z') ∧ z' <= z;
  inv_visited : ∀ v, v ∈ visited s ->
    ok v ∧ truthy v = true ∧ ∃ z, dist s !! ToString v = Some (Fin z);
  inv_nodup : NoDup (visited s);
  inv_mono : ∀ v z e zq, v ∈ visited s ->
    dist s !! ToString v = Some (Fin z) ->
    e ∈ queue s -> q_dist e = Fin zq -> z <= zq;
  inv_pending : ∀ v z, ok v -> truthy v = true -> v ∉ visited s ->
    dist s !! ToString v = Some (Fin z) ->
    {| q_node := v; q_dist := Fin z |} ∈ queue s;
  inv_nonneg : ∀ k z, dist s !! k = Some (Fin z) -> 0 <= z;
  inv_tree : ∀ k z, k ≠ root -> dist s !! k = Some (Fin z) ->
    ∃ c zc w, prev s !! k = Some c ∧ dist s !! ToString c = Some (Fin zc)
              ∧ R (ToString c) k w ∧ z = zc + w
              ∧ c ∈ visited s
              ∧ ∀ j v, visited s !! j = Some v -> ToString v = k ->
                  ∃ i, (i < j)%nat ∧ visited s !! i = Some c
}.

(** While [c] is being expanded: it is settled at distance [zc], and no
    settled node is farther than that. *)
Definition exp_inv (c : jsval) (zc : Z) (s : side) : Prop :=
  side_inv s ∧ c ∈ visited s ∧ dist s !! ToString c = Some (Fin zc)
  ∧ ∀ v z, v ∈ visited s -> dist s !! ToString v = Some (Fin z) -> z <= zc.

(** The chain [u, prev[u], prev[prev[u]], ..] ends in the root. *)
Inductive rpath : list jsval -> Z -> Prop :=
  | rpath_root : rpath [VStr root] 0
  | rpath_cons k c l w z :
      R (ToString c) (ToString k) w -> rpath (c :: l) z ->
      rpath (k :: c :: l) (z + w).

End TreeInvariant.

(** The state after a successful relaxation of [n] from [c]. *)
Definition relaxed (c : jsval) (zc : Z) (s : side) (n : jsval) (w : Z) : side :=
  {| dist := <[ToString n := Fin (zc + w)]> (dist s);
     prev := <[ToString n := c]> (prev s);
     visited := visited s;
     queue := queue s ++ [ {| q_node := n; q_dist := Fin (zc + w) |} ] |}.

(** The node settled by the next pop, if any. *)
Definition next_visit (s : side) : option jsval :=
  match queue_sort (queue s) with
  | [] => None
  | e :: _ =>
      if negb (truthy (q_node e)) || bool_decide (q_node e ∈ visited s)
      then None else Some (q_node e)
  end.

(** The effect of a pop on one direction, whichever it is. *)
Definition side_step (nbrs : jsval -> list (jsval * Z)) (s : side) : side :=
  match queue_sort (queue s) with
  | [] => s
  | e :: rest =>
      if negb (truthy (q_node e)) || bool_decide (q_node e ∈ visited s)
      then with_queue s rest
      else expand relax (q_node e) (nbrs (q_node e)) (with_queue s rest)
  end.

(** The chain of [prev] links from a settled node. *)
Fixpoint chain (fuel : nat) (p : gmap string jsval) (u : jsval)
    : option (list jsval) :=
  if truthy u then
    match fuel with
    | O => None
    | S f => cons u <$> chain f p (prev_get p u)
    end
  else Some [].

(** What the two initialisation loops establish. *)
Definition maps_ok (m : maps) : Prop :=
  ∀ k, (m.1 !! k = None ∧ m.2 !! k = None)
       ∨ (m.1 !! k = Some Inf ∧ m.2 !! k = Some VNull).

(** The candidate, once set, is a node settled by both directions. *)
Definition meet_inv (st : Part002.bstate) : Prop :=
  (Part002.meetingNode st = VNull ∧ Part002.bestDistance st = Inf)
  ∨ ∃ a b, Part002.meetingNode st ∈ visited (Part002.fwd st)
           ∧ Part002.meetingNode st ∈ visited (Part002.bwd st)
           ∧ dist (Part002.fwd st) !! ToString (Part002.meetingNode st) = Some (Fin a)
           ∧ dist (Part002.bwd st) !! ToString (Part002.meetingNode st) = Some (Fin b)
           ∧ Part002.bestDistance st = Fin (a + b).

Definition bidi_inv (kind : jsval -> bool) (g : graph) (s e : string)
    (st : Part002.bstate) : Prop :=
  side_inv s (Rf g) (ok_fwd kind s) (Part002.fwd st)
  ∧ side_inv e (Rb g) ok_bwd (Part002.bwd st)
  ∧ meet_inv st.

(** The candidate after a pop that settles [cur] (or settles nothing). *)
Definition met (cur : option jsval) (other : list jsval) (st : Part002.bstate)
    : num * jsval :=
  match cur with
  | Some current =>
      Part002.meet current (dist (Part002.fwd st)) (dist (Part002.bwd st)) other
        (Part002.bestDistance st) (Part002.meetingNode st)
  | None => (Part002.bestDistance st, Part002.meetingNode st)
  end.
(** ** Termination measure *)

(** All edges of the edge object. *)
Definition edges_of (g : graph) : list edge := flat_map snd g.

(** The values a direction can ever hold. *)
Definition universe_fwd (g : graph) (start : jsval) : list jsval :=
  start :: map e_node (edges_of g).
Definition universe_bwd (g : graph) (end_ : jsval) : list jsval :=
  end_ :: map VStr g.*1.

(** A pop removes one entry and, when it settles a node, adds at most one
    entry per edge; so this number goes down with every pop. *)
Definition side_measure (U : list jsval) (E : nat) (s : side) : nat :=
  (length (queue s) + (E + 1) * (length U - length (visited s)))%nat.

Definition side_bounded (U : list jsval) (s : side) : Prop :=
  NoDup (visited s)
  ∧ (∀ v, v ∈ visited s -> v ∈ U)
  ∧ (∀ e, e ∈ queue s -> q_node e ∈ U).

Definition bidi_measure (g : graph) (start end_ : jsval) (st : Part002.bstate) : nat :=
  (side_measure (universe_fwd g start) (length (edges_of g)) (Part002.fwd st)
   + side_measure (universe_bwd g end_) (length (edges_of g)) (Part002.bwd st))%nat.

Definition bidi_bounded (g : graph) (start end_ : jsval) (st : Part002.bstate) : Prop :=
  side_bounded (universe_fwd g start) (Part002.fwd st)
  ∧ side_bounded (universe_bwd g end_) (Part002.bwd st).

(** Fuel that suffices for the main loop and for the reconstruction. *)
Definition search_fuel (g : graph) (start end_ : jsval) : nat :=
  S (bidi_measure g start end_ (Part002.bidi_init g start end_)).

(** ** The loop as the stopping and step rules word it *)

(** Following the spec: the stop test and the choice of direction read the
    least tentative distance of each frontier; everything else is the loop
    of part_002. *)
Definition loop_body_min (g : graph) (st : Part002.bstate) : Part002.outcome :=
  let qF := queue (Part002.fwd st) in
  let qB := queue (Part002.bwd st) in
  if Part002.is_nil qF && Part002.is_nil qB then Part002.Break st
  else if num_leb (Part002.bestDistance st)
            (num_add (frontier_min qF) (frontier_min qB))
  then Part002.Break st
  else if negb (Part002.is_nil qF) && num_leb (frontier_min qF) (frontier_min qB)
  then Part002.Continue (Part002.advance_forward g st)
  else if negb (Part002.is_nil qB)
  then Part002.Continue (Part002.advance_backward g st)
  else Part002.Continue st.

Fixpoint bidi_loop_min (fuel : nat) (g : graph) (st : Part002.bstate)
    : option Part002.bstate :=
  match loop_body_min g st with
  | Part002.Break st' => Some st'
  | Part002.Continue st' =>
      match fuel with
      | O => None
      | S f => bidi_loop_min f g st'
      end
  end.

Definition bidirectionalDijkstra_min (fuel : nat) (g : graph)
    (start end_ : jsval) : option result :=
  if strict_eq start end_
  then Some {| path := [start]; distance := Some (Fin 0) |}
  else
    let m := init_maps g in
    match m.1 !! ToString start, m.1 !! ToString end_ with
    | Some _, Some _ =>
        st ← bidi_loop_min fuel g (Part002.bidi_init g start end_);
        Part002.reconstruct fuel st
    | _, _ => Some no_path
    end.

(** ** The domain of the statements on the searches *)

(** The property names of [Object.prototype]. The dictionaries of the
    searches are [{}] objects, and a read [obj[k]] finds an inherited
    function (for [__proto__], the prototype itself) when [k] is one of
    these names and [obj] has no own property [k]. The maps of this
    embedding hold own properties only: the statements on the searches
    are made for keys outside this list. *)
Definition proto_names : list string :=
  [ "constructor"; "__defineGetter__"; "__defineSetter__"; "hasOwnProperty";
    "__lookupGetter__"; "__lookupSetter__"; "isPrototypeOf";
    "propertyIsEnumerable"; "toString"; "valueOf"; "__proto__";
    "toLocaleString" ].

Definition plain_key (k : string) : Prop := k ∉ proto_names.

(** An identifier whose property name is plain; a numeric one is an
    integer below 2^53, which [String] prints in decimal digits. *)
Definition plain_id (v : jsval) : Prop :=
  plain_key (ToString v)
  ∧ match v with
    | VNum z => Z.abs z < 2 ^ 53
    | _ => True
    end.

Definition plain_id_check (v : jsval) : bool :=
  bool_decide (ToString v ∉ proto_names)
  && match v with
     | VNum z => Z.abs z <? 2 ^ 53
     | _ => true
     end.

Definition plain_graph (g : graph) : Prop :=
  (∀ k, k ∈ g.*1 -> plain_key k)
  ∧ ∀ k es e, (k, es) ∈ g -> e ∈ es -> plain_id (e_node e).

Definition plain_graph_check (g : graph) : bool :=
  forallb (fun k => bool_decide (k ∉ proto_names)) g.*1
  && all_edges (fun e => plain_id_check (e_node e)) g.

Definition plain_nodes (nodes : list node) : Prop :=
  ∀ n, n ∈ nodes -> plain_id (n_id n).

Definition plain_nodes_check (nodes : list node) : bool :=
  forallb (fun n => plain_id_check (n_id n)) nodes.

(** The weights of the embedding are integers. The code adds them as
    doubles, and a sum of integers is exact in doubles up to 2^53. A
    distance of a search is the weight of a walk that takes no edge
    twice, and a candidate of the bidirectional search is the sum of two
    distances: with a total weight of at most 2^52 every sum the
    searches form is exact. *)
Definition total_weight (g : graph) : Z :=
  foldr (fun p acc => foldr (fun e a => Z.abs (e_weight e) + a) acc p.2) 0 g.

Definition exact_sums (g : graph) : Prop := total_weight g <= 2 ^ 52.

(** ** Inputs of the closed examples *)

(** A planar stand-in for the great-circle distance, for closed examples;
    in each of them the nearest node lies at the query point itself. *)
Definition planar (lat1 lng1 lat2 lng2 : Qc) : option Qc :=
  Some ((lat1 - lat2) * (lat1 - lat2) + (lng1 - lng2) * (lng1 - lng2))%Qc.

Definition E (n : string) (w : Z) : edge := {| e_node := VStr n; e_weight := w |}.

Definition at_ (la lo : Z) : Indoor.location :=
  {| Indoor.lat := Indoor.ofZ la; Indoor.lng := Indoor.ofZ lo;
     Indoor.accuracy := None; Indoor.altitude := None; Indoor.speed := None |}.

Definition N (id : string) (la lo : Z) : node :=
  {| n_id := VStr id; n_lat := Indoor.ofZ la; n_lng := Indoor.ofZ lo |}.

Definition bare_location : Indoor.location := at_ 0 0.

Definition wifi_of (signals : list Z) : Indoor.wifi_data :=
  {| Indoor.networks :=
       Some (map (fun z => Some {| Indoor.signalStrength := Some (Indoor.ofZ z) |})
               signals) |}.

Definition weak_cell : Indoor.cellular_data :=
  {| Indoor.c_signalStrength := None;
     Indoor.c_networkType := Some "2g";
     Indoor.c_downlink := None |}.

(** The routing part of a reply: the response without its [indoorInfo]. *)
Definition routing_part (r : option reply) : option reply :=
  match r with
  | Some (Responded (Success route _)) => Some (Responded (Success route None))
  | _ => r
  end.

Definition two_nodes : list node := [N "a" 0 0; N "b" 0 1].

(** A node whose id is the number [0]. *)
Definition zero_node : node :=
  {| n_id := VNum 0; n_lat := Indoor.ofZ 0; n_lng := Indoor.ofZ 0 |}.
Definition one_edge : graph := [("a", [E "b" 1])].

(** A device report whose WiFi network list holds a [null] entry. *)
Definition null_network : Indoor.device_info :=
  {| Indoor.wifi := Some {| Indoor.networks := Some [None] |};
     Indoor.cellular := None |}.

Definition detour_graph : graph :=
  [ ("s", [E "u" 2; E "m" 13]);
    ("u", [E "v" 20]);
    ("v", [E "t" 2]);
    ("m", [E "t" 13]) ].

Definition skewed_graph : graph :=
  [ ("b", [E "t" 2]);
    ("s", [E "t" 5; E "a" 3; E "b" 3]);
    ("a", [E "t" 3]) ].

(** The chain [1 -> 2 -> 3] with numeric destinations, and the same with
    a long side branch [1 -> 9]. *)
Definition numeric_chain : graph :=
  [ ("1", [ {| e_node := VNum 2; e_weight := 1 |} ]);
    ("2", [ {| e_node := VNum 3; e_weight := 1 |} ]) ].

(** An edge object outside the data model: it names one node as the
    number [0] and as the string ["0"]. *)
Definition two_names_graph : graph :=
  [ ("s", [E "0" 10; E "b" 2; E "n" 8]);
    ("b", [ {| e_node := VNum 0; e_weight := 1 |} ]);
    ("n", [E "k" 1]);
    ("0", [E "n" 1]);
    ("k", [E "t" 20]) ].

Definition numeric_fork : graph :=
  [ ("1", [ {| e_node := VNum 2; e_weight := 1 |};
            {| e_node := VNum 9; e_weight := 100 |} ]);
    ("2", [ {| e_node := VNum 3; e_weight := 1 |} ]) ].

(** ** The indoor endpoint (part_002) *)

(** The [location] object of a [/detect_indoor] request: every property
    may be absent. *)
Record body_location := {
  b_lat : option Qc;
  b_lng : option Qc;
  b_accuracy : option Qc;
  b_altitude : option Qc;
  b_speed : option Qc
}.

(** What the classification reads of it. *)
Definition location_of (l : body_location) : Indoor.location :=
  {| Indoor.lat := default 0%Qc (b_lat l);
     Indoor.lng := default 0%Qc (b_lng l);
     Indoor.accuracy := b_accuracy l;
     Indoor.altitude := b_altitude l;
     Indoor.speed := b_speed l |}.

(** [res.status(400).json(..)] and [res.json({ success: true, isIndoor,
    confidence, details, location })]. *)
Inductive indoor_response :=
  | BadRequest (error : string)
  | Classified (isIndoor : bool) (confidence : Qc)
      (gps : Indoor.gps_result) (wifi : Indoor.wifi_result)
      (cellular : Indoor.cellular_result) (location : body_location).

Inductive indoor_reply :=
  | Answered (r : indoor_response)
  | Uncaught.

(** The handler of [/detect_indoor]; [location] is [None] when the body
    has no such property. *)
Definition detect_indoor (location : option body_location)
    (deviceInfo : option Indoor.device_info) : indoor_reply :=
  match location with
  | None => Answered (BadRequest "Location data (lat, lng) is required")
  | Some l =>
      if negb (Indoor.qtruthy (b_lat l)) || negb (Indoor.qtruthy (b_lng l))
      then Answered (BadRequest "Location data (lat, lng) is required")
      else
        match Indoor.comprehensiveIndoorDetection (location_of l) deviceInfo with
        | Indoor.Ok indoorResult =>
            Answered (Classified (Indoor.isIndoor indoorResult)
                        (Indoor.confidence indoorResult)
                        (Indoor.d_gps indoorResult)
                        (Indoor.d_wifi indoorResult)
                        (Indoor.d_cellular indoorResult) l)
        | Indoor.Throw => Uncaught
        end
  end.

(** ** Notions used by the statements on the classifiers *)

(** The distance of a node from the query point, as the scan computes it. *)
Definition dist_to (haversine : Qc -> Qc -> Qc -> Qc -> option Qc) (lat lng : Qc)
    (n : node) : option Qc :=
  haversine (n_lat n) (n_lng n) lat lng.

(** The nodes the scan looks at: those the guard does not skip. *)
Definition scanned (excludeNodeId : jsval) (nodes : list node) : list node :=
  filter (fun n => skipped excludeNodeId n = false) nodes.

(** [r] is the answer of a scan that looks at every node of [l]: [null]
    when no node of [l] has a distance that is a number, and otherwise
    the id of the first node of [l] at the least distance. *)
Definition nearest_in (haversine : Qc -> Qc -> Qc -> Qc -> option Qc)
    (lat lng : Qc) (l : list node) (r : jsval) : Prop :=
  (∀ n, n ∈ l -> dist_to haversine lat lng n = None) ∧ r = VNull
  ∨ ∃ i n d, l !! i = Some n ∧ dist_to haversine lat lng n = Some d
      ∧ r = n_id n
      ∧ (∀ m d', m ∈ l -> dist_to haversine lat lng m = Some d' -> (d <= d')%Qc)
      ∧ (∀ j m d', (j < i)%nat -> l !! j = Some m ->
           dist_to haversine lat lng m = Some d' -> (d < d')%Qc).

(** The GPS indicators: an accuracy that is absent, zero or above 20, an
    altitude that is absent or zero, a speed that is absent or zero. *)
Definition poor_accuracy (l : Indoor.location) : bool :=
  match Indoor.accuracy l with
  | Some a => bool_decide (a = 0%Qc) || bool_decide (Indoor.ofZ 20 < a)%Qc
  | None => true
  end.

Definition no_altitude (l : Indoor.location) : bool :=
  negb (Indoor.qtruthy (Indoor.altitude l)).

Definition no_speed (l : Indoor.location) : bool :=
  negb (Indoor.qtruthy (Indoor.speed l)).

(** The device report holds a [null] entry in its list of networks. *)
Definition has_null_network (deviceInfo : option Indoor.device_info) : Prop :=
  ∃ d w nets, deviceInfo = Some d ∧ Indoor.wifi d = Some w
              ∧ Indoor.networks w = Some nets ∧ None ∈ nets.

Definition b2z (b : bool) : Z := if b then 1 else 0.

(** A [location] with [lat] and [lng] only. *)
Definition lat_lng_only (la lo : Z) : body_location :=
  {| b_lat := Some (Indoor.ofZ la); b_lng := Some (Indoor.ofZ lo);
     b_accuracy := None; b_altitude := None; b_speed := None |}.

(** Inputs of the closed examples. *)
Definition three_nodes : list node := [N "a" 0 0; N "b" 0 1; N "c" 0 5].

(** The combined classification of a location that carries [lat] and
    [lng] only, with no device report. *)
Definition bare_result : Indoor.indoor_result :=
  {| Indoor.isIndoor := true; Indoor.confidence := Q2Qc (500 # 3);
     Indoor.d_gps := Indoor.detectIndoorFromGPS bare_location;
     Indoor.d_wifi :=
       {| Indoor.w_isIndoor := false; Indoor.w_confidence := 0%Qc;
          Indoor.w_reason := Some "No WiFi data";
          Indoor.w_networkCount := None; Indoor.w_averageSignal := None |};
     Indoor.d_cellular := Indoor.analyzeCellularNetwork None;
     Indoor.totalScore := 3; Indoor.checksPerformed := 1 |}.

(** A device report with a cellular part only. *)
Definition cell_only : Indoor.device_info :=
  {| Indoor.wifi := None; Indoor.cellular := Some weak_cell |}.

(** ** Shortest walks *)

(** [swalk R a b d]: a walk from [a] to [b] along [R], by string
    identifiers, of total weight [d]. *)
Inductive swalk (R : string -> string -> Z -> Prop) (a : string)
    : string -> Z -> Prop :=
  | swalk_refl : swalk R a a 0
  | swalk_snoc b c d w : swalk R a b d -> R b c w -> swalk R a c (d + w).

(** A walk of the graph from [a] to [b], the endpoints given by their
    string forms. *)
Definition walk_between (g : graph) (a b : string) (p : list jsval) (d : Z) : Prop :=
  is_walk g p d ∧ ToString <$> head p = Some a ∧ ToString <$> last p = Some b.

(** The values the single-direction search holds when every destination is
    a non-empty string. *)
Definition ok_str (v : jsval) : Prop := is_str v = true ∧ truthy v = true.

(** An edge object whose weights are at least 0 and whose destinations
    are non-empty strings. *)
Definition str_graph (g : graph) : Prop :=
  ∀ k es e, (k, es) ∈ g -> e ∈ es ->
    0 <= e_weight e ∧ is_str (e_node e) = true ∧ truthy (e_node e) = true.

Definition str_graph_check (g : graph) : bool :=
  all_edges (fun e => (0 <=? e_weight e) && is_str (e_node e) && truthy (e_node e)) g.

(** Every edge out of a settled node has been relaxed. *)
Definition closed (R : string -> string -> Z -> Prop) (s : side) : Prop :=
  ∀ v zv k w, v ∈ visited s -> dist s !! ToString v = Some (Fin zv) ->
    R (ToString v) k w -> ∃ zk, dist s !! k = Some (Fin zk) ∧ zk <= zv + w.

(** The distance of a settled node is a lower bound on the weight of every
    walk from the root to it. *)
Definition lower (root : string) (R : string -> string -> Z -> Prop) (s : side)
    : Prop :=
  ∀ v zv w, v ∈ visited s -> dist s !! ToString v = Some (Fin zv) ->
    swalk R root (ToString v) w -> zv <= w.

(** A node without a finite distance has no predecessor. *)
Definition null_inv (s : side) : Prop :=
  ∀ k, (∃ z, dist s !! k = Some (Fin z))
       ∨ prev s !! k = None ∨ prev s !! k = Some VNull.

(** The state of the single-direction search of index.js and part_001 on
    entry to its loop, and fuel that suffices for the whole search. *)
Definition start_side (g : graph) (start : jsval) : side :=
  {| dist := <[ToString start := Fin 0]> (init_maps g).1; prev := (init_maps g).2;
     visited := [];
     queue := [ {| q_node := start; q_dist := Fin 0 |} ] |}.

Definition dijkstra_fuel (g : graph) (start : jsval) : nat :=
  S (side_measure (universe_fwd g start) (length (edges_of g)) (start_side g start)).

(** ** The first search (part_000) *)

(** The state of the part_000 search on entry to its loop: only the
    source keys have entries. *)
Definition start_side0 (g : graph) (start : jsval) : side :=
  {| dist := <[ToString start := Fin 0]> (init_keys g (∅, ∅)).1;
     prev := (init_keys g (∅, ∅)).2;
     visited := [];
     queue := [ {| q_node := start; q_dist := Fin 0 |} ] |}.

(** The node has no entry in [distances] nor in [prev]. *)
Definition unknown (k : string) (s : side) : Prop :=
  dist s !! k = None ∧ prev s !! k = None.

(** Every destination of the edge object is one of its source keys. *)
Definition dests_are_keys (g : graph) : Prop :=
  ∀ k es e, (k, es) ∈ g -> e ∈ es -> ToString (e_node e) ∈ g.*1.

Definition dests_are_keys_check (g : graph) : bool :=
  all_edges (fun e => bool_decide (ToString (e_node e) ∈ g.*1)) g.

(** Every source key has its two entries, and the queue holds truthy
    values only. *)
Definition keys_known (g : graph) (s : side) : Prop :=
  (∀ k, k ∈ g.*1 -> is_Some (dist s !! k) ∧ is_Some (prev s !! k))
  ∧ ∀ x, x ∈ queue s -> truthy (q_node x) = true.

(** A network entry with a signal strength. *)
Definition heard (q : Qc) : option Indoor.network :=
  Some {| Indoor.signalStrength := Some q |}.

Definition ring_graph : graph :=
  [ ("s", [E "u" 2; E "m" 13]);
    ("u", [E "t" 20]);
    ("m", [E "t" 13]);
    ("t", [E "s" 1]) ].

(** * Properties *)

(** ** Snapping *)

Section LocatorFacts.

Variable haversine : Qc -> Qc -> Qc -> Qc -> option Qc.

Lemma skipped_falsy ex n : truthy ex = false -> skipped ex n = false.
Proof. unfold skipped. by intros ->. Qed.

Lemma skipped_truthy ex n :
  truthy ex = true ->
  skipped ex n = true <-> ToString (n_id n) = ToString ex.
Proof.
  unfold skipped. intros ->. simpl. by rewrite bool_decide_eq_true.
Qed.

Lemma scan_filter lat lng ex nodes st :
  foldl (scan_step haversine lat lng ex) st nodes
  = foldl (scan_step haversine lat lng VNull) st
      (filter (fun n => skipped ex n = false) nodes).
Proof.
  revert st. induction nodes as [|n nodes IH]; intros st; [done|].
  rewrite filter_cons. simpl. destruct (decide (skipped ex n = false)) as [Hs|Hs].
  - simpl. rewrite IH. f_equal. unfold scan_step. rewrite Hs. done.
  - rewrite IH. f_equal. unfold scan_step.
    destruct (skipped ex n); [done | congruence].
Qed.

Lemma scan_falsy lat lng ex nodes st :
  truthy ex = false ->
  foldl (scan_step haversine lat lng ex) st nodes
  = foldl (scan_step haversine lat lng VNull) st nodes.
Proof.
  intros Hf. revert st. induction nodes as [|n nodes IH]; intros st; [done|].
  simpl. rewrite IH. f_equal. unfold scan_step.
  by rewrite (skipped_falsy ex n Hf).
Qed.

Lemma scan_result lat lng ex nodes st :
  (foldl (scan_step haversine lat lng ex) st nodes).2 = st.2
  ∨ ∃ n, n ∈ nodes ∧ (foldl (scan_step haversine lat lng ex) st nodes).2 = n_id n.
Proof.
  revert st. induction nodes as [|n nodes IH]; intros st; [by left|].
  simpl. destruct (IH (scan_step haversine lat lng ex st n)) as [H|(m & Hm & H)].
  - rewrite H. unfold scan_step.
    destruct (skipped ex n); [by left|].
    destruct (haversine (n_lat n) (n_lng n) lat lng); [|by left].
    destruct st.1; [case_bool_decide|]; simpl; eauto using list_elem_of_here.
  - right. exists m. split; [by apply list_elem_of_further | done].
Qed.

Lemma findNearestNode_empty lat lng ex :
  findNearestNode haversine lat lng [] ex = VNull.
Proof. reflexivity. Qed.

End LocatorFacts.


(** ** Graph construction *)

Lemma add_dest_ids (es : list edge) (s : gset string) (x : string) :
  x ∈ foldl (fun acc e => acc ∪ {[ ToString (e_node e) ]}) s es
  <-> x ∈ s ∨ ∃ e, e ∈ es ∧ x = ToString (e_node e).
Proof.
  revert s. induction es as [|e es IH]; intros s; simpl.
  - split; [by left | intros [H | (e & He & _)]; [done | by apply elem_of_nil in He]].
  - rewrite IH, elem_of_union, elem_of_singleton. split.
    + intros [[H | H] | (e' & He' & H)]; eauto using list_elem_of_here, list_elem_of_further.
    + intros [H | (e' & He' & H)]; [by left; left|].
      apply elem_of_cons in He' as [-> | He']; [by left; right | right; eauto].
Qed.

Lemma routable_fold (g : graph) (s : gset string) (x : string) :
  x ∈ foldl add_edge_ids s g <-> x ∈ s ∨ in_S g x.
Proof.
  revert s. induction g as [|[k es] g IH]; intros s; simpl.
  - split; [by left|]. intros [H | [(es & H) | (k & es & e & H & _)]];
      [done | by apply elem_of_nil in H ..].
  - rewrite IH. unfold add_edge_ids at 1. simpl.
    rewrite add_dest_ids, elem_of_union, elem_of_singleton. unfold in_S. split.
    + intros [[[H | ->] | (e & He & ->)] | [(es' & H) | (k' & es' & e & H & He & ->)]].
      * by left.
      * right; left. exists es. apply list_elem_of_here.
      * right; right. exists k, es, e. split; [apply list_elem_of_here | done].
      * right; left. exists es'. by apply list_elem_of_further.
      * right; right. exists k', es', e. split; [by apply list_elem_of_further | done].
    + intros [H | [(es' & H) | (k' & es' & e & H & He & ->)]].
      * by left; left; left.
      * apply elem_of_cons in H as [[= -> ->] | H]; [by left; left; right|].
        right; left. by exists es'.
      * apply elem_of_cons in H as [[= -> ->] | H]; [left; right; eauto|].
        right; right. by exists k', es', e.
Qed.

Lemma routableNodeIds_spec (g : graph) (x : string) :
  x ∈ routableNodeIds g <-> in_S g x.
Proof.
  unfold routableNodeIds. rewrite routable_fold. split; [|by right].
  intros [H | H]; [by apply not_elem_of_empty in H | done].
Qed.


(** ** The same-node shortcut *)

(** C4. With [start === end] the bidirectional search and the
    single-direction search of index.js and part_001 return the one-node
    path and distance 0 whatever the graph. The result needs no fuel: it
    stands for fuel 0, which allows no iteration of any loop, hence no pop
    from a frontier and no relaxation. *)
Theorem same_node_shortcut (fuel : nat) (g : graph) (x : jsval) :
  Part002.bidirectionalDijkstra fuel g x x
    = Some {| path := [x]; distance := Some (Fin 0) |}
  ∧ Part002.bidirectionalDijkstra 0 g x x
    = Some {| path := [x]; distance := Some (Fin 0) |}
  ∧ Index.dijkstra fuel g x x
    = Some {| path := [x]; distance := Some (Fin 0) |}
  ∧ Index.dijkstra 0 g x x
    = Some {| path := [x]; distance := Some (Fin 0) |}
  ∧ Part001.dijkstra 0 g x x
    = Some {| path := [x]; distance := Some (Fin 0) |}.
Proof.
  unfold Part001.dijkstra, Part002.bidirectionalDijkstra, Index.dijkstra, strict_eq.
  rewrite bool_decide_eq_true_2 by done. done.
Qed.

(** ** The empty routable set *)

(** C5, evaluated on the code: on an empty node list the lookup returns
    [null] for every coordinate and exclusion, and the part_002 handler
    answers with the too-close failure, for every edge object, request and
    device information; that failure is not the no-nearby-road failure. *)
Theorem empty_nodes_too_close haversine (fuel : nat) (graphEdges : graph)
    (start end_ : Indoor.location) (deviceInfo : option Indoor.device_info)
    (lat lng : Qc) (ex : jsval) :
  findNearestNode haversine lat lng [] ex = VNull
  ∧ Part002.calculate_route haversine fuel (Some []) (Some graphEdges)
      start end_ deviceInfo
    = Some (Responded (Failure Part002.TooClose))
  ∧ Part001.calculate_route haversine fuel (Some []) (Some graphEdges) start end_
    = Some (Responded (Failure Part001.TooClose))
  ∧ Part002.TooClose ≠ Part002.NoNearbyNode
  ∧ Index.calculate_route haversine fuel (Some []) (Some graphEdges) start end_
    = Some (Responded (Failure "No nearby node found.")).
Proof. repeat split; done. Qed.

(** ** The boundary on the path length *)

(** C6, counterexample: in index.js a request whose two endpoints snap to
    the same node reaches the search, the search returns the one-node
    path, and the response is the no-route failure. *)
Lemma index_rejects_single_node :
  let nodes := [N "a" 0 0] in
  let edges : graph := [("a", [])] in
  Index.dijkstra 0 edges (VStr "a") (VStr "a")
    = Some {| path := [VStr "a"]; distance := Some (Fin 0) |}
  ∧ Index.calculate_route planar 0 (Some nodes) (Some edges) (at_ 0 0) (at_ 0 0)
    = Some (Responded (Failure "No route found.")).
Proof. split; reflexivity. Qed.

(** C6, amended. After the search, part_000, part_001 and part_002 answer
    with the no-route failure exactly when the path is empty and with a
    success for every non-empty path; index.js answers with the no-route
    failure when the path has at most one node and with a success when it
    has two or more. *)
Theorem respond_boundary (graphNodes : list node) (info : indoor_info) (r : result) :
  Part000.respond graphNodes r
    = match path r with
      | [] => Failure "No route found."
      | _ :: _ => Success (coords_of_strict graphNodes (path r)) None
      end
  ∧ Part001.respond graphNodes r
    = match path r with
      | [] => Failure Part001.NoRoute
      | _ :: _ => Success (coords_of graphNodes (path r)) None
      end
  ∧ Part002.respond graphNodes info r
    = match path r with
      | [] => Failure Part002.NoRoute
      | _ :: _ => Success (coords_of graphNodes (path r)) (Some info)
      end
  ∧ Index.respond graphNodes r
    = match path r with
      | [] | [_] => Failure "No route found."
      | _ :: _ :: _ => Success (coords_of_strict graphNodes (path r)) None
      end.
Proof.
  unfold Part000.respond, Part001.respond, Part002.respond, Index.respond.
  destruct (path r) as [|a [|b l]]; simpl; repeat split; try done;
    repeat case_bool_decide; simpl in *; try done; lia.
Qed.

(** ** Indoor classification *)

(** C8, evaluated on the code: a location with only [lat] and [lng], which
    is what the route handler passes, scores 5 over 3 checks, so the GPS
    confidence is 500/3 and so is the combined confidence; nine strong
    networks give the WiFi detector 150, and a weak 2g cell gives the
    cellular detector 400/3. All exceed 100. *)
Theorem confidence_exceeds_100 :
  Indoor.g_confidence (Indoor.detectIndoorFromGPS bare_location)
    = Q2Qc (500 # 3)
  ∧ (Indoor.ofZ 100 < Indoor.g_confidence (Indoor.detectIndoorFromGPS bare_location))%Qc
  ∧ (∃ r, Indoor.comprehensiveIndoorDetection bare_location None = Indoor.Ok r
          ∧ Indoor.confidence r = Q2Qc (500 # 3)
          ∧ (Indoor.ofZ 100 < Indoor.confidence r)%Qc)
  ∧ (∃ w, Indoor.analyzeWiFiNetworks (Some (wifi_of (replicate 9 (-40)))) = Indoor.Ok w
          ∧ Indoor.w_confidence w = Q2Qc (150 # 1))
  ∧ Indoor.k_confidence (Indoor.analyzeCellularNetwork (Some weak_cell))
    = Q2Qc (400 # 3).
Proof.
  assert (Hq : ∀ a b : Qc, this a = this b -> a = b).
  { intros a b H. by apply Qc_is_canon; rewrite H. }
  split; [by apply Hq; vm_compute|].
  split; [by vm_compute|].
  split; [eexists; split; [reflexivity|]; split; [by apply Hq; vm_compute | by vm_compute]|].
  split; [eexists; split; [reflexivity|]; by apply Hq; vm_compute|].
  by apply Hq; vm_compute.
Qed.

(** ** Fuel *)

(** A result obtained with some fuel is the result for any larger fuel. *)
Lemma chain_unshift_mono f f' p u acc l :
  chain_unshift f p u acc = Some l -> (f <= f')%nat ->
  chain_unshift f' p u acc = Some l.
Proof.
  revert f' u acc. induction f as [|f IH]; intros f' u acc H Hle;
    destruct f'; simpl in *; destruct (truthy u); try done; try lia.
  apply IH; [done | lia].
Qed.

Lemma chain_push_mono f f' p u acc l :
  chain_push f p u acc = Some l -> (f <= f')%nat ->
  chain_push f' p u acc = Some l.
Proof.
  revert f' u acc. induction f as [|f IH]; intros f' u acc H Hle;
    destruct f'; simpl in *; destruct (truthy u); try done; try lia.
  apply IH; [done | lia].
Qed.

Lemma bidi_loop_mono f f' g st r :
  Part002.bidi_loop f g st = Some r -> (f <= f')%nat ->
  Part002.bidi_loop f' g st = Some r.
Proof.
  revert f' st. induction f as [|f IH]; intros f' st H Hle;
    destruct f'; simpl in *; destruct (Part002.loop_body g st); try done; try lia.
  apply IH; [done | lia].
Qed.

Lemma bidi_loop_min_mono f f' g st r :
  bidi_loop_min f g st = Some r -> (f <= f')%nat ->
  bidi_loop_min f' g st = Some r.
Proof.
  revert f' st. induction f as [|f IH]; intros f' st H Hle;
    destruct f'; simpl in *; destruct (loop_body_min g st); try done; try lia.
  apply IH; [done | lia].
Qed.

Lemma reconstruct_mono f f' st r :
  Part002.reconstruct f st = Some r -> (f <= f')%nat ->
  Part002.reconstruct f' st = Some r.
Proof.
  unfold Part002.reconstruct. intros H Hle.
  destruct (negb (strict_eq (Part002.meetingNode st) VNull)); [|done].
  destruct (chain_unshift f _ _ _) as [p1|] eqn:H1; [|done]. simpl in H.
  rewrite (chain_unshift_mono _ _ _ _ _ _ H1 Hle). simpl.
  destruct (chain_push f _ _ _) as [p2|] eqn:H2; [|done]. simpl in H.
  by rewrite (chain_push_mono _ _ _ _ _ _ H2 Hle).
Qed.

Lemma bidirectionalDijkstra_mono f f' g a b r :
  Part002.bidirectionalDijkstra f g a b = Some r -> (f <= f')%nat ->
  Part002.bidirectionalDijkstra f' g a b = Some r.
Proof.
  unfold Part002.bidirectionalDijkstra. intros H Hle.
  destruct (strict_eq a b); [done|].
  destruct ((init_maps g).1 !! ToString a); [|done].
  destruct ((init_maps g).1 !! ToString b); [|done].
  destruct (Part002.bidi_loop f _ _) as [st|] eqn:H1; [|done]. simpl in H.
  rewrite (bidi_loop_mono _ _ _ _ _ H1 Hle). simpl.
  by eapply reconstruct_mono.
Qed.

Lemma bidirectionalDijkstra_min_mono f f' g a b r :
  bidirectionalDijkstra_min f g a b = Some r -> (f <= f')%nat ->
  bidirectionalDijkstra_min f' g a b = Some r.
Proof.
  unfold bidirectionalDijkstra_min. intros H Hle.
  destruct (strict_eq a b); [done|].
  destruct ((init_maps g).1 !! ToString a); [|done].
  destruct ((init_maps g).1 !! ToString b); [|done].
  destruct (bidi_loop_min f _ _) as [st|] eqn:H1; [|done]. simpl in H.
  rewrite (bidi_loop_min_mono _ _ _ _ _ H1 Hle). simpl.
  by eapply reconstruct_mono.
Qed.

Lemma dijkstra_loop_mono f f' g b s r :
  Index.dijkstra_loop f g b s = Some r -> (f <= f')%nat ->
  Index.dijkstra_loop f' g b s = Some r.
Proof.
  revert f' s. induction f as [|f IH]; intros f' s H Hle;
    destruct f'; simpl in *; destruct (queue_sort (queue s)); try done; try lia.
  repeat (match goal with |- context [if ?c then _ else _] => destruct c end);
    try done; apply IH; try done; lia.
Qed.

Lemma dijkstra_mono f f' g a b r :
  Index.dijkstra f g a b = Some r -> (f <= f')%nat ->
  Index.dijkstra f' g a b = Some r.
Proof.
  unfold Index.dijkstra. intros H Hle.
  destruct (strict_eq a b); [done|].
  destruct ((init_maps g).1 !! ToString a); [|done].
  destruct (Index.dijkstra_loop f _ _ _) as [s|] eqn:H1; [|done]. simpl in H.
  rewrite (dijkstra_loop_mono _ _ _ _ _ _ H1 Hle). simpl.
  destruct (negb (bool_decide (prev s !! ToString b = Some VNull)) || strict_eq b a).
  - destruct (chain_unshift f _ _ _) as [p1|] eqn:H2; [|done]. simpl in H.
    by rewrite (chain_unshift_mono _ _ _ _ _ _ H2 Hle).
  - done.
Qed.

Lemma calculate_route_mono haversine f f' nodes edges a b d r :
  Part002.calculate_route haversine f nodes edges a b d = Some r -> (f <= f')%nat ->
  Part002.calculate_route haversine f' nodes edges a b d = Some r.
Proof.
  unfold Part002.calculate_route. intros H Hle.
  destruct nodes as [nodes|]; [|done]. destruct edges as [edges|]; [|done].
  destruct (bool_decide _); [done|].
  destruct (Indoor.comprehensiveIndoorDetection a d); [|done].
  destruct (Indoor.comprehensiveIndoorDetection b d); [|done].
  destruct (_ || _); [done|].
  destruct (Part002.bidirectionalDijkstra f _ _ _) as [x|] eqn:H1; [|done].
  by rewrite (bidirectionalDijkstra_mono _ _ _ _ _ _ H1 Hle).
Qed.

(** ** Device information and the route *)

(** X19. When the classification returns for both device inputs, the replies
    agree on everything but [indoorInfo]. *)
Lemma device_info_advisory_when_returning haversine fuel graphNodes graphEdges
    start end_ d1 d2 :
  Part002.calculate_route haversine fuel graphNodes graphEdges start end_ d1 ≠ Some Threw ->
  Part002.calculate_route haversine fuel graphNodes graphEdges start end_ d2 ≠ Some Threw ->
  routing_part (Part002.calculate_route haversine fuel graphNodes graphEdges start end_ d1)
  = routing_part (Part002.calculate_route haversine fuel graphNodes graphEdges start end_ d2).
Proof.
  unfold Part002.calculate_route.
  destruct graphNodes as [nodes|]; [|done]. destruct graphEdges as [edges|]; [|done].
  case_bool_decide; [done|].
  destruct (Indoor.comprehensiveIndoorDetection start d1),
    (Indoor.comprehensiveIndoorDetection end_ d1),
    (Indoor.comprehensiveIndoorDetection start d2),
    (Indoor.comprehensiveIndoorDetection end_ d2); try done.
  intros _ _. destruct (_ || _); [done|].
  destruct (Part002.bidirectionalDijkstra _ _ _ _) as [r|]; [|done]. simpl.
  unfold Part002.respond.
  destruct (bool_decide (length (path r) < 1)%nat); reflexivity.
Qed.

(** C9, evaluated on the code: on the two-node graph [a -> b] the request
    from [a] to [b] succeeds with the two-point route when no device
    information is sent, and ends in an uncaught [TypeError], with no
    response, when the device information lists a [null] network: the
    classification runs before the search and its exception is not
    caught. *)
Theorem device_info_can_abort_route (n : nat) :
  routing_part
    (Part002.calculate_route planar (5 + n) (Some two_nodes) (Some one_edge)
       (at_ 0 0) (at_ 0 1) None)
  = Some (Responded (Success
      [ {| c_lat := Indoor.ofZ 0; c_lng := Indoor.ofZ 0 |};
        {| c_lat := Indoor.ofZ 0; c_lng := Indoor.ofZ 1 |} ] None))
  ∧ Part002.calculate_route planar (5 + n) (Some two_nodes) (Some one_edge)
      (at_ 0 0) (at_ 0 1) (Some null_network)
    = Some Threw
  ∧ Indoor.analyzeWiFiNetworks (Indoor.wifi null_network) = Indoor.Throw.
Proof.
  split; [|split; [|by vm_compute]].
  - assert (Hle : (5 <= 5 + n)%nat) by lia.
    pose proof (calculate_route_mono planar 5 (5 + n) (Some two_nodes)
                  (Some one_edge) (at_ 0 0) (at_ 0 1) None) as Hm.
    destruct (Part002.calculate_route planar 5 (Some two_nodes) (Some one_edge)
                (at_ 0 0) (at_ 0 1) None) as [r|] eqn:H5;
      vm_compute in H5; [|discriminate].
    rewrite (Hm r eq_refl Hle). injection H5 as <-. reflexivity.
  - apply (calculate_route_mono planar 0 (5 + n)); [by vm_compute | lia].
Qed.

(** ** Optimality of the bidirectional search *)

Lemma has_edge_str (g : graph) (a b : string) (w : Z) (es : list edge) :
  graph_get g a = Some es -> E b w ∈ es -> has_edge g (VStr a) (VStr b) w.
Proof. intros Hg He. by exists es, (E b w). Qed.

Lemma detour_walk : is_walk detour_graph [VStr "s"; VStr "u"; VStr "v"; VStr "t"] 24.
Proof.
  change 24 with (2 + (20 + (2 + 0))).
  repeat (apply walk_step;
    [eapply has_edge_str; [reflexivity | by repeat constructor] |]).
  apply walk_one.
Qed.

(** C1, evaluated on the code: on [detour_graph] the walk [s u v t] has
    weight 24 and the single-direction search returns it, while the
    bidirectional search returns [s m t] with distance 26, and does so
    too when the loop reads the true frontier minima. With a single edge
    of weight 0, and on the chain [1 -> 2 -> 3] with numeric destinations,
    the bidirectional search reports no path at all where the
    single-direction search finds one. *)
Theorem bidirectional_not_shortest (n : nat) :
  Part002.bidirectionalDijkstra (20 + n) detour_graph (VStr "s") (VStr "t")
    = Some {| path := [VStr "s"; VStr "m"; VStr "t"]; distance := Some (Fin 26) |}
  ∧ Part001.dijkstra (20 + n) detour_graph (VStr "s") (VStr "t")
    = Some {| path := [VStr "s"; VStr "u"; VStr "v"; VStr "t"];
              distance := Some (Fin 24) |}
  ∧ is_walk detour_graph [VStr "s"; VStr "u"; VStr "v"; VStr "t"] 24
  ∧ bidirectionalDijkstra_min (20 + n) detour_graph (VStr "s") (VStr "t")
    = Some {| path := [VStr "s"; VStr "m"; VStr "t"]; distance := Some (Fin 26) |}
  ∧ Part002.bidirectionalDijkstra (20 + n) [("s", [E "t" 0])] (VStr "s") (VStr "t")
    = Some no_path
  ∧ Part001.dijkstra (20 + n) [("s", [E "t" 0])] (VStr "s") (VStr "t")
    = Some {| path := [VStr "s"; VStr "t"]; distance := Some (Fin 0) |}
  ∧ Part002.bidirectionalDijkstra (20 + n) numeric_chain (VStr "1") (VStr "3")
    = Some no_path
  ∧ Part001.dijkstra (20 + n) numeric_chain (VStr "1") (VStr "3")
    = Some {| path := [VStr "1"; VNum 2; VStr "3"]; distance := Some (Fin 2) |}.
Proof.
  assert (H20 : (20 <= 20 + n)%nat) by lia.
  repeat split; try apply detour_walk;
    first [ apply (bidirectionalDijkstra_mono 20 (20 + n)); [by vm_compute | exact H20]
          | apply (bidirectionalDijkstra_min_mono 20 (20 + n)); [by vm_compute | exact H20]
          | apply (dijkstra_mono 20 (20 + n)); [by vm_compute | exact H20] ].
Qed.

(** ** The stop test *)

Lemma skewed_walk : is_walk skewed_graph [VStr "s"; VStr "b"; VStr "t"] 5.
Proof.
  change 5 with (3 + (2 + 0)).
  repeat (apply walk_step;
    [eapply has_edge_str; [reflexivity | by repeat constructor] |]).
  apply walk_one.
Qed.

(** C2, evaluated on the code: after the first pass of the loop on
    [skewed_graph] the forward queue is [t:5, a:3, b:3]; the next passes
    read 5 for the forward frontier, whose least distance is 3, and so
    advance the backward side until it has settled [a]. The search then
    meets at [a] and stops with distance 6, although [s b t] is a walk of
    weight 5; the same loop reading the true minima returns that walk. *)
Theorem stop_test_reads_unsorted_head (n : nat) :
  ∃ st1,
    Part002.loop_body skewed_graph
      (Part002.bidi_init skewed_graph (VStr "s") (VStr "t"))
    = Part002.Continue st1
    ∧ queue (Part002.fwd st1)
      = [ {| q_node := VStr "t"; q_dist := Fin 5 |};
          {| q_node := VStr "a"; q_dist := Fin 3 |};
          {| q_node := VStr "b"; q_dist := Fin 3 |} ]
    ∧ Part002.head_dist (queue (Part002.fwd st1)) = Fin 5
    ∧ frontier_min (queue (Part002.fwd st1)) = Fin 3
    ∧ Part002.bidirectionalDijkstra (20 + n) skewed_graph (VStr "s") (VStr "t")
      = Some {| path := [VStr "s"; VStr "a"; VStr "t"]; distance := Some (Fin 6) |}
    ∧ bidirectionalDijkstra_min (20 + n) skewed_graph (VStr "s") (VStr "t")
      = Some {| path := [VStr "s"; VStr "b"; VStr "t"]; distance := Some (Fin 5) |}
    ∧ is_walk skewed_graph [VStr "s"; VStr "b"; VStr "t"] 5.
Proof.
  eexists. split; [vm_compute; reflexivity|]. split; [by vm_compute|].
  split; [by vm_compute|]. split; [by vm_compute|].
  split; [apply (bidirectionalDijkstra_mono 20 (20 + n)); [by vm_compute | lia]|].
  split; [apply (bidirectionalDijkstra_min_mono 20 (20 + n)); [by vm_compute | lia]|].
  apply skewed_walk.
Qed.

(** ** Sorting the frontier *)

Lemma num_leb_total a b : num_leb a b = false -> num_leb b a = true.
Proof.
  destruct a, b; simpl; try done. intros H. apply Z.leb_gt in H.
  apply Z.leb_le. lia.
Qed.

Lemma num_leb_trans a b c :
  num_leb a b = true -> num_leb b c = true -> num_leb a c = true.
Proof. destruct a, b, c; simpl; try done. rewrite !Z.leb_le. lia. Qed.

Lemma sort_insert_elem x l y : y ∈ sort_insert x l <-> y = x ∨ y ∈ l.
Proof.
  induction l as [|z l IH]; simpl.
  - rewrite elem_of_cons, elem_of_nil. tauto.
  - destruct (num_leb (q_dist x) (q_dist z)).
    + by rewrite elem_of_cons.
    + rewrite !elem_of_cons, IH. tauto.
Qed.

Lemma queue_sort_elem l y : y ∈ queue_sort l <-> y ∈ l.
Proof.
  induction l as [|x l IH]; simpl; [done|].
  rewrite sort_insert_elem, IH, elem_of_cons. tauto.
Qed.

Lemma sort_insert_sorted x l :
  StronglySorted qle l -> StronglySorted qle (sort_insert x l).
Proof.
  induction l as [|z l IH]; intros Hs; simpl.
  - by repeat constructor.
  - apply StronglySorted_inv in Hs as [Hs Hz].
    destruct (num_leb (q_dist x) (q_dist z)) eqn:Hle.
    + constructor; [by constructor|]. constructor; [done|].
      eapply Forall_impl; [exact Hz|]. intros y Hy.
      unfold qle in *. by eapply num_leb_trans.
    + constructor; [by apply IH|].
      apply Forall_forall. intros y Hy. apply sort_insert_elem in Hy as [->|Hy].
      * by apply num_leb_total.
      * rewrite Forall_forall in Hz. by apply Hz.
Qed.

Lemma queue_sort_sorted l : StronglySorted qle (queue_sort l).
Proof.
  induction l as [|x l IH]; simpl; [constructor | by apply sort_insert_sorted].
Qed.

(** After the sort the head is a least entry and the tail is the rest. *)
Lemma queue_sort_head l e rest :
  queue_sort l = e :: rest ->
  e ∈ l ∧ (∀ e', e' ∈ rest -> e' ∈ l) ∧ (∀ e', e' ∈ l -> e' = e ∨ e' ∈ rest)
  ∧ (∀ e', e' ∈ l -> qle e e').
Proof.
  intros Hq. pose proof (queue_sort_sorted l) as Hs. rewrite Hq in Hs.
  apply StronglySorted_inv in Hs as [_ Hall]. rewrite Forall_forall in Hall.
  split; [apply queue_sort_elem; rewrite Hq; by left|].
  split; [|split].
  - intros e' He'. apply queue_sort_elem. rewrite Hq. by right.
  - intros e' He'. apply queue_sort_elem in He'. rewrite Hq in He'.
    by apply elem_of_cons in He'.
  - intros e' He'. apply queue_sort_elem in He'. rewrite Hq in He'.
    apply elem_of_cons in He' as [->|He']; [|by apply Hall].
    unfold qle. destruct (q_dist e) as [z|]; simpl; [by apply Z.leb_le|done].
Qed.

(** ** One direction of search *)

Section Side.

Variable root : string.
Variable R : string -> string -> Z -> Prop.
Variable ok : jsval -> Prop.
Variable nbrs : jsval -> list (jsval * Z).

Hypothesis ok_inj : ∀ v1 v2, ok v1 -> ok v2 -> ToString v1 = ToString v2 -> v1 = v2.
Hypothesis ok_root : ok (VStr root).
Hypothesis nbrs_sound : ∀ c n w, ok c -> (n, w) ∈ nbrs c ->
  (ok n ∨ ToString n = root) ∧ R (ToString c) (ToString n) w ∧ 0 <= w.

Lemma relax_cases c zc s n w :
  dist s !! ToString c = Some (Fin zc) ->
  (relax c s (n, w) = s
   ∧ ∃ zk, dist s !! ToString n = Some (Fin zk) ∧ zk <= zc + w)
  ∨ (relax c s (n, w) = relaxed c zc s n w
     ∧ ∀ zk, dist s !! ToString n = Some (Fin zk) -> zc + w < zk).
Proof.
  intros Hc. unfold relax. destruct s as [d p v q]. simpl in *. rewrite Hc. simpl.
  destruct (d !! ToString n) as [[zk|]|] eqn:Hk; simpl.
  - rewrite Hk. simpl. destruct (Z.ltb_spec (zc + w) zk).
    + right. split; [done|]. intros ? [= <-]. done.
    + left. split; [done|]. exists zk. split; [done|lia].
  - rewrite Hk. simpl. right. split; [done|]. intros ? [=].
  - rewrite lookup_insert_eq. simpl. right. split.
    + unfold relaxed. f_equal. by rewrite insert_insert_eq.
    + intros ? [=].
Qed.

Lemma relaxed_inv c zc s n w :
  exp_inv root R ok c zc s ->
  ok n ∨ ToString n = root -> R (ToString c) (ToString n) w -> 0 <= w ->
  (∀ zk, dist s !! ToString n = Some (Fin zk) -> zc + w < zk) ->
  exp_inv root R ok c zc (relaxed c zc s n w)
  ∧ ∀ v, v ∈ visited s ->
      dist (relaxed c zc s n w) !! ToString v = dist s !! ToString v
      ∧ prev (relaxed c zc s n w) !! ToString v = prev s !! ToString v.
Proof.
  intros (Hinv & Hcv & Hc & Htop) Hokn HR Hw Hlt.
  destruct Hinv as [Hroot Hproot Hq Hvis Hnd Hmono Hpend Hnn Htree].
  assert (Hzc : 0 <= zc) by eauto.
  assert (Hkr : ToString n ≠ root).
  { intros Heq. rewrite Heq in Hlt. specialize (Hlt _ Hroot). lia. }
  assert (Hn : ok n) by (destruct Hokn; done).
  assert (Hkv : ∀ v, v ∈ visited s -> ToString n ≠ ToString v).
  { intros v Hin Heq. destruct (Hvis _ Hin) as (_ & _ & z0 & Hd).
    rewrite <- Heq in Hd. specialize (Hlt _ Hd).
    rewrite Heq in Hd. specialize (Htop _ _ Hin Hd). lia. }
  split; [|intros v Hin; simpl; rewrite !lookup_insert_ne by eauto; done].
  split; [|split; [done|split; [simpl; rewrite lookup_insert_ne by eauto; done|]]].
  - constructor; simpl.
    + by rewrite lookup_insert_ne.
    + by rewrite lookup_insert_ne.
    + intros e He. apply elem_of_app in He as [He|He].
      * destruct (Hq _ He) as (Hoke & z & z' & Hd & Hl & Hle).
        split; [done|].
        destruct (decide (ToString n = ToString (q_node e))) as [Heq|Hne].
        -- exists z, (zc + w). rewrite <- Heq, lookup_insert_eq.
           rewrite <- Heq in Hl. specialize (Hlt _ Hl). repeat split; try done. lia.
        -- exists z, z'. by rewrite lookup_insert_ne.
      * apply list_elem_of_singleton in He as ->. simpl. split; [done|].
        exists (zc + w), (zc + w). rewrite lookup_insert_eq. repeat split; try done.
    + intros v Hv. destruct (Hvis _ Hv) as (Hokv & Htr & z & Hd).
      split; [done|]. split; [done|]. exists z. rewrite lookup_insert_ne by eauto. done.
    + done.
    + intros v z e zq Hin Hd He Hqd.
      rewrite lookup_insert_ne in Hd by eauto.
      apply elem_of_app in He as [He|He]; [by eapply Hmono|].
      apply list_elem_of_singleton in He as ->. simpl in Hqd.
      injection Hqd as <-. specialize (Htop _ _ Hin Hd). lia.
    + intros v z Hokv Htr Hnv Hd. apply elem_of_app.
      destruct (decide (ToString n = ToString v)) as [Heq|Hne].
      * rewrite <- Heq, lookup_insert_eq in Hd. injection Hd as <-.
        right. apply list_elem_of_singleton. f_equal. symmetry. by apply ok_inj.
      * rewrite lookup_insert_ne in Hd by done. left. by apply Hpend.
    + intros k0 z Hd. destruct (decide (ToString n = k0)) as [<-|Hnk].
      * rewrite lookup_insert_eq in Hd. injection Hd as <-. lia.
      * rewrite lookup_insert_ne in Hd by done. eauto.
    + intros k0 z Hne Hd. destruct (decide (ToString n = k0)) as [<-|Hnk].
      * rewrite lookup_insert_eq in Hd. injection Hd as <-.
        exists c, zc, w. rewrite lookup_insert_eq, lookup_insert_ne by eauto.
        repeat split; try done.
        intros j v Hj Hv. destruct (Hkv v); [by eapply list_elem_of_lookup_2 | done].
      * rewrite lookup_insert_ne in Hd by done.
        destruct (Htree _ _ Hne Hd) as (c0 & zc0 & w0 & Hp & Hdc0 & HR0 & Hz & Hcv0 & Hord).
        exists c0, zc0, w0. rewrite !lookup_insert_ne by eauto. done.
  - intros v z Hin Hd. simpl in Hd. rewrite lookup_insert_ne in Hd by eauto. eauto.
Qed.

Lemma relax_all_inv c zc (l : list (jsval * Z)) s :
  (∀ n w, (n, w) ∈ l ->
     (ok n ∨ ToString n = root) ∧ R (ToString c) (ToString n) w ∧ 0 <= w) ->
  exp_inv root R ok c zc s ->
  exp_inv root R ok c zc (foldl (relax c) s l)
  ∧ visited (foldl (relax c) s l) = visited s
  ∧ ∀ v, v ∈ visited s ->
      dist (foldl (relax c) s l) !! ToString v = dist s !! ToString v
      ∧ prev (foldl (relax c) s l) !! ToString v = prev s !! ToString v.
Proof.
  revert s. induction l as [|[n w] l IH]; intros s Hl Hinv; simpl; [done|].
  destruct (Hl n w) as (Hokn & HR & Hw); [by left|].
  assert (Hl' : ∀ n w, (n, w) ∈ l ->
     (ok n ∨ ToString n = root) ∧ R (ToString c) (ToString n) w ∧ 0 <= w).
  { intros n0 w0 H0. apply Hl. by right. }
  pose proof Hinv as (_ & _ & Hc & _).
  destruct (relax_cases c zc s n w Hc) as [[-> _] | [-> Hlt]].
  - by apply IH.
  - destruct (relaxed_inv c zc s n w Hinv Hokn HR Hw Hlt) as [Hinv' Hfr].
    destruct (IH _ Hl' Hinv') as (H1 & H2 & H3). split; [done|]. split; [done|].
    intros v Hv. destruct (H3 v Hv) as [-> ->]. by apply Hfr.
Qed.

(** A pop keeps the invariant, leaves the settled nodes untouched, and
    settles at most the node it returns, at its final distance. *)
Lemma side_step_spec s :
  side_inv root R ok s ->
  side_inv root R ok (side_step nbrs s)
  ∧ (∀ v, v ∈ visited s ->
       dist (side_step nbrs s) !! ToString v = dist s !! ToString v
       ∧ prev (side_step nbrs s) !! ToString v = prev s !! ToString v)
  ∧ match next_visit s with
    | None => visited (side_step nbrs s) = visited s
    | Some v => ∃ z, (v ∉ visited s)
                     ∧ visited (side_step nbrs s) = visited s ++ [v]
                     ∧ dist s !! ToString v = Some (Fin z)
                     ∧ dist (side_step nbrs s) !! ToString v = Some (Fin z)
    end.
Proof.
  intros Hinv. unfold side_step, next_visit.
  destruct (queue_sort (queue s)) as [|e rest] eqn:Hsort; [done|].
  apply queue_sort_head in Hsort as (He & Hrest & Hsplit & Hmin).
  pose proof Hinv as [Hroot Hproot Hq Hvis Hnd Hmono Hpend Hnn Htree].
  destruct (negb (truthy (q_node e)) || bool_decide (q_node e ∈ visited s)) eqn:Hskip.
  - split; [|done]. constructor; simpl; try done.
    + intros e' He'. apply Hq. by apply Hrest.
    + intros v z e' zq Hin Hd He'. eapply Hmono; eauto.
    + intros v z Hokv Htr Hnv Hd. specialize (Hpend v z Hokv Htr Hnv Hd).
      destruct (Hsplit _ Hpend) as [<-|Hin]; [|done]. simpl in Hskip.
      rewrite Htr in Hskip. rewrite bool_decide_eq_false_2 in Hskip by done. done.
  - apply orb_false_iff in Hskip as [Htr Hnv].
    apply negb_false_iff in Htr. apply bool_decide_eq_false in Hnv.
    destruct (Hq _ He) as (Hokc & zq & z' & Hd & Hdc & Hle).
    set (c := q_node e) in *.
    assert (z' = zq) as ->.
    { specialize (Hpend c z' Hokc Htr Hnv Hdc). apply Hmin in Hpend.
      unfold qle in Hpend. rewrite Hd in Hpend. simpl in Hpend.
      apply Z.leb_le in Hpend. lia. }
    set (s1 := {| dist := dist (with_queue s rest); prev := prev (with_queue s rest);
                  visited := visited (with_queue s rest) ++ [c];
                  queue := queue (with_queue s rest) |}).
    assert (Hexp : exp_inv root R ok c zq s1).
    { split; [|split; [|split]].
      - constructor; simpl; try done.
        + intros e' He'. apply Hq. by apply Hrest.
        + intros v Hv. apply elem_of_app in Hv as [Hv|Hv]; [by apply Hvis|].
          apply list_elem_of_singleton in Hv as ->. eauto.
        + apply NoDup_app. split; [done|]. split; [|apply NoDup_singleton].
          intros x Hx Hx'. apply list_elem_of_singleton in Hx' as ->. done.
        + intros v z e' zq' Hin Hdv He' Hqd. apply elem_of_app in Hin as [Hin|Hin].
          * eapply Hmono; [exact Hin | exact Hdv | apply Hrest, He' | exact Hqd].
          * apply list_elem_of_singleton in Hin as ->.
            rewrite Hdc in Hdv. injection Hdv as <-.
            apply Hrest in He'. apply Hmin in He'. unfold qle in He'.
            rewrite Hd, Hqd in He'. simpl in He'. by apply Z.leb_le in He'.
        + intros v z Hokv Htrv Hnotin Hdv.
          assert ((v ∉ visited s) ∧ v ≠ c) as [Hk1 Hk2].
          { split; [intros Hin | intros ->]; apply Hnotin, elem_of_app;
              [by left | right; by apply list_elem_of_singleton]. }
          specialize (Hpend v z Hokv Htrv Hk1 Hdv).
          destruct (Hsplit _ Hpend) as [<-|Hin]; [|done]. done.
        + intros k z Hne Hdk.
          destruct (Htree _ _ Hne Hdk) as (c0 & zc0 & w0 & Hp & Hdc0 & HR0 & Hz & Hcv0 & Hord).
          exists c0, zc0, w0. repeat split; try done.
          * apply elem_of_app. by left.
          * intros j v Hj Hv. destruct (decide (j < length (visited s))%nat) as [Hlt|Hge].
            -- rewrite lookup_app_l in Hj by done.
               destruct (Hord j v Hj Hv) as (i & Hi & Hl). exists i. split; [done|].
               rewrite lookup_app_l; [done|]. lia.
            -- apply list_elem_of_lookup in Hcv0 as [i Hi]. exists i.
               pose proof (lookup_lt_Some _ _ _ Hi).
               split; [lia|]. by rewrite lookup_app_l.
      - simpl. apply elem_of_app. right. by apply list_elem_of_singleton.
      - done.
      - simpl. intros v z Hin Hdv. apply elem_of_app in Hin as [Hin|Hin].
        + eapply Hmono; [exact Hin | exact Hdv | exact He | exact Hd].
        + apply list_elem_of_singleton in Hin as ->.
          rewrite Hdc in Hdv. injection Hdv as <-. lia. }
    unfold expand. fold s1.
    destruct (relax_all_inv c zq (nbrs c) s1) as ((Hinv' & _) & Hvis' & Hfr).
    { intros n w Hnw. by eapply nbrs_sound. }
    { done. }
    split; [done|]. split.
    + intros v Hv. apply Hfr. simpl. apply elem_of_app. by left.
    + exists zq. rewrite Hvis'. repeat split; try done.
      destruct (Hfr c) as [-> _]; [|done].
      simpl. apply elem_of_app. right. by apply list_elem_of_singleton.
Qed.

(** The [prev] chain of a settled node is a path of the tree, over nodes
    settled before it, whose weight is the node's distance. *)
Lemma chain_tree s :
  side_inv root R ok s ->
  ∀ j v fuel l, visited s !! j = Some v ->
    chain fuel (prev s) v = Some l ->
    ∃ z t, l = v :: t ∧ dist s !! ToString v = Some (Fin z)
           ∧ rpath root R l z
           ∧ ∀ x, x ∈ t -> ∃ i, (i < j)%nat ∧ visited s !! i = Some x.
Proof.
  intros [Hroot Hproot Hq Hvis Hnd Hmono Hpend Hnn Htree].
  induction j as [j IH] using lt_wf_ind. intros v fuel l Hj Hch.
  destruct (Hvis v) as (Hokv & Htr & z & Hd); [by eapply list_elem_of_lookup_2|].
  destruct fuel as [|f]; simpl in Hch; rewrite Htr in Hch; [done|].
  unfold prev_get in Hch.
  destruct (decide (ToString v = root)) as [Hvr|Hkr].
  - assert (v = VStr root) as -> by (by apply ok_inj).
    simpl in Hch. rewrite Hproot in Hch. simpl in Hch.
    simpl in Hd. rewrite Hroot in Hd. injection Hd as <-.
    destruct f; simpl in Hch; injection Hch as <-.
    all: exists 0, []; repeat split; try done; try apply rpath_root;
      intros x Hx; by apply elem_of_nil in Hx.
  - destruct (Htree _ _ Hkr Hd) as (c & zc & w & Hp & Hdc & HR & Hz & Hcv & Hord).
    rewrite Hp in Hch. simpl in Hch.
    destruct (Hord j v Hj eq_refl) as (i & Hij & Hi).
    destruct (chain f (prev s) c) as [l'|] eqn:Hch'; [|done].
    simpl in Hch. injection Hch as <-.
    destruct (IH i Hij c f l' Hi Hch') as (zc' & t' & -> & Hdc' & Hrp & Ht').
    rewrite Hdc in Hdc'. injection Hdc' as <-.
    exists z, (c :: t'). repeat split; try done.
    + rewrite Hz. by apply rpath_cons.
    + intros x Hx. apply elem_of_cons in Hx as [->|Hx]; [eauto|].
      destruct (Ht' x Hx) as (i' & Hi' & Hl). exists i'. split; [lia|done].
Qed.

Lemma rpath_last l z : rpath root R l z -> last l = Some (VStr root).
Proof. induction 1; [done|]. by rewrite last_cons_cons. Qed.

End Side.

Lemma chain_unshift_eq fuel p u acc :
  chain_unshift fuel p u acc = (fun l => reverse l ++ acc) <$> chain fuel p u.
Proof.
  revert u acc. induction fuel as [|f IH]; intros u acc; simpl.
  - by destruct (truthy u).
  - destruct (truthy u); [|done]. rewrite IH.
    destruct (chain f p (prev_get p u)) as [l|]; simpl; [|done].
    by rewrite reverse_cons, <- app_assoc.
Qed.

Lemma chain_push_eq fuel p u acc :
  chain_push fuel p u acc = (fun l => acc ++ l) <$> chain fuel p u.
Proof.
  revert u acc. induction fuel as [|f IH]; intros u acc; simpl.
  - destruct (truthy u); [done|]. simpl. by rewrite app_nil_r.
  - destruct (truthy u); [|simpl; by rewrite app_nil_r]. rewrite IH.
    destruct (chain f p (prev_get p u)) as [l|]; simpl; [|done].
    by rewrite <- app_assoc.
Qed.

(** ** Edge objects *)

Lemma graph_get_elem (g : graph) k es : graph_get g k = Some es -> (k, es) ∈ g.
Proof.
  induction g as [|[k' es'] g IH]; simpl; [done|].
  case_bool_decide as Hk.
  - intros [= ->]. subst. by left.
  - intros H. right. by apply IH.
Qed.

Lemma graph_get_NoDup (g : graph) k es :
  NoDup g.*1 -> (k, es) ∈ g -> graph_get g k = Some es.
Proof.
  induction g as [|[k' es'] g IH]; simpl; intros Hnd Hin.
  - by apply elem_of_nil in Hin.
  - apply NoDup_cons in Hnd as [Hk' Hnd].
    apply elem_of_cons in Hin as [[= -> ->]|Hin].
    + by rewrite bool_decide_eq_true_2.
    + rewrite bool_decide_eq_false_2; [by apply IH|].
      intros ->. apply Hk'. apply list_elem_of_fmap. by exists (k, es).
Qed.

Lemma id_kind_inj kind v1 v2 :
  id_kind kind -> kind v1 = true -> kind v2 = true ->
  ToString v1 = ToString v2 -> v1 = v2.
Proof.
  intros [-> | ->]; destruct v1, v2; simpl; try done; intros _ _ H; f_equal.
  - done.
  - by apply (inj pretty).
Qed.

Lemma ok_fwd_inj kind s v1 v2 :
  id_kind kind -> ok_fwd kind s v1 -> ok_fwd kind s v2 ->
  ToString v1 = ToString v2 -> v1 = v2.
Proof.
  intros Hk [-> | [H1 N1]] [-> | [H2 N2]] Heq; simpl in *.
  - done.
  - by destruct N2.
  - by destruct N1.
  - by eapply id_kind_inj.
Qed.

Lemma ok_bwd_inj v1 v2 :
  ok_bwd v1 -> ok_bwd v2 -> ToString v1 = ToString v2 -> v1 = v2.
Proof. unfold ok_bwd. destruct v1, v2; simpl; try done. by intros _ _ ->. Qed.

Lemma neighbors_sound kind g s :
  dests_of_kind kind g ->
  (∀ k es e, (k, es) ∈ g -> e ∈ es -> 0 <= e_weight e) ->
  ∀ c n w, ok_fwd kind s c -> (n, w) ∈ neighbors g c ->
    (ok_fwd kind s n ∨ ToString n = s)
    ∧ Rf g (ToString c) (ToString n) w ∧ 0 <= w.
Proof.
  intros Hkind Hw c n w _ Hin. unfold neighbors in Hin.
  destruct (graph_get g (ToString c)) as [es|] eqn:Hg; simpl in Hin;
    [|by apply elem_of_nil in Hin].
  apply list_elem_of_fmap in Hin as (e & [= -> ->] & He).
  pose proof (graph_get_elem _ _ _ Hg) as Hmem.
  split; [|split; [by exists es, e | by eapply Hw]].
  destruct (decide (ToString (e_node e) = s)) as [Heq|Hne]; [by right|].
  left. right. split; [by eapply Hkind | done].
Qed.

Lemma elem_of_flat_map {A B} (f : A -> list B) (l : list A) (y : B) :
  y ∈ flat_map f l <-> ∃ x, x ∈ l ∧ y ∈ f x.
Proof.
  rewrite list_elem_of_In, in_flat_map. split; intros (x & Hx & Hy); exists x.
  - by rewrite !list_elem_of_In.
  - by rewrite <- !list_elem_of_In.
Qed.

Lemma incoming_sound g e0 :
  NoDup g.*1 ->
  (∀ k es e, (k, es) ∈ g -> e ∈ es -> 0 <= e_weight e) ->
  ∀ c n w, ok_bwd c -> (n, w) ∈ incoming g c ->
    (ok_bwd n ∨ ToString n = e0)
    ∧ Rb g (ToString c) (ToString n) w ∧ 0 <= w.
Proof.
  intros Hnd Hw c n w _ Hin. unfold incoming in Hin.
  apply elem_of_flat_map in Hin as ([k es] & Hkes & Hin). simpl in Hin.
  apply elem_of_flat_map in Hin as (e & He & Hin).
  case_bool_decide as Heq; [|by apply elem_of_nil in Hin].
  apply list_elem_of_singleton in Hin as [= -> ->].
  split; [by left|]. split; [|by eapply Hw].
  exists es, e. split; [by apply graph_get_NoDup|]. done.
Qed.

(** ** Initial maps *)

Lemma init_keys_ok g m : maps_ok m -> maps_ok (init_keys g m).
Proof.
  unfold init_keys. revert m. induction g as [|[k es] g IH]; intros m Hm; simpl; [done|].
  apply IH. intros k'. simpl. destruct (decide (k = k')) as [->|Hne].
  - right. by rewrite !lookup_insert_eq.
  - rewrite !lookup_insert_ne by done. apply Hm.
Qed.

Lemma init_dest_ok m e : maps_ok m -> maps_ok (init_dest m e).
Proof.
  intros Hm. unfold init_dest. destruct (m.1 !! ToString (e_node e)) eqn:Hl; [done|].
  intros k'. simpl. destruct (decide (ToString (e_node e) = k')) as [<-|Hne].
  - right. by rewrite !lookup_insert_eq.
  - rewrite !lookup_insert_ne by done. apply Hm.
Qed.

Lemma init_maps_ok g : maps_ok (init_maps g).
Proof.
  unfold init_maps, init_dests.
  assert (H0 : maps_ok (init_keys g (∅, ∅))).
  { apply init_keys_ok. intros k. left. simpl. by rewrite !lookup_empty. }
  revert H0. generalize (init_keys g (∅, ∅)).
  induction g as [|[k es] g IH]; intros m Hm; simpl; [done|].
  apply IH. clear IH. revert m Hm. induction es as [|e es IH]; intros m Hm; simpl; [done|].
  apply IH. by apply init_dest_ok.
Qed.

(** The state of a direction on entry to the loop. *)
Lemma init_side_inv g R (ok : jsval -> Prop) root :
  (∀ v1 v2, ok v1 -> ok v2 -> ToString v1 = ToString v2 -> v1 = v2) ->
  ok (VStr root) ->
  is_Some ((init_maps g).1 !! root) ->
  side_inv root R ok
    {| dist := <[root := Fin 0]> (init_maps g).1; prev := (init_maps g).2;
       visited := [];
       queue := [ {| q_node := VStr root; q_dist := Fin 0 |} ] |}.
Proof.
  intros Hinj Hok [x Hx]. pose proof (init_maps_ok g) as Hmaps.
  assert (Hfin : ∀ k z, <[root := Fin 0]> (init_maps g).1 !! k = Some (Fin z)
                        -> k = root ∧ z = 0).
  { intros k z. destruct (decide (root = k)) as [->|Hne].
    - rewrite lookup_insert_eq. by intros [= <-].
    - rewrite lookup_insert_ne by done. destruct (Hmaps k) as [[-> _]|[-> _]]; done. }
  constructor; simpl.
  - by rewrite lookup_insert_eq.
  - destruct (Hmaps root) as [[H1 _]|[_ H2]]; [congruence | done].
  - intros e He. apply list_elem_of_singleton in He as ->. simpl. split; [done|].
    exists 0, 0. rewrite lookup_insert_eq. done.
  - intros v Hv. by apply elem_of_nil in Hv.
  - constructor.
  - intros v z e zq Hv. by apply elem_of_nil in Hv.
  - intros v z Hokv _ _ Hd. apply list_elem_of_singleton.
    pose proof Hd as Hd'. apply Hfin in Hd' as [Hk ->]. f_equal.
    by apply Hinj.
  - intros k z Hd. apply Hfin in Hd as [-> ->]. done.
  - intros k z Hne Hd. by apply Hfin in Hd as [-> ->].
Qed.

(** ** Walks *)

Lemma is_walk_app g p a q d1 d2 :
  is_walk g (p ++ [a]) d1 -> is_walk g (a :: q) d2 ->
  is_walk g (p ++ a :: q) (d1 + d2).
Proof.
  revert d1. induction p as [|x p IH]; intros d1 H1 H2; simpl in *.
  - inversion H1; subst. by rewrite Z.add_0_l.
  - destruct p as [|y p]; simpl in *.
    + inversion H1 as [|? ? ? w d He Hw]; subst. inversion Hw; subst.
      rewrite Z.add_0_r. by apply walk_step.
    + inversion H1 as [|? ? ? w d He Hw]; subst.
      rewrite <- Z.add_assoc. apply walk_step; [done|]. by apply IH.
Qed.

Lemma rpath_fwd g root l z : rpath root (Rf g) l z -> is_walk g (reverse l) z.
Proof.
  induction 1 as [|k c l w z HR Hrp IH]; [apply walk_one|].
  rewrite reverse_cons in IH. rewrite !reverse_cons, <- app_assoc. simpl.
  apply is_walk_app; [done|].
  replace w with (w + 0) by lia. apply walk_step; [exact HR | apply walk_one].
Qed.

Lemma rpath_bwd g root l z : rpath root (Rb g) l z -> is_walk g l z.
Proof.
  induction 1 as [|k c l w z HR Hrp IH]; [apply walk_one|].
  rewrite Z.add_comm. apply walk_step; [exact HR | done].
Qed.

(** ** The loop invariant *)

Section Bidirectional.

Import Part002.

Variable kind : jsval -> bool.
Variable g : graph.
Variables s e : string.

Hypothesis Hkind : id_kind kind.
Hypothesis Hdests : dests_of_kind kind g.
Hypothesis Hkeys : NoDup g.*1.
Hypothesis Hweights : ∀ k es e, (k, es) ∈ g -> e ∈ es -> 0 <= e_weight e.

Lemma advance_forward_eq st :
  advance_forward g st
  = {| fwd := side_step (neighbors g) (fwd st); bwd := bwd st;
       bestDistance := (met (next_visit (fwd st)) (visited (bwd st)) st).1;
       meetingNode := (met (next_visit (fwd st)) (visited (bwd st)) st).2 |}.
Proof.
  unfold advance_forward, side_step, next_visit, met.
  destruct (queue_sort (queue (fwd st))) as [|x rest]; [by destruct st|].
  by destruct (negb (truthy (q_node x)) || bool_decide (q_node x ∈ visited (fwd st))).
Qed.

Lemma advance_backward_eq st :
  advance_backward g st
  = {| fwd := fwd st; bwd := side_step (incoming g) (bwd st);
       bestDistance := (met (next_visit (bwd st)) (visited (fwd st)) st).1;
       meetingNode := (met (next_visit (bwd st)) (visited (fwd st)) st).2 |}.
Proof.
  unfold advance_backward, side_step, next_visit, met.
  destruct (queue_sort (queue (bwd st))) as [|x rest]; [by destruct st|].
  by destruct (negb (truthy (q_node x)) || bool_decide (q_node x ∈ visited (bwd st))).
Qed.

Lemma meet_cases current dF dB other best meeting :
  meet current dF dB other best meeting = (best, meeting)
  ∨ ∃ a b, current ∈ other ∧ dF !! ToString current = Some a
           ∧ dB !! ToString current = Some b
           ∧ num_ltb (num_add a b) best = true
           ∧ meet current dF dB other best meeting = (num_add a b, current).
Proof.
  unfold meet. case_bool_decide; [|by left].
  destruct (dF !! ToString current) as [a|]; [|by left].
  destruct (dB !! ToString current) as [b|]; [|by left].
  destruct (num_ltb (num_add a b) best) eqn:Hlt; [|by left].
  right. by exists a, b.
Qed.

Lemma fwd_step_spec st :
  side_inv s (Rf g) (ok_fwd kind s) (fwd st) ->
  side_inv s (Rf g) (ok_fwd kind s) (side_step (neighbors g) (fwd st))
  ∧ (∀ v, v ∈ visited (fwd st) ->
       dist (side_step (neighbors g) (fwd st)) !! ToString v = dist (fwd st) !! ToString v
       ∧ prev (side_step (neighbors g) (fwd st)) !! ToString v = prev (fwd st) !! ToString v)
  ∧ match next_visit (fwd st) with
    | None => visited (side_step (neighbors g) (fwd st)) = visited (fwd st)
    | Some v => ∃ z, (v ∉ visited (fwd st))
                     ∧ visited (side_step (neighbors g) (fwd st)) = visited (fwd st) ++ [v]
                     ∧ dist (fwd st) !! ToString v = Some (Fin z)
                     ∧ dist (side_step (neighbors g) (fwd st)) !! ToString v = Some (Fin z)
    end.
Proof.
  apply side_step_spec.
  - intros v1 v2. by apply ok_fwd_inj.
  - by apply neighbors_sound.
Qed.

Lemma bwd_step_spec st :
  side_inv e (Rb g) ok_bwd (bwd st) ->
  side_inv e (Rb g) ok_bwd (side_step (incoming g) (bwd st))
  ∧ (∀ v, v ∈ visited (bwd st) ->
       dist (side_step (incoming g) (bwd st)) !! ToString v = dist (bwd st) !! ToString v
       ∧ prev (side_step (incoming g) (bwd st)) !! ToString v = prev (bwd st) !! ToString v)
  ∧ match next_visit (bwd st) with
    | None => visited (side_step (incoming g) (bwd st)) = visited (bwd st)
    | Some v => ∃ z, (v ∉ visited (bwd st))
                     ∧ visited (side_step (incoming g) (bwd st)) = visited (bwd st) ++ [v]
                     ∧ dist (bwd st) !! ToString v = Some (Fin z)
                     ∧ dist (side_step (incoming g) (bwd st)) !! ToString v = Some (Fin z)
    end.
Proof.
  apply side_step_spec.
  - apply ok_bwd_inj.
  - by apply incoming_sound.
Qed.

Lemma advance_forward_inv st :
  bidi_inv kind g s e st -> bidi_inv kind g s e (advance_forward g st).
Proof.
  intros (HF & HB & HM). rewrite advance_forward_eq.
  destruct (fwd_step_spec st HF) as (HF' & Hfr & Hnv).
  split; [done|]. split; [done|]. simpl.
  assert (Hkeep : ∀ v, v ∈ visited (fwd st) ->
                       v ∈ visited (side_step (neighbors g) (fwd st))).
  { intros v Hv. destruct (next_visit (fwd st)) as [v'|].
    - destruct Hnv as (z & _ & -> & _). apply elem_of_app. by left.
    - by rewrite Hnv. }
  assert (Hold : meet_inv
            {| fwd := side_step (neighbors g) (fwd st); bwd := bwd st;
               bestDistance := bestDistance st; meetingNode := meetingNode st |}).
  { destruct HM as [HM | (a & b & HmF & HmB & HdF & HdB & Hbest)]; [by left|].
    right. exists a, b. simpl. repeat split; try done.
    - by apply Hkeep.
    - destruct (Hfr _ HmF) as [-> _]. done. }
  unfold met. destruct (next_visit (fwd st)) as [v|]; [|done].
  destruct Hnv as (z & Hnotin & Hvis' & Hd & Hd').
  destruct (meet_cases v (dist (fwd st)) (dist (bwd st)) (visited (bwd st))
              (bestDistance st) (meetingNode st))
    as [-> | (a & b & Hin & Ha & Hb & Hlt & ->)]; [done|].
  rewrite Hd in Ha. injection Ha as <-.
  destruct (inv_visited _ _ _ _ HB _ Hin) as (_ & _ & zb & Hdb).
  rewrite Hdb in Hb. injection Hb as <-.
  right. exists z, zb. simpl. repeat split; try done.
  rewrite Hvis'. apply elem_of_app. right. by apply list_elem_of_singleton.
Qed.

Lemma advance_backward_inv st :
  bidi_inv kind g s e st -> bidi_inv kind g s e (advance_backward g st).
Proof.
  intros (HF & HB & HM). rewrite advance_backward_eq.
  destruct (bwd_step_spec st HB) as (HB' & Hfr & Hnv).
  split; [done|]. split; [done|]. simpl.
  assert (Hkeep : ∀ v, v ∈ visited (bwd st) ->
                       v ∈ visited (side_step (incoming g) (bwd st))).
  { intros v Hv. destruct (next_visit (bwd st)) as [v'|].
    - destruct Hnv as (z & _ & -> & _). apply elem_of_app. by left.
    - by rewrite Hnv. }
  assert (Hold : meet_inv
            {| fwd := fwd st; bwd := side_step (incoming g) (bwd st);
               bestDistance := bestDistance st; meetingNode := meetingNode st |}).
  { destruct HM as [HM | (a & b & HmF & HmB & HdF & HdB & Hbest)]; [by left|].
    right. exists a, b. simpl. repeat split; try done.
    - by apply Hkeep.
    - destruct (Hfr _ HmB) as [-> _]. done. }
  unfold met. destruct (next_visit (bwd st)) as [v|]; [|done].
  destruct Hnv as (z & Hnotin & Hvis' & Hd & Hd').
  destruct (meet_cases v (dist (fwd st)) (dist (bwd st)) (visited (fwd st))
              (bestDistance st) (meetingNode st))
    as [-> | (a & b & Hin & Ha & Hb & Hlt & ->)]; [done|].
  rewrite Hd in Hb. injection Hb as <-.
  destruct (inv_visited _ _ _ _ HF _ Hin) as (_ & _ & za & Hda).
  rewrite Hda in Ha. injection Ha as <-.
  right. exists za, z. simpl. repeat split; try done.
  rewrite Hvis'. apply elem_of_app. right. by apply list_elem_of_singleton.
Qed.

Lemma bidi_loop_inv fuel st st' :
  bidi_inv kind g s e st -> bidi_loop fuel g st = Some st' ->
  bidi_inv kind g s e st'.
Proof.
  revert st. induction fuel as [|f IH]; intros st Hinv; simpl;
    unfold loop_body;
    repeat (match goal with |- context [if ?b then _ else _] => destruct b end);
    try (intros [= <-]; done); try done.
  - apply IH. by apply advance_forward_inv.
  - apply IH. by apply advance_backward_inv.
  - by apply IH.
Qed.

Lemma bidi_init_inv :
  is_Some ((init_maps g).1 !! s) -> is_Some ((init_maps g).1 !! e) ->
  bidi_inv kind g s e (bidi_init g (VStr s) (VStr e)).
Proof.
  intros Hs He. split; [|split; [|by left]]; apply init_side_inv; try done.
  - intros v1 v2. by apply ok_fwd_inj.
  - by left.
  - apply ok_bwd_inj.
Qed.

(** The path rebuilt from a state that satisfies the invariant. *)
Lemma reconstruct_sound fuel st r :
  bidi_inv kind g s e st -> reconstruct fuel st = Some r -> path r ≠ [] ->
  ∃ d l1 l2,
    distance r = Some (Fin d)
    ∧ head (path r) = Some (VStr s)
    ∧ last (path r) = Some (VStr e)
    ∧ path r = l1 ++ meetingNode st :: l2
    ∧ (meetingNode st ∉ l1) ∧ (meetingNode st ∉ l2)
    ∧ is_walk g (path r) d.
Proof.
  intros (HF & HB & HM) Hrun Hne. unfold reconstruct, strict_eq in Hrun.
  destruct HM as [[Hm _] | (a & b & HmF & HmB & HdF & HdB & Hbest)].
  { rewrite Hm in Hrun. simpl in Hrun. by injection Hrun as <-. }
  set (m := meetingNode st) in *.
  destruct (inv_visited _ _ _ _ HB _ HmB) as (Hokm & Htrm & _).
  assert (Hmn : m ≠ VNull) by (intros Heq; by rewrite Heq in Htrm).
  rewrite bool_decide_eq_false_2 in Hrun by done. simpl in Hrun.
  rewrite chain_unshift_eq in Hrun.
  destruct (chain fuel (prev (fwd st)) m) as [lF|] eqn:HcF; [|done].
  simpl in Hrun. rewrite chain_push_eq in Hrun.
  destruct (chain fuel (prev (bwd st)) (prev_get (prev (bwd st)) m))
    as [tB|] eqn:HcB; [|done].
  simpl in Hrun. injection Hrun as <-.
  apply list_elem_of_lookup in HmF as [jF HjF].
  apply list_elem_of_lookup in HmB as [jB HjB].
  destruct (chain_tree s (Rf g) (ok_fwd kind s)
              (λ v1 v2, ok_fwd_inj kind s v1 v2 Hkind) (or_introl eq_refl)
              (fwd st) HF jF m fuel lF HjF HcF)
    as (a' & tF & -> & Ha' & HrF & HtF).
  rewrite HdF in Ha'. injection Ha' as <-.
  assert (HcB' : chain (S fuel) (prev (bwd st)) m = Some (m :: tB)).
  { simpl. rewrite Htrm. by rewrite HcB. }
  destruct (chain_tree e (Rb g) ok_bwd ok_bwd_inj eq_refl
              (bwd st) HB jB m (S fuel) _ HjB HcB')
    as (b' & tB' & [= <-] & Hb' & HrB & HtB).
  rewrite HdB in Hb'. injection Hb' as <-.
  exists (a + b), (reverse tF), tB. simpl.
  rewrite app_nil_r, Hbest.
  split; [done|].
  rewrite reverse_cons, <- app_assoc. simpl.
  split; [|split; [|split; [done|split; [|split]]]].
  - apply rpath_last in HrF.
    rewrite <- head_reverse, reverse_cons in HrF.
    destruct (reverse tF); simpl in *; done.
  - apply rpath_last in HrB. rewrite last_app. simpl in *. by rewrite HrB.
  - rewrite elem_of_reverse. intros Hin. destruct (HtF _ Hin) as (i & Hi & Hl).
    pose proof (NoDup_lookup _ _ _ _ (inv_nodup _ _ _ _ HF) Hl HjF). lia.
  - intros Hin. destruct (HtB _ Hin) as (i & Hi & Hl).
    pose proof (NoDup_lookup _ _ _ _ (inv_nodup _ _ _ _ HB) Hl HjB). lia.
  - apply is_walk_app.
    + apply rpath_fwd in HrF. by rewrite reverse_cons in HrF.
    + by apply rpath_bwd in HrB.
Qed.

End Bidirectional.

Lemma all_edges_spec f g :
  all_edges f g = true -> ∀ k es e, (k, es) ∈ g -> e ∈ es -> f e = true.
Proof.
  unfold all_edges. intros Hall k es e Hk He. rewrite forallb_forall in Hall.
  apply list_elem_of_In in Hk. specialize (Hall _ Hk). simpl in Hall.
  rewrite forallb_forall in Hall. apply list_elem_of_In in He. by apply Hall.
Qed.

Lemma wf_graph_check_sound g : wf_graph_check g = true -> wf_graph g.
Proof.
  unfold wf_graph_check. intros H. apply andb_true_iff in H as [H Hk].
  apply andb_true_iff in H as [Hnd Hw]. apply bool_decide_eq_true in Hnd.
  split; [done| |].
  - intros k es e Hkes He. apply Z.leb_le. by eapply (all_edges_spec _ _ Hw).
  - apply orb_true_iff in Hk as [Hk|Hk].
    + exists is_str. split; [by left|]. intros k es e Hkes He.
      by eapply (all_edges_spec _ _ Hk).
    + exists is_num. split; [by right|]. intros k es e Hkes He.
      by eapply (all_edges_spec _ _ Hk).
Qed.

Lemma plain_id_check_sound v : plain_id_check v = true -> plain_id v.
Proof.
  unfold plain_id_check, plain_id, plain_key. intros H.
  apply andb_true_iff in H as [H1 H2]. apply bool_decide_eq_true in H1.
  split; [done|]. destruct v; try done. by apply Z.ltb_lt.
Qed.

Lemma plain_graph_check_sound g : plain_graph_check g = true -> plain_graph g.
Proof.
  unfold plain_graph_check. intros H. apply andb_true_iff in H as [H1 H2]. split.
  - intros k Hk. rewrite forallb_forall in H1. apply list_elem_of_In in Hk.
    specialize (H1 k Hk). by apply bool_decide_eq_true in H1.
  - intros k es e Hk He. apply plain_id_check_sound.
    exact (all_edges_spec _ _ H2 k es e Hk He).
Qed.

Lemma plain_nodes_check_sound nodes : plain_nodes_check nodes = true -> plain_nodes nodes.
Proof.
  unfold plain_nodes_check. intros H n Hn. rewrite forallb_forall in H.
  apply plain_id_check_sound, H. by apply list_elem_of_In.
Qed.

(** X25. The path invariant of the bidirectional search. For a
    well-formed edge object (unique keys, weights at least 0 and of a
    total of at most 2^52, destinations all strings or all numbers) and
    distinct string identifiers, as the handler passes them, none of the
    names a property name of [Object.prototype]: a non-empty path
    returned by the search has a finite distance, starts at [start], ends
    at [end], holds the meeting node exactly once, and is a walk of the
    graph whose edge weights add up to the returned distance. *)
Theorem bidirectional_path_invariant fuel g s e r :
  plain_graph g -> exact_sums g -> plain_key s -> plain_key e ->
  wf_graph g -> s ≠ e ->
  Part002.bidirectionalDijkstra fuel g (VStr s) (VStr e) = Some r ->
  path r ≠ [] ->
  ∃ st d l1 l2,
    Part002.bidi_loop fuel g (Part002.bidi_init g (VStr s) (VStr e)) = Some st
    ∧ distance r = Some (Fin d)
    ∧ head (path r) = Some (VStr s)
    ∧ last (path r) = Some (VStr e)
    ∧ path r = l1 ++ Part002.meetingNode st :: l2
    ∧ (Part002.meetingNode st ∉ l1) ∧ (Part002.meetingNode st ∉ l2)
    ∧ is_walk g (path r) d.
Proof.
  intros _ _ _ _ [Hkeys Hweights (kind & Hkind & Hdests)] Hse Hrun Hne.
  unfold Part002.bidirectionalDijkstra, strict_eq in Hrun.
  rewrite bool_decide_eq_false_2 in Hrun by congruence. simpl in Hrun.
  destruct ((init_maps g).1 !! s) as [ds|] eqn:Hs; [|by injection Hrun as <-].
  destruct ((init_maps g).1 !! e) as [de|] eqn:He; [|by injection Hrun as <-].
  destruct (Part002.bidi_loop fuel g (Part002.bidi_init g (VStr s) (VStr e)))
    as [st|] eqn:Hloop; [|done].
  simpl in Hrun.
  assert (Hinv : bidi_inv kind g s e st).
  { eapply bidi_loop_inv; try done. apply bidi_init_inv; try done; by eexists. }
  destruct (reconstruct_sound kind g s e Hkind fuel st r Hinv Hrun Hne)
    as (d & l1 & l2 & H).
  by exists st, d, l1, l2.
Qed.

(** The invariant at work on [detour_graph], where the returned path is
    not a shortest one. *)
Lemma bidirectional_path_invariant_witness :
  ∃ st d l1 l2,
    Part002.bidi_loop 20 detour_graph
      (Part002.bidi_init detour_graph (VStr "s") (VStr "t")) = Some st
    ∧ Some (Fin 26) = Some (Fin d)
    ∧ head [VStr "s"; VStr "m"; VStr "t"] = Some (VStr "s")
    ∧ last [VStr "s"; VStr "m"; VStr "t"] = Some (VStr "t")
    ∧ [VStr "s"; VStr "m"; VStr "t"] = l1 ++ Part002.meetingNode st :: l2
    ∧ (Part002.meetingNode st ∉ l1) ∧ (Part002.meetingNode st ∉ l2)
    ∧ is_walk detour_graph [VStr "s"; VStr "m"; VStr "t"] d.
Proof.
  apply (bidirectional_path_invariant 20 detour_graph "s" "t"
           {| path := [VStr "s"; VStr "m"; VStr "t"]; distance := Some (Fin 26) |}).
  - apply plain_graph_check_sound. vm_compute. reflexivity.
  - by vm_compute.
  - apply (bool_decide_unpack _). vm_compute. exact I.
  - apply (bool_decide_unpack _). vm_compute. exact I.
  - apply wf_graph_check_sound. vm_compute. reflexivity.
  - discriminate.
  - vm_compute. reflexivity.
  - discriminate.
Defined.

(** With numeric destinations the two directions hold different values
    for one node and can meet at the start only; the path is then the
    backward chain. *)
Lemma numeric_fork_path :
  wf_graph numeric_fork
  ∧ Part002.bidirectionalDijkstra 20 numeric_fork (VStr "1") (VStr "3")
    = Some {| path := [VStr "1"; VStr "2"; VStr "3"]; distance := Some (Fin 2) |}.
Proof.
  split; [apply wf_graph_check_sound; by vm_compute | by vm_compute].
Qed.

(** C3. The reported distance is not always the weight of the returned
    path. When an edge object names one node as the number [0] and as
    the string ["0"], the forward side never settles the falsy number,
    the node is settled late under its string name, and the search
    returns a path from [s] to [t] with distance 29 whose edges weigh
    2 + 1 + 1 + 1 + 20 = 25; no other weights join its nodes. *)
Lemma two_names_outside_invariant :
  wf_graph_check two_names_graph = false
  ∧ Part002.bidirectionalDijkstra 60 two_names_graph (VStr "s") (VStr "t")
    = Some {| path := [VStr "s"; VStr "b"; VStr "0"; VStr "n"; VStr "k"; VStr "t"];
              distance := Some (Fin 29) |}
  ∧ is_walk two_names_graph
      [VStr "s"; VStr "b"; VStr "0"; VStr "n"; VStr "k"; VStr "t"] 25
  ∧ ∀ d, is_walk two_names_graph
           [VStr "s"; VStr "b"; VStr "0"; VStr "n"; VStr "k"; VStr "t"] d -> d = 25.
Proof.
  split; [by vm_compute|]. split; [by vm_compute|]. split.
  - change 25 with (2 + (1 + (1 + (1 + (20 + 0))))).
    apply walk_step; [eapply has_edge_str; [reflexivity | by repeat constructor]|].
    apply walk_step;
      [exists [ {| e_node := VNum 0; e_weight := 1 |} ], {| e_node := VNum 0; e_weight := 1 |};
       repeat split; by repeat constructor|].
    repeat (apply walk_step;
      [eapply has_edge_str; [reflexivity | by repeat constructor] |]).
    apply walk_one.
  - intros d Hw.
    repeat match goal with
    | H : is_walk _ (_ :: _ :: _) _ |- _ => inversion H; subst; clear H
    | H : is_walk _ [_] _ |- _ => inversion H; subst; clear H
    | H : has_edge _ _ _ _ |- _ =>
        destruct H as (es & ed & Hget & He & Hto & Hwt);
        vm_compute in Hget; injection Hget as <-;
        repeat (apply elem_of_cons in He as [->|He]);
        try (by apply elem_of_nil in He);
        try (by vm_compute in Hto); simpl in Hwt; subst; clear Hto
    end.
    reflexivity.
Qed.

(** ** Termination *)

Lemma sort_insert_length x l : length (sort_insert x l) = S (length l).
Proof.
  induction l as [|y l IH]; simpl; [done|].
  destruct (num_leb (q_dist x) (q_dist y)); simpl; [done | by rewrite IH].
Qed.

Lemma queue_sort_length l : length (queue_sort l) = length l.
Proof.
  induction l as [|x l IH]; simpl; [done|]. by rewrite sort_insert_length, IH.
Qed.

Lemma relax_bounded U c s nb :
  side_bounded U s -> nb.1 ∈ U ->
  side_bounded U (relax c s nb)
  ∧ visited (relax c s nb) = visited s
  ∧ (length (queue (relax c s nb)) <= S (length (queue s)))%nat.
Proof.
  intros (Hnd & Hv & Hq) Hnb. unfold relax.
  destruct (onum_add (dist s !! ToString c) (Fin nb.2)) as [a|]; simpl;
    [match goal with |- context [if ?b then _ else _] => destruct b end; simpl|];
    (split; [|split; [done|]]);
    try (split; [done|split; [done|]]); try done; try lia.
  - intros e He. apply elem_of_app in He as [He|He]; [by apply Hq|].
    by apply list_elem_of_singleton in He as ->.
  - rewrite length_app. simpl. lia.
Qed.

Lemma relax_all_bounded U c (l : list (jsval * Z)) s :
  side_bounded U s -> (∀ nb, nb ∈ l -> nb.1 ∈ U) ->
  side_bounded U (foldl (relax c) s l)
  ∧ visited (foldl (relax c) s l) = visited s
  ∧ (length (queue (foldl (relax c) s l)) <= length (queue s) + length l)%nat.
Proof.
  revert s. induction l as [|nb l IH]; intros s Hs Hl; simpl.
  - split; [done|]. split; [done|lia].
  - destruct (relax_bounded U c s nb Hs) as (H1 & H2 & H3); [apply Hl; by left|].
    destruct (IH (relax c s nb) H1) as (H4 & H5 & H6).
    { intros nb' Hnb'. apply Hl. by right. }
    split; [done|]. split; [congruence | lia].
Qed.

Lemma NoDup_length_le (l U : list jsval) :
  NoDup l -> (∀ v, v ∈ l -> v ∈ U) -> (length l <= length U)%nat.
Proof.
  intros Hnd Hsub. apply submseteq_length. by apply NoDup_submseteq.
Qed.

(** A pop from a non-empty queue lowers the measure. *)
Lemma side_step_measure U E nbrs s :
  side_bounded U s -> queue s ≠ [] ->
  (∀ c nb, nb ∈ nbrs c -> nb.1 ∈ U) ->
  (∀ c, length (nbrs c) <= E)%nat ->
  side_bounded U (side_step nbrs s)
  ∧ (side_measure U E (side_step nbrs s) < side_measure U E s)%nat.
Proof.
  intros (Hnd & Hv & Hq) Hne Hn HE. unfold side_step, side_measure.
  pose proof (queue_sort_length (queue s)) as Hlen.
  destruct (queue_sort (queue s)) as [|e rest] eqn:Hsort.
  { destruct (queue s); [done | simpl in Hlen; lia]. }
  apply queue_sort_head in Hsort as (He & Hrest & _ & _). simpl in Hlen.
  destruct (negb (truthy (q_node e)) || bool_decide (q_node e ∈ visited s)) eqn:Hskip.
  - simpl. split; [|lia]. split; [done|]. split; [done|].
    intros e' He'. by apply Hq, Hrest.
  - apply orb_false_iff in Hskip as [_ Hnv]. apply bool_decide_eq_false in Hnv.
    set (s1 := {| dist := dist (with_queue s rest); prev := prev (with_queue s rest);
                  visited := visited (with_queue s rest) ++ [q_node e];
                  queue := queue (with_queue s rest) |}).
    assert (Hs1 : side_bounded U s1).
    { split; [|split]; simpl.
      - apply NoDup_app. split; [done|]. split; [|apply NoDup_singleton].
        intros x Hx Hx'. apply list_elem_of_singleton in Hx' as ->. done.
      - intros v Hin. apply elem_of_app in Hin as [Hin|Hin]; [by apply Hv|].
        apply list_elem_of_singleton in Hin as ->. by apply Hq.
      - intros e' He'. by apply Hq, Hrest. }
    unfold expand. fold s1.
    destruct (relax_all_bounded U (q_node e) (nbrs (q_node e)) s1 Hs1)
      as (Hb & Hvis & Hql); [intros nb Hnb; by eapply Hn|].
    split; [done|]. rewrite Hvis. simpl in *.
    pose proof (HE (q_node e)) as HEc.
    destruct Hs1 as (Hnd1 & Hv1 & _). simpl in *.
    pose proof (NoDup_length_le _ U Hnd1 Hv1) as Hle.
    rewrite length_app in *. simpl in *.
    nia.
Qed.

Lemma edges_of_elem (g : graph) k es e :
  (k, es) ∈ g -> e ∈ es -> e ∈ edges_of g.
Proof.
  intros Hk He. unfold edges_of. apply elem_of_flat_map. by exists (k, es).
Qed.

Lemma edges_of_length (g : graph) k es :
  (k, es) ∈ g -> (length es <= length (edges_of g))%nat.
Proof.
  unfold edges_of. induction g as [|[k' es'] g IH]; intros Hin.
  - by apply elem_of_nil in Hin.
  - simpl. rewrite length_app. apply elem_of_cons in Hin as [[= -> ->]|Hin]; [lia|].
    specialize (IH Hin). lia.
Qed.

Lemma neighbors_universe g start c :
  (∀ nb, nb ∈ neighbors g c -> nb.1 ∈ universe_fwd g start)
  ∧ (length (neighbors g c) <= length (edges_of g))%nat.
Proof.
  unfold neighbors. destruct (graph_get g (ToString c)) as [es|] eqn:Hg; simpl.
  - apply graph_get_elem in Hg. split.
    + intros nb Hnb. apply list_elem_of_fmap in Hnb as (e & -> & He). simpl.
      right. apply list_elem_of_fmap. exists e. split; [done|]. by eapply edges_of_elem.
    + rewrite length_map. by eapply edges_of_length.
  - split; [|lia]. intros nb Hnb. by apply elem_of_nil in Hnb.
Qed.

Lemma incoming_universe g end_ c :
  (∀ nb, nb ∈ incoming g c -> nb.1 ∈ universe_bwd g end_)
  ∧ (length (incoming g c) <= length (edges_of g))%nat.
Proof.
  unfold incoming, edges_of. split.
  - intros nb Hnb. apply elem_of_flat_map in Hnb as ([k es] & Hk & Hnb).
    apply elem_of_flat_map in Hnb as (e & He & Hnb). simpl in *.
    case_bool_decide; [|by apply elem_of_nil in Hnb].
    apply list_elem_of_singleton in Hnb as ->. simpl. right.
    apply list_elem_of_fmap. exists k. split; [done|].
    apply list_elem_of_fmap. by exists (k, es).
  - induction g as [|[k es] g IH]; simpl; [lia|]. rewrite !length_app.
    assert (length (flat_map (fun e : edge =>
              if bool_decide (ToString (e_node e) = ToString c)
              then [(VStr k, e_weight e)] else []) es) <= length es)%nat; [|lia].
    clear. induction es as [|e es IH]; simpl; [lia|].
    rewrite length_app. case_bool_decide; simpl; lia.
Qed.

Section Termination.

Import Part002.

Variable g : graph.
Variables start end_ : jsval.

Lemma loop_body_measure st st' :
  bidi_bounded g start end_ st -> loop_body g st = Continue st' ->
  bidi_bounded g start end_ st'
  ∧ (bidi_measure g start end_ st' < bidi_measure g start end_ st)%nat.
Proof.
  intros [HF HB]. unfold loop_body, bidi_measure.
  destruct (is_nil (queue (fwd st)) && is_nil (queue (bwd st))); [done|].
  destruct (stop_check st) eqn:Hstop; [done|].
  destruct (negb (is_nil (queue (fwd st))) && _) eqn:Hf.
  - intros [= <-]. rewrite advance_forward_eq. simpl.
    apply andb_true_iff in Hf as [Hne _].
    destruct (side_step_measure (universe_fwd g start) (length (edges_of g))
                (neighbors g) (fwd st) HF) as [H1 H2].
    + destruct (queue (fwd st)); done.
    + intros c. apply neighbors_universe.
    + intros c. apply (neighbors_universe g start c).
    + split; [done | lia].
  - destruct (negb (is_nil (queue (bwd st)))) eqn:Hb.
    + intros [= <-]. rewrite advance_backward_eq. simpl.
      destruct (side_step_measure (universe_bwd g end_) (length (edges_of g))
                  (incoming g) (bwd st) HB) as [H1 H2].
      * destruct (queue (bwd st)); done.
      * intros c. apply incoming_universe.
      * intros c. apply (incoming_universe g end_ c).
      * split; [done | lia].
    + exfalso. unfold stop_check in Hstop.
      destruct (queue (bwd st)); [|done]. simpl in Hstop.
      destruct (bestDistance st), (head_dist (queue (fwd st))); done.
Qed.

Lemma loop_body_break st st' : loop_body g st = Break st' -> st' = st.
Proof.
  unfold loop_body.
  repeat (match goal with |- context [if ?b then _ else _] => destruct b end);
    try done; by intros [= ->].
Qed.

(** The main loop ends within [bidi_measure] passes, whatever the graph. *)
Lemma bidi_loop_terminates fuel st :
  bidi_bounded g start end_ st -> (bidi_measure g start end_ st <= fuel)%nat ->
  ∃ st', bidi_loop fuel g st = Some st' ∧ bidi_bounded g start end_ st'.
Proof.
  revert st. induction fuel as [|f IH]; intros st Hb Hm; simpl;
    destruct (loop_body g st) as [st'|st'] eqn:Hbody.
  - exists st'. split; [done|]. by rewrite (loop_body_break _ _ Hbody).
  - destruct (loop_body_measure st st' Hb Hbody). lia.
  - exists st'. split; [done|]. by rewrite (loop_body_break _ _ Hbody).
  - destruct (loop_body_measure st st' Hb Hbody). apply IH; [done | lia].
Qed.

Lemma bidi_init_bounded : bidi_bounded g start end_ (bidi_init g start end_).
Proof.
  split; (split; [constructor|]; split; simpl;
    [intros v Hv; by apply elem_of_nil in Hv|]);
    intros x Hx; apply list_elem_of_singleton in Hx as ->; by left.
Qed.

End Termination.

Section ChainTermination.

Variable root : string.
Variable R : string -> string -> Z -> Prop.
Variable ok : jsval -> Prop.

(** The [prev] chain of the node settled [j]-th has at most [j + 1] links. *)
Lemma chain_total s :
  side_inv root R ok s ->
  ∀ j v fuel, visited s !! j = Some v -> (j < fuel)%nat ->
    ∃ l, chain fuel (prev s) v = Some l.
Proof.
  intros [Hroot Hproot Hq Hvis Hnd Hmono Hpend Hnn Htree].
  induction j as [j IH] using lt_wf_ind. intros v fuel Hj Hf.
  destruct (Hvis v) as (Hokv & Htr & z & Hd); [by eapply list_elem_of_lookup_2|].
  destruct fuel as [|f]; [lia|]. simpl. rewrite Htr. unfold prev_get.
  destruct (decide (ToString v = root)) as [Hvr|Hkr].
  - rewrite Hvr, Hproot. simpl. destruct f; simpl; eauto.
  - destruct (Htree _ _ Hkr Hd) as (c & zc & w & Hp & Hdc & HR & Hz & Hcv & Hord).
    rewrite Hp. simpl. destruct (Hord j v Hj eq_refl) as (i & Hij & Hi).
    destruct (IH i Hij c f Hi) as [l Hl]; [lia|]. rewrite Hl. simpl. eauto.
Qed.

(** The same for the chain that starts at the node's [prev]. *)
Lemma chain_prev_total s :
  side_inv root R ok s ->
  ∀ j v fuel, visited s !! j = Some v -> (j <= fuel)%nat ->
    ∃ l, chain fuel (prev s) (prev_get (prev s) v) = Some l.
Proof.
  intros Hinv j v fuel Hj Hf.
  pose proof Hinv as [Hroot Hproot Hq Hvis Hnd Hmono Hpend Hnn Htree].
  destruct (Hvis v) as (Hokv & Htr & z & Hd); [by eapply list_elem_of_lookup_2|].
  unfold prev_get. destruct (decide (ToString v = root)) as [Hvr|Hkr].
  - rewrite Hvr, Hproot. simpl. destruct fuel; simpl; eauto.
  - destruct (Htree _ _ Hkr Hd) as (c & zc & w & Hp & Hdc & HR & Hz & Hcv & Hord).
    rewrite Hp. simpl. destruct (Hord j v Hj eq_refl) as (i & Hij & Hi).
    eapply chain_total; [done | exact Hi | lia].
Qed.

End ChainTermination.

Lemma search_fuel_universe g a b :
  (length (universe_fwd g a) < search_fuel g a b)%nat
  ∧ (length (universe_bwd g b) < search_fuel g a b)%nat.
Proof.
  unfold search_fuel, bidi_measure, side_measure.
  cbn [Part002.fwd Part002.bwd Part002.bidi_init visited queue length].
  rewrite !Nat.sub_0_r.
  generalize (length (universe_fwd g a)), (length (universe_bwd g b)),
    (length (edges_of g)).
  intros nF nB nE. nia.
Qed.

(** For a well-formed edge object the search returns, and [search_fuel]
    is enough fuel. *)
Theorem bidirectional_terminates g s e :
  wf_graph g ->
  ∃ r, Part002.bidirectionalDijkstra (search_fuel g (VStr s) (VStr e)) g
         (VStr s) (VStr e) = Some r.
Proof.
  intros [Hkeys Hweights (kind & Hkind & Hdests)].
  pose proof (search_fuel_universe g (VStr s) (VStr e)) as [HuF HuB].
  assert (Hfuel : (bidi_measure g (VStr s) (VStr e)
                     (Part002.bidi_init g (VStr s) (VStr e))
                   <= search_fuel g (VStr s) (VStr e))%nat).
  { unfold search_fuel. lia. }
  revert HuF HuB Hfuel. generalize (search_fuel g (VStr s) (VStr e)).
  intros f HuF HuB Hfuel.
  unfold Part002.bidirectionalDijkstra.
  destruct (strict_eq (VStr s) (VStr e)); [eauto|].
  destruct ((init_maps g).1 !! ToString (VStr s)) as [ds|] eqn:Hs; [|eauto].
  destruct ((init_maps g).1 !! ToString (VStr e)) as [de|] eqn:He; [|eauto].
  destruct (bidi_loop_terminates g (VStr s) (VStr e) f
              (Part002.bidi_init g (VStr s) (VStr e)))
    as (st & Hloop & HbF & HbB); [apply bidi_init_bounded | done |].
  rewrite Hloop. simpl.
  assert (Hinv : bidi_inv kind g s e st).
  { eapply bidi_loop_inv; try done. apply bidi_init_inv; try done; by eexists. }
  destruct Hinv as (HF & HB & HM).
  unfold Part002.reconstruct.
  destruct (negb (strict_eq (Part002.meetingNode st) VNull)) eqn:Hmeet; [|eauto].
  destruct HM as [[Hm _] | (a & b & HmF & HmB & _)].
  { rewrite Hm in Hmeet. done. }
  apply list_elem_of_lookup in HmF as [jF HjF].
  apply list_elem_of_lookup in HmB as [jB HjB].
  assert (HlenF : (jF < f)%nat).
  { apply lookup_lt_Some in HjF. destruct HbF as (Hnd & Hv & _).
    pose proof (NoDup_length_le _ _ Hnd Hv). lia. }
  assert (HlenB : (jB <= f)%nat).
  { apply lookup_lt_Some in HjB. destruct HbB as (Hnd & Hv & _).
    pose proof (NoDup_length_le _ _ Hnd Hv). lia. }
  rewrite chain_unshift_eq.
  destruct (chain_total s (Rf g) (ok_fwd kind s)
              (Part002.fwd st) HF jF _ _ HjF HlenF) as [lF HlF].
  rewrite HlF. simpl. rewrite chain_push_eq.
  destruct (chain_prev_total e (Rb g) ok_bwd
              (Part002.bwd st) HB jB _ _ HjB HlenB) as [lB HlB].
  rewrite HlB. simpl. eauto.
Qed.

(** ** The nearest node *)

Lemma scan_step_null haversine lat lng st x :
  scan_step haversine lat lng VNull st x
  = match dist_to haversine lat lng x with
    | Some d =>
        match st.1 with
        | Some m => if bool_decide (d < m)%Qc then (Some d, n_id x) else st
        | None => (Some d, n_id x)
        end
    | None => st
    end.
Proof. reflexivity. Qed.

Lemma scan_nearest haversine lat lng (l : list node) :
  foldl (scan_step haversine lat lng VNull) (None, VNull) l = (None, VNull)
  ∧ nearest_in haversine lat lng l VNull
    ∧ (∀ n, n ∈ l -> dist_to haversine lat lng n = None)
  ∨ ∃ i n d, l !! i = Some n ∧ dist_to haversine lat lng n = Some d
      ∧ foldl (scan_step haversine lat lng VNull) (None, VNull) l = (Some d, n_id n)
      ∧ (∀ m d', m ∈ l -> dist_to haversine lat lng m = Some d' -> (d <= d')%Qc)
      ∧ (∀ j m d', (j < i)%nat -> l !! j = Some m ->
           dist_to haversine lat lng m = Some d' -> (d < d')%Qc).
Proof.
  induction l as [|x l IH] using rev_ind.
  { left. split; [done|].
    assert (Hall : ∀ n : node, n ∈ [] -> dist_to haversine lat lng n = None).
    { intros n Hn. by apply elem_of_nil in Hn. }
    split; [by left | done]. }
  rewrite foldl_app. simpl. rewrite scan_step_null.
  destruct (dist_to haversine lat lng x) as [dx|] eqn:Hx.
  - right. destruct IH as [(-> & _ & Hnan) | (i & n & d & Hi & Hd & -> & Hmin & Hfirst)].
    + simpl. exists (length l), x, dx. rewrite lookup_app_r, Nat.sub_diag by lia.
      repeat split; try done.
      * intros m d' Hm Hd'. apply elem_of_app in Hm as [Hm|Hm].
        -- rewrite (Hnan m Hm) in Hd'. done.
        -- apply list_elem_of_singleton in Hm as ->.
           rewrite Hx in Hd'. injection Hd' as <-. apply Qcle_refl.
      * intros j m d' Hj Hm Hd'. rewrite lookup_app_l in Hm by done.
        rewrite (Hnan m) in Hd'; [done | by eapply list_elem_of_lookup_2].
    + simpl. case_bool_decide as Hlt.
      * exists (length l), x, dx. rewrite lookup_app_r, Nat.sub_diag by lia.
        repeat split; try done.
        -- intros m d' Hm Hd'. apply elem_of_app in Hm as [Hm|Hm].
           ++ apply Qclt_le_weak. eapply Qclt_le_trans; [exact Hlt | by eapply Hmin].
           ++ apply list_elem_of_singleton in Hm as ->.
              rewrite Hx in Hd'. injection Hd' as <-. apply Qcle_refl.
        -- intros j m d' Hj Hm Hd'. rewrite lookup_app_l in Hm by done.
           eapply Qclt_le_trans; [exact Hlt|]. eapply Hmin; [|exact Hd'].
           by eapply list_elem_of_lookup_2.
      * exists i, n, d. pose proof (lookup_lt_Some _ _ _ Hi) as Hil.
        rewrite lookup_app_l by done. repeat split; try done.
        -- intros m d' Hm Hd'. apply elem_of_app in Hm as [Hm|Hm]; [by eapply Hmin|].
           apply list_elem_of_singleton in Hm as ->.
           rewrite Hx in Hd'. injection Hd' as <-. by apply Qcnot_lt_le.
        -- intros j m d' Hj Hm Hd'. rewrite lookup_app_l in Hm by lia. by eapply Hfirst.
  - destruct IH as [(-> & _ & Hnan) | (i & n & d & Hi & Hd & -> & Hmin & Hfirst)].
    + left. split; [done|].
      assert (Hall : ∀ n, n ∈ l ++ [x] -> dist_to haversine lat lng n = None).
      { intros n Hn. apply elem_of_app in Hn as [Hn|Hn]; [by apply Hnan|].
        by apply list_elem_of_singleton in Hn as ->. }
      split; [by left | done].
    + right. exists i, n, d. pose proof (lookup_lt_Some _ _ _ Hi) as Hil.
      rewrite lookup_app_l by done. repeat split; try done.
      * intros m d' Hm Hd'. apply elem_of_app in Hm as [Hm|Hm]; [by eapply Hmin|].
        apply list_elem_of_singleton in Hm as ->. rewrite Hx in Hd'. done.
      * intros j m d' Hj Hm Hd'. rewrite lookup_app_l in Hm by lia. by eapply Hfirst.
Qed.

(** The result of the scan over the nodes that are not skipped. *)
Lemma findNearestNode_scan haversine lat lng nodes ex :
  nearest_in haversine lat lng (scanned ex nodes)
    (findNearestNode haversine lat lng nodes ex).
Proof.
  unfold findNearestNode. rewrite (scan_filter haversine lat lng ex nodes).
  fold (scanned ex nodes).
  destruct (scan_nearest haversine lat lng (scanned ex nodes))
    as [(-> & H & _) | (i & n & d & Hi & Hd & -> & Hmin & Hfirst)]; [done|].
  right. by exists i, n, d.
Qed.

(** C10. A falsy [excludeNodeId] ([null], [undefined], [0], the empty
    string) excludes nothing: the scan looks at every node of the list,
    and its answer is that of a scan of the whole list. In particular a
    node whose id is [0] or the empty string is not skipped when that id
    is handed in as the exclusion, and the retry that hands in a [null]
    start snap excludes nothing. A truthy [excludeNodeId] skips exactly
    the nodes whose string form equals its string form: the scan looks at
    the others, all of them, and its answer is that of a scan of the list
    without the skipped nodes. *)
Theorem findNearestNode_exclusion haversine lat lng nodes ex :
  (truthy ex = false
   ∧ (∀ n, skipped ex n = false)
   ∧ scanned ex nodes = nodes
   ∧ findNearestNode haversine lat lng nodes ex
     = findNearestNode haversine lat lng nodes VNull
   ∧ nearest_in haversine lat lng nodes (findNearestNode haversine lat lng nodes ex)
   ∨ truthy ex = true
   ∧ (∀ n, skipped ex n = true <-> ToString (n_id n) = ToString ex)
   ∧ scanned ex nodes = filter (fun n => ToString (n_id n) ≠ ToString ex) nodes
   ∧ findNearestNode haversine lat lng nodes ex
     = findNearestNode haversine lat lng
         (filter (fun n => ToString (n_id n) ≠ ToString ex) nodes) VNull
   ∧ nearest_in haversine lat lng
       (filter (fun n => ToString (n_id n) ≠ ToString ex) nodes)
       (findNearestNode haversine lat lng nodes ex))
  ∧ (∀ v, v ∈ [VNull; VUndef; VNum 0; VStr ""] -> truthy v = false)
  ∧ (∀ n, n_id n = VNum 0 ∨ n_id n = VStr "" -> skipped (n_id n) n = false)
  ∧ (∀ n, skipped VNull n = false)
  ∧ nearest_in haversine lat lng nodes (findNearestNode haversine lat lng nodes VNull).
Proof.
  assert (Hall : ∀ x, truthy x = false -> scanned x nodes = nodes).
  { intros x Hx. unfold scanned. induction nodes as [|n l IH]; [done|].
    rewrite filter_cons_True by (by apply skipped_falsy). by rewrite IH. }
  split; [|split; [|split; [|split]]].
  - pose proof (findNearestNode_scan haversine lat lng nodes ex) as Hscan.
    destruct (truthy ex) eqn:Ht; [right | left].
    + assert (Hf : scanned ex nodes
                   = filter (fun n => ToString (n_id n) ≠ ToString ex) nodes).
      { unfold scanned. apply list_filter_iff. intros n. split.
        - intros Hs Heq. apply (skipped_truthy ex n Ht) in Heq. congruence.
        - intros Hne. destruct (skipped ex n) eqn:Hs; [|done].
          apply (skipped_truthy ex n Ht) in Hs. done. }
      split; [done|]. split; [intros n; by apply skipped_truthy|].
      split; [done|]. rewrite <- Hf. split; [|done].
      unfold findNearestNode. by rewrite (scan_filter haversine lat lng ex nodes).
    + rewrite (Hall ex Ht) in Hscan.
      split; [done|]. split; [intros n; by apply skipped_falsy|].
      split; [by apply Hall|]. split; [|done].
      unfold findNearestNode. f_equal. by apply scan_falsy.
  - intros v Hv. repeat (apply elem_of_cons in Hv as [->|Hv]; [done|]).
    by apply elem_of_nil in Hv.
  - intros n [H|H]; rewrite H; by apply skipped_falsy.
  - intros n. by apply skipped_falsy.
  - pose proof (findNearestNode_scan haversine lat lng nodes VNull) as Hscan.
    by rewrite (Hall VNull) in Hscan.
Qed.

(** A node whose id is the number [0] is skipped by the truthy exclusion
    ["0"]: the guard compares string forms. The lookup over that node
    alone then returns [null], where it returns [0] without exclusion and
    with the node's own id as exclusion. *)
Lemma zero_id_excluded_by_string :
  truthy (VStr "0") = true
  ∧ skipped (VStr "0") zero_node = true
  ∧ findNearestNode planar 0%Qc 0%Qc [zero_node] (VStr "0") = VNull
  ∧ findNearestNode planar 0%Qc 0%Qc [zero_node] VNull = VNum 0
  ∧ findNearestNode planar 0%Qc 0%Qc [zero_node] (VNum 0) = VNum 0.
Proof. by vm_compute. Qed.

(** X1. [findNearestNode] returns [null] when every node is skipped or
    has a distance that is [NaN] (as on the empty list); otherwise it
    returns the id of a node that is not skipped, at the least distance
    from the query point among the nodes that are not skipped and have a
    distance, and the first such node in list order. *)
Theorem findNearestNode_nearest haversine lat lng nodes ex :
  let cands := filter (fun n => skipped ex n = false) nodes in
  ((∀ n, n ∈ nodes -> skipped ex n = false -> dist_to haversine lat lng n = None)
   ∧ findNearestNode haversine lat lng nodes ex = VNull)
  ∨ ∃ i n d, cands !! i = Some n ∧ n ∈ nodes ∧ skipped ex n = false
      ∧ dist_to haversine lat lng n = Some d
      ∧ findNearestNode haversine lat lng nodes ex = n_id n
      ∧ (∀ m d', m ∈ nodes -> skipped ex m = false ->
           dist_to haversine lat lng m = Some d' -> (d <= d')%Qc)
      ∧ (∀ j m d', (j < i)%nat -> cands !! j = Some m ->
           dist_to haversine lat lng m = Some d' -> (d < d')%Qc).
Proof.
  intros cands.
  destruct (findNearestNode_scan haversine lat lng nodes ex)
    as [[Hnan ->] | (i & n & d & Hi & Hd & -> & Hmin & Hfirst)].
  - left. split; [|done]. intros n Hn Hs. apply Hnan. by apply list_elem_of_filter.
  - right. exists i, n, d.
    assert (Hn : n ∈ scanned ex nodes) by (by eapply list_elem_of_lookup_2).
    apply list_elem_of_filter in Hn as [Hs Hn].
    repeat split; try done.
    intros m d' Hm Hsm. apply Hmin. by apply list_elem_of_filter.
Qed.

(** X2. Called without an exclusion (the default [null], or an
    [undefined] one), the lookup of part_001 and part_002 is the lookup of
    part_000 and index.js: the same result on every node list. The older
    lookup returns [null] when no node has a distance that is a number,
    and otherwise the id of the first node at the least distance over the
    whole list. *)
Theorem findNearestNode_default haversine lat lng nodes :
  findNearestNode haversine lat lng nodes VNull
    = findNearestNode0 haversine lat lng nodes
  ∧ findNearestNode haversine lat lng nodes VUndef
    = findNearestNode0 haversine lat lng nodes
  ∧ nearest_in haversine lat lng nodes (findNearestNode0 haversine lat lng nodes).
Proof.
  split; [reflexivity|]. split.
  - unfold findNearestNode. by rewrite (scan_falsy haversine lat lng VUndef nodes).
  - change (findNearestNode0 haversine lat lng nodes)
      with (foldl (scan_step haversine lat lng VNull) (None, VNull) nodes).2.
    destruct (scan_nearest haversine lat lng nodes)
      as [(-> & H & _) | (i & n & d & Hi & Hd & -> & Hmin & Hfirst)]; [done|].
    right. by exists i, n, d.
Qed.

(** ** The retry of the handler *)

(** With a truthy exclusion the lookup returns [null] or the id of a node
    whose string form differs from that of the exclusion. *)
Lemma findNearestNode_other haversine lat lng nodes ex :
  truthy ex = true ->
  findNearestNode haversine lat lng nodes ex = VNull
  ∨ ∃ n, n ∈ nodes ∧ findNearestNode haversine lat lng nodes ex = n_id n
         ∧ ToString (n_id n) ≠ ToString ex.
Proof.
  intros Ht. unfold findNearestNode.
  rewrite (scan_filter haversine lat lng ex nodes).
  destruct (scan_result haversine lat lng VNull
              (filter (fun n => skipped ex n = false) nodes) (None, VNull))
    as [H | (n & Hn & H)]; [by left|].
  right. apply list_elem_of_filter in Hn as [Hs Hn]. exists n.
  split; [done|]. split; [done|].
  intros Heq. apply (skipped_truthy ex n Ht) in Heq. congruence.
Qed.

Lemma findNearestNode_elem haversine lat lng nodes ex :
  findNearestNode haversine lat lng nodes ex = VNull
  ∨ ∃ n, n ∈ nodes ∧ findNearestNode haversine lat lng nodes ex = n_id n.
Proof.
  unfold findNearestNode.
  destruct (scan_result haversine lat lng ex nodes (None, VNull))
    as [H | (n & Hn & H)]; [by left | right; eauto].
Qed.




(** X4. When every node of the list carries the id of the start snap (a
    single routable node, say), and that id is truthy and does not read
    ["null"], the retry finds nothing and the handlers of part_001 and
    part_002 answer with the no-nearby-road failure, for part_002 provided
    the classification returns. *)
Theorem lone_node_no_nearby_road haversine fuel nodes edges start end_ deviceInfo :
  let startNode :=
    findNearestNode haversine (Indoor.lat start) (Indoor.lng start) nodes VNull in
  truthy startNode = true -> ToString startNode ≠ "null" ->
  (∀ n, n ∈ nodes -> ToString (n_id n) = ToString startNode) ->
  (Indoor.comprehensiveIndoorDetection start deviceInfo ≠ Indoor.Throw ->
   Indoor.comprehensiveIndoorDetection end_ deviceInfo ≠ Indoor.Throw ->
   Part002.calculate_route haversine fuel (Some nodes) (Some edges) start end_ deviceInfo
   = Some (Responded (Failure Part002.NoNearbyNode)))
  ∧ Part001.calculate_route haversine fuel (Some nodes) (Some edges) start end_
    = Some (Responded (Failure Part001.NoNearbyNode)).
Proof.
  intros startNode Ht Hn Hall.
  assert (Hend : (if bool_decide
                       (ToString startNode
                        = ToString (findNearestNode haversine (Indoor.lat end_)
                                      (Indoor.lng end_) nodes VNull))
                  then findNearestNode haversine (Indoor.lat end_) (Indoor.lng end_)
                         nodes startNode
                  else findNearestNode haversine (Indoor.lat end_) (Indoor.lng end_)
                         nodes VNull) = VNull).
  { assert (Hretry : findNearestNode haversine (Indoor.lat end_) (Indoor.lng end_)
                       nodes startNode = VNull).
    { destruct (findNearestNode_other haversine (Indoor.lat end_) (Indoor.lng end_)
                  nodes startNode Ht) as [H | (n & Hin & _ & Hne)]; [done|].
      by destruct Hne, (Hall n Hin). }
    destruct (findNearestNode_elem haversine (Indoor.lat end_) (Indoor.lng end_)
                nodes VNull) as [-> | (n & Hin & ->)].
    - by case_bool_decide.
    - rewrite bool_decide_eq_true_2; [done|]. symmetry. by apply Hall. }
  split.
  - intros H1 H2. unfold Part002.calculate_route. fold startNode. rewrite Hend.
    rewrite bool_decide_eq_false_2 by done.
    destruct (Indoor.comprehensiveIndoorDetection start deviceInfo); [|done].
    destruct (Indoor.comprehensiveIndoorDetection end_ deviceInfo); [|done].
    simpl. by rewrite orb_true_r.
  - unfold Part001.calculate_route. fold startNode. rewrite Hend.
    rewrite bool_decide_eq_false_2 by done. simpl. by rewrite orb_true_r.
Qed.

Lemma lone_node_no_nearby_road_witness :
  (Indoor.comprehensiveIndoorDetection (at_ 0 0) None ≠ Indoor.Throw ->
   Indoor.comprehensiveIndoorDetection (at_ 3 4) None ≠ Indoor.Throw ->
   Part002.calculate_route planar 20 (Some [N "a" 0 0]) (Some [("a", [])])
     (at_ 0 0) (at_ 3 4) None
   = Some (Responded (Failure Part002.NoNearbyNode)))
  ∧ Part001.calculate_route planar 20 (Some [N "a" 0 0]) (Some [("a", [])])
      (at_ 0 0) (at_ 3 4)
    = Some (Responded (Failure Part001.NoNearbyNode)).
Proof.
  apply (lone_node_no_nearby_road planar 20 [N "a" 0 0] [("a", [])]
           (at_ 0 0) (at_ 3 4) None); [reflexivity | by vm_compute |].
  intros n Hn. apply list_elem_of_singleton in Hn as ->. reflexivity.
Defined.

(** ** Exceptions of the classification *)

Lemma sum_signals_throw nets sum :
  Indoor.sum_signals nets sum = Indoor.Throw <-> None ∈ nets.
Proof.
  revert sum. induction nets as [|[net|] nets IH]; intros sum; simpl.
  - split; [done | intros H; by apply elem_of_nil in H].
  - rewrite IH, elem_of_cons. split; [by right | by intros [?|?]].
  - split; [intros _; by left | done].
Qed.

Lemma analyzeWiFiNetworks_throw wd :
  Indoor.analyzeWiFiNetworks wd = Indoor.Throw
  <-> ∃ w nets, wd = Some w ∧ Indoor.networks w = Some nets ∧ None ∈ nets.
Proof.
  unfold Indoor.analyzeWiFiNetworks. destruct wd as [w|].
  - destruct (Indoor.networks w) as [nets|] eqn:Hn.
    + destruct (Indoor.sum_signals nets (Some 0%Qc)) as [t|] eqn:Hs; simpl.
      * split; [done|]. intros (w' & nets' & [= <-] & Hn' & Hin).
        rewrite Hn in Hn'. injection Hn' as <-.
        apply (sum_signals_throw nets (Some 0%Qc)) in Hin. congruence.
      * split; [|done]. intros _. exists w, nets. repeat split; try done.
        by apply (sum_signals_throw nets (Some 0%Qc)).
    + split; [done|]. intros (w' & nets' & [= <-] & Hn' & _). congruence.
  - split; [done|]. by intros (w' & nets' & [=] & _).
Qed.

Lemma comprehensive_throw loc deviceInfo :
  Indoor.comprehensiveIndoorDetection loc deviceInfo = Indoor.Throw
  <-> has_null_network deviceInfo.
Proof.
  unfold Indoor.comprehensiveIndoorDetection, has_null_network.
  destruct (Indoor.analyzeWiFiNetworks (deviceInfo ≫= Indoor.wifi)) as [w|] eqn:Hw; simpl.
  - split; [done|]. intros (d & w' & nets & -> & Hwd & Hn & Hin). simpl in Hw.
    assert (Indoor.analyzeWiFiNetworks (Indoor.wifi d) = Indoor.Throw); [|congruence].
    apply analyzeWiFiNetworks_throw. by exists w', nets.
  - split; [|done]. intros _.
    apply analyzeWiFiNetworks_throw in Hw as (w' & nets & Hwd & Hn & Hin).
    destruct deviceInfo as [d|]; [|done]. simpl in Hwd. by exists d, w', nets.
Qed.

(** X17. The classification throws exactly when the device report lists a
    [null] among its WiFi networks, whatever the location. Hence, on
    loaded data whose identifiers are plain property names, a
    [/calculate_route] request is left unanswered exactly when the report
    has such an entry and the same request without a report would get an
    answer other than the not-loaded and the too-close failures; and a
    [/detect_indoor] request is left unanswered exactly when the report
    has such an entry and [lat] and [lng] are both truthy. *)
Theorem classification_throws_iff haversine fuel nodes edges start end_ deviceInfo
    (l : body_location) :
  (∀ ns, nodes = Some ns -> plain_nodes ns) ->
  (∀ es, edges = Some es -> plain_graph es) ->
  (∀ loc, Indoor.comprehensiveIndoorDetection loc deviceInfo = Indoor.Throw
          <-> has_null_network deviceInfo)
  ∧ (Part002.calculate_route haversine fuel nodes edges start end_ deviceInfo
       = Some Threw
     <-> has_null_network deviceInfo
         ∧ (∃ ns es, nodes = Some ns ∧ edges = Some es)
         ∧ Part002.calculate_route haversine fuel nodes edges start end_ None
           ≠ Some (Responded (Failure Part002.TooClose)))
  ∧ (detect_indoor (Some l) deviceInfo = Uncaught
     <-> has_null_network deviceInfo
         ∧ Indoor.qtruthy (b_lat l) = true ∧ Indoor.qtruthy (b_lng l) = true).
Proof.
  intros _ _. split; [intros loc; apply comprehensive_throw|]. split.
  - unfold Part002.calculate_route.
    destruct nodes as [ns|]; [|split; [done | by intros (_ & (? & ? & [=] & _) & _)]].
    destruct edges as [es|]; [|split; [done | by intros (_ & (? & ? & _ & [=]) & _)]].
    case_bool_decide as Heq; [split; [done | by intros (_ & _ & H)]|].
    pose proof (comprehensive_throw start deviceInfo) as H1.
    pose proof (comprehensive_throw end_ deviceInfo) as H2.
    pose proof (comprehensive_throw start None) as H3.
    pose proof (comprehensive_throw end_ None) as H4.
    assert (Hnone : ¬ has_null_network None) by (by intros (d & w & n & [=] & _)).
    destruct (Indoor.comprehensiveIndoorDetection start None); [|tauto].
    destruct (Indoor.comprehensiveIndoorDetection end_ None); [|tauto].
    assert (Hother : (if negb (truthy
                (findNearestNode haversine (Indoor.lat start) (Indoor.lng start) ns VNull))
              || negb (truthy
                (if bool_decide (ToString (findNearestNode haversine (Indoor.lat start)
                                             (Indoor.lng start) ns VNull)
                                 = ToString (findNearestNode haversine (Indoor.lat end_)
                                               (Indoor.lng end_) ns VNull))
                 then findNearestNode haversine (Indoor.lat end_) (Indoor.lng end_) ns
                        (findNearestNode haversine (Indoor.lat start)
                           (Indoor.lng start) ns VNull)
                 else findNearestNode haversine (Indoor.lat end_) (Indoor.lng end_)
                        ns VNull))
            then Some (Responded (Failure Part002.NoNearbyNode))
            else
              r ← Part002.bidirectionalDijkstra fuel es
                    (VStr (ToString (findNearestNode haversine (Indoor.lat start)
                                       (Indoor.lng start) ns VNull)))
                    (VStr (ToString
                       (if bool_decide (ToString (findNearestNode haversine
                                          (Indoor.lat start) (Indoor.lng start) ns VNull)
                                        = ToString (findNearestNode haversine
                                            (Indoor.lat end_) (Indoor.lng end_) ns VNull))
                        then findNearestNode haversine (Indoor.lat end_)
                               (Indoor.lng end_) ns
                               (findNearestNode haversine (Indoor.lat start)
                                  (Indoor.lng start) ns VNull)
                        else findNearestNode haversine (Indoor.lat end_)
                               (Indoor.lng end_) ns VNull)));
              Some (Responded (Part002.respond ns
                      {| i_start := a; i_end := a0;
                         hasIndoorPoints := Indoor.isIndoor a || Indoor.isIndoor a0 |} r)))
            ≠ Some (Responded (Failure Part002.TooClose))).
    { unfold Part002.respond, Part002.TooClose, Part002.NoNearbyNode, Part002.NoRoute.
      destruct (_ || _); [discriminate|].
      destruct (Part002.bidirectionalDijkstra _ _ _ _) as [r|]; [|done]. simpl.
      destruct (bool_decide (length (path r) < 1)%nat); discriminate. }
    destruct (Indoor.comprehensiveIndoorDetection start deviceInfo) as [x|].
    + destruct (Indoor.comprehensiveIndoorDetection end_ deviceInfo) as [y|].
      * split; [|intros (Hnull & _); apply H1 in Hnull; done].
        unfold Part002.respond. destruct (_ || _); [done|].
        destruct (Part002.bidirectionalDijkstra _ _ _ _) as [r|]; [|done]. simpl.
        destruct (bool_decide (length (path r) < 1)%nat); discriminate.
      * split; [|done]. intros _. split; [by apply H2|]. split; [eauto | done].
    + split; [|done]. intros _. split; [by apply H1|]. split; [eauto | done].
  - unfold detect_indoor.
    pose proof (comprehensive_throw (location_of l) deviceInfo) as H1.
    destruct (Indoor.qtruthy (b_lat l)), (Indoor.qtruthy (b_lng l)); simpl;
      try (split; [done | by intros (_ & ? & ?)]).
    destruct (Indoor.comprehensiveIndoorDetection (location_of l) deviceInfo).
    + split; [done|]. intros (Hn & _). by apply H1 in Hn.
    + split; [|done]. intros _. split; [by apply H1 | done].
Qed.

Lemma classification_throws_iff_witness :
  (∀ loc, Indoor.comprehensiveIndoorDetection loc (Some null_network) = Indoor.Throw
          <-> has_null_network (Some null_network))
  ∧ (Part002.calculate_route planar 5 (Some two_nodes) (Some one_edge)
       (at_ 0 0) (at_ 0 1) (Some null_network) = Some Threw
     <-> has_null_network (Some null_network)
         ∧ (∃ ns es, Some two_nodes = Some ns ∧ Some one_edge = Some es)
         ∧ Part002.calculate_route planar 5 (Some two_nodes) (Some one_edge)
             (at_ 0 0) (at_ 0 1) None
           ≠ Some (Responded (Failure Part002.TooClose)))
  ∧ (detect_indoor (Some (lat_lng_only 1 1)) (Some null_network) = Uncaught
     <-> has_null_network (Some null_network)
         ∧ Indoor.qtruthy (b_lat (lat_lng_only 1 1)) = true
         ∧ Indoor.qtruthy (b_lng (lat_lng_only 1 1)) = true).
Proof.
  apply (classification_throws_iff planar 5 (Some two_nodes) (Some one_edge)
           (at_ 0 0) (at_ 0 1) (Some null_network) (lat_lng_only 1 1)).
  - intros ns [= <-]. apply plain_nodes_check_sound. vm_compute. reflexivity.
  - intros es [= <-]. apply plain_graph_check_sound. vm_compute. reflexivity.
Defined.

(** ** What the search knows *)

Lemma init_keys_lookup g m k :
  (k ∈ g.*1 -> (init_keys g m).1 !! k = Some Inf ∧ (init_keys g m).2 !! k = Some VNull)
  ∧ (k ∉ g.*1 -> (init_keys g m).1 !! k = m.1 !! k ∧ (init_keys g m).2 !! k = m.2 !! k).
Proof.
  unfold init_keys. revert m. induction g as [|[k' es] g IH]; intros m; simpl.
  - split; [intros H; by apply elem_of_nil in H | done].
  - destruct (IH (<[k' := Inf]> m.1, <[k' := VNull]> m.2)) as [IH1 IH2]. simpl in *.
    split.
    + intros Hin. destruct (decide (k ∈ g.*1)) as [Hg|Hg]; [by apply IH1|].
      apply elem_of_cons in Hin as [->|Hin]; [|done].
      destruct (IH2 Hg) as [-> ->]. by rewrite !lookup_insert_eq.
    + intros Hnot. apply not_elem_of_cons in Hnot as [Hne Hg].
      destruct (IH2 Hg) as [-> ->]. by rewrite !lookup_insert_ne.
Qed.

Lemma init_dest_lookup m e k :
  maps_ok m ->
  (init_dest m e).1 !! k
  = (if bool_decide (k = ToString (e_node e)) then Some Inf else m.1 !! k)
  ∧ (init_dest m e).2 !! k
    = (if bool_decide (k = ToString (e_node e)) then Some VNull else m.2 !! k).
Proof.
  intros Hm. unfold init_dest.
  destruct (m.1 !! ToString (e_node e)) as [x|] eqn:Hl; simpl.
  - case_bool_decide as Hk; [|done]. subst k.
    destruct (Hm (ToString (e_node e))) as [[H1 H2]|[H1 H2]]; [congruence | done].
  - case_bool_decide as Hk.
    + subst k. by rewrite !lookup_insert_eq.
    + by rewrite !lookup_insert_ne.
Qed.

Lemma dest_em (es : list edge) (k : string) :
  (∃ e, e ∈ es ∧ k = ToString (e_node e)) ∨ ¬ (∃ e, e ∈ es ∧ k = ToString (e_node e)).
Proof.
  destruct (decide (Exists (fun e => k = ToString (e_node e)) es)) as [H|H];
    rewrite Exists_exists in H; [by left | by right].
Qed.

Lemma graph_dest_em (g : graph) (k : string) :
  (∃ k' es e, (k', es) ∈ g ∧ e ∈ es ∧ k = ToString (e_node e))
  ∨ ¬ (∃ k' es e, (k', es) ∈ g ∧ e ∈ es ∧ k = ToString (e_node e)).
Proof.
  destruct (decide (Exists (fun p : string * list edge =>
              Exists (fun e => k = ToString (e_node e)) p.2) g)) as [H|H];
    rewrite Exists_exists in H.
  - left. destruct H as ([k' es] & Hp & He). apply Exists_exists in He as (e & He & Hk).
    by exists k', es, e.
  - right. intros (k' & es & e & Hp & He & Hk). apply H. exists (k', es).
    split; [done|]. apply Exists_exists. by exists e.
Qed.

Lemma init_dest_fold es m k :
  maps_ok m ->
  maps_ok (foldl init_dest m es)
  ∧ ((∃ e, e ∈ es ∧ k = ToString (e_node e)) ->
       (foldl init_dest m es).1 !! k = Some Inf
       ∧ (foldl init_dest m es).2 !! k = Some VNull)
  ∧ ((¬ ∃ e, e ∈ es ∧ k = ToString (e_node e)) ->
       (foldl init_dest m es).1 !! k = m.1 !! k
       ∧ (foldl init_dest m es).2 !! k = m.2 !! k).
Proof.
  revert m. induction es as [|e es IH]; intros m Hm; simpl.
  - split; [done|]. split; [|done]. intros (e & He & _). by apply elem_of_nil in He.
  - pose proof (init_dest_ok m e Hm) as Hm'.
    destruct (IH _ Hm') as (Hok & Hin & Hout). split; [done|].
    destruct (init_dest_lookup m e k Hm) as [H1 H2].
    destruct (dest_em es k) as [Hex|Hnex].
    + split; [intros _; by apply Hin|]. intros Hn. destruct Hn.
      destruct Hex as (e' & He' & Hk). exists e'. split; [by right | done].
    + destruct (Hout Hnex) as [-> ->]. rewrite H1, H2. split.
      * intros (e' & He' & Hk). apply elem_of_cons in He' as [->|He'].
        -- by rewrite bool_decide_eq_true_2.
        -- destruct Hnex; eauto.
      * intros Hn. rewrite !bool_decide_eq_false_2; [done|..];
          intros Hk; apply Hn; exists e; (split; [by left | done]).
Qed.

Lemma init_dests_lookup g m k :
  maps_ok m ->
  maps_ok (init_dests g m)
  ∧ ((∃ k' es e, (k', es) ∈ g ∧ e ∈ es ∧ k = ToString (e_node e)) ->
       (init_dests g m).1 !! k = Some Inf ∧ (init_dests g m).2 !! k = Some VNull)
  ∧ ((¬ ∃ k' es e, (k', es) ∈ g ∧ e ∈ es ∧ k = ToString (e_node e)) ->
       (init_dests g m).1 !! k = m.1 !! k ∧ (init_dests g m).2 !! k = m.2 !! k).
Proof.
  unfold init_dests. revert m. induction g as [|[k0 es0] g IH]; intros m Hm; simpl.
  - split; [done|]. split; [|done]. intros (k' & es & e & H & _). by apply elem_of_nil in H.
  - destruct (init_dest_fold es0 m k Hm) as (Hok & Hin & Hout).
    destruct (IH _ Hok) as (Hok' & Hin' & Hout'). split; [done|].
    destruct (graph_dest_em g k) as [Hex|Hnex].
    + split; [intros _; by apply Hin'|]. intros Hn. destruct Hn.
      destruct Hex as (k' & es & e & H & He & Hk). exists k', es, e.
      split; [by right | done].
    + destruct (Hout' Hnex) as [-> ->]. split.
      * intros (k' & es & e & H & He & Hk).
        apply elem_of_cons in H as [[= -> ->]|H]; [apply Hin; eauto|].
        destruct Hnex; eauto 6.
      * intros Hn. apply Hout. intros (e & He & Hk). apply Hn.
        exists k0, es0, e. split; [by left | done].
Qed.

Lemma init_maps_known g k :
  (in_S g k -> (init_maps g).1 !! k = Some Inf ∧ (init_maps g).2 !! k = Some VNull)
  ∧ (¬ in_S g k -> (init_maps g).1 !! k = None ∧ (init_maps g).2 !! k = None).
Proof.
  unfold init_maps.
  assert (H0 : maps_ok (init_keys g (∅, ∅))).
  { apply init_keys_ok. intros k'. left. simpl. by rewrite !lookup_empty. }
  destruct (init_dests_lookup g _ k H0) as (_ & Hin & Hout).
  destruct (init_keys_lookup g (∅, ∅) k) as [Hk Hnk].
  assert (Hkey : k ∈ g.*1 <-> ∃ es, (k, es) ∈ g).
  { rewrite list_elem_of_fmap. split.
    - intros ([k' es] & -> & H). by exists es.
    - intros (es & H). by exists (k, es). }
  destruct (graph_dest_em g k) as [Hex|Hnex].
  - split; [intros _; by apply Hin|]. intros Hn. destruct Hn. by right.
  - destruct (Hout Hnex) as [-> ->]. split.
    + intros [Hs | Hd]; [|done]. apply Hk. by apply Hkey.
    + intros Hn. assert (Hnot : k ∉ g.*1).
      { intros Hin'. apply Hn. left. by apply Hkey. }
      destruct (Hnk Hnot) as [-> ->]. simpl. by rewrite !lookup_empty.
Qed.

(** X6. For property names that [Object.prototype] does not have, the
    two initialisation loops of the searches give the entries [Infinity]
    and [null] to exactly the ids of the routable set (source keys and
    string forms of destinations) that graph loading computes, and no
    entry to any other id. So an endpoint outside that set makes the
    bidirectional search, and a start outside it the single-direction
    search of index.js and part_001, return the empty path with distance
    [Infinity] before any pass of a loop, whatever the fuel. *)
Theorem unknown_endpoint_no_path (g : graph) :
  plain_graph g ->
  (∀ k, plain_key k -> k ∈ routableNodeIds g ->
        (init_maps g).1 !! k = Some Inf ∧ (init_maps g).2 !! k = Some VNull)
  ∧ (∀ k, plain_key k -> k ∉ routableNodeIds g ->
          (init_maps g).1 !! k = None ∧ (init_maps g).2 !! k = None)
  ∧ (∀ fuel a b, plain_id a -> plain_id b -> a ≠ b ->
       ToString a ∉ routableNodeIds g ∨ ToString b ∉ routableNodeIds g ->
       Part002.bidirectionalDijkstra fuel g a b = Some no_path)
  ∧ (∀ fuel a b, plain_id a -> plain_id b -> a ≠ b ->
       ToString a ∉ routableNodeIds g ->
       Index.dijkstra fuel g a b = Some no_path
       ∧ Part001.dijkstra fuel g a b = Some no_path).
Proof.
  intros _.
  assert (Hin : ∀ k, k ∈ routableNodeIds g ->
        (init_maps g).1 !! k = Some Inf ∧ (init_maps g).2 !! k = Some VNull).
  { intros k Hk. apply init_maps_known. by apply routableNodeIds_spec. }
  assert (Hout : ∀ k, k ∉ routableNodeIds g ->
          (init_maps g).1 !! k = None ∧ (init_maps g).2 !! k = None).
  { intros k Hk. apply init_maps_known. intros HS. by apply Hk, routableNodeIds_spec. }
  split; [intros k _; apply Hin|]. split; [intros k _; apply Hout|]. split.
  - intros fuel a b _ _ Hab Hun. unfold Part002.bidirectionalDijkstra, strict_eq.
    rewrite bool_decide_eq_false_2 by done.
    destruct Hun as [Ha|Hb].
    + destruct (Hout _ Ha) as [-> _]. done.
    + destruct (Hout _ Hb) as [-> _]. by destruct ((init_maps g).1 !! ToString a).
  - intros fuel a b _ _ Hab Ha. unfold Part001.dijkstra, Index.dijkstra, strict_eq.
    rewrite bool_decide_eq_false_2 by done.
    destruct (Hout _ Ha) as [-> _]. done.
Qed.

Lemma unknown_endpoint_no_path_witness :
  (∀ k, plain_key k -> k ∈ routableNodeIds one_edge ->
        (init_maps one_edge).1 !! k = Some Inf
        ∧ (init_maps one_edge).2 !! k = Some VNull)
  ∧ (∀ k, plain_key k -> k ∉ routableNodeIds one_edge ->
          (init_maps one_edge).1 !! k = None ∧ (init_maps one_edge).2 !! k = None)
  ∧ (∀ fuel a b, plain_id a -> plain_id b -> a ≠ b ->
       ToString a ∉ routableNodeIds one_edge ∨ ToString b ∉ routableNodeIds one_edge ->
       Part002.bidirectionalDijkstra fuel one_edge a b = Some no_path)
  ∧ (∀ fuel a b, plain_id a -> plain_id b -> a ≠ b ->
       ToString a ∉ routableNodeIds one_edge ->
       Index.dijkstra fuel one_edge a b = Some no_path
       ∧ Part001.dijkstra fuel one_edge a b = Some no_path).
Proof.
  apply (unknown_endpoint_no_path one_edge).
  apply plain_graph_check_sound. vm_compute. reflexivity.
Defined.

(** X5. On loaded data the search always knows the snapped ids: a snap of
    the node list kept by graph loading is [null] or has entries in the
    initial maps of the search. So when the handler of part_002 calls the
    search, on two snaps that are not [null] and differ in string form,
    the search goes through its main loop and its reconstruction; the
    not-found exit is not taken. *)
Theorem snapped_ids_are_known haversine (allNodes : list node) (g : graph)
    lat1 lng1 lat2 lng2 ex1 ex2 fuel :
  let nodes := loadGraphData allNodes g in
  let a := findNearestNode haversine lat1 lng1 nodes ex1 in
  let b := findNearestNode haversine lat2 lng2 nodes ex2 in
  a ≠ VNull -> b ≠ VNull -> ToString a ≠ ToString b ->
  is_Some ((init_maps g).1 !! ToString a)
  ∧ is_Some ((init_maps g).1 !! ToString b)
  ∧ Part002.bidirectionalDijkstra fuel g (VStr (ToString a)) (VStr (ToString b))
    = (st ← Part002.bidi_loop fuel g
              (Part002.bidi_init g (VStr (ToString a)) (VStr (ToString b)));
       Part002.reconstruct fuel st).
Proof.
  intros nodes a b Ha Hb Hab.
  assert (Hk : ∀ lat lng ex,
            findNearestNode haversine lat lng nodes ex ≠ VNull ->
            (init_maps g).1 !! ToString (findNearestNode haversine lat lng nodes ex)
            = Some Inf).
  { intros lat lng ex Hne.
    destruct (findNearestNode_elem haversine lat lng nodes ex)
      as [H | (n & Hn & H)]; [done|].
    rewrite H. apply init_maps_known.
    unfold nodes, loadGraphData in Hn. apply list_elem_of_filter in Hn as [Hn _].
    by apply routableNodeIds_spec. }
  pose proof (Hk lat1 lng1 ex1 Ha) as H1. pose proof (Hk lat2 lng2 ex2 Hb) as H2.
  fold a in H1. fold b in H2.
  split; [by eexists|]. split; [by eexists|].
  unfold Part002.bidirectionalDijkstra, strict_eq.
  rewrite bool_decide_eq_false_2 by congruence. simpl. by rewrite H1, H2.
Qed.

Lemma snapped_ids_are_known_witness :
  let nodes := loadGraphData three_nodes one_edge in
  let a := findNearestNode planar (Indoor.ofZ 0) (Indoor.ofZ 0) nodes VNull in
  let b := findNearestNode planar (Indoor.ofZ 0) (Indoor.ofZ 4) nodes VNull in
  is_Some ((init_maps one_edge).1 !! ToString a)
  ∧ is_Some ((init_maps one_edge).1 !! ToString b)
  ∧ Part002.bidirectionalDijkstra 20 one_edge (VStr (ToString a)) (VStr (ToString b))
    = (st ← Part002.bidi_loop 20 one_edge
              (Part002.bidi_init one_edge (VStr (ToString a)) (VStr (ToString b)));
       Part002.reconstruct 20 st).
Proof.
  apply (snapped_ids_are_known planar three_nodes one_edge
           (Indoor.ofZ 0) (Indoor.ofZ 0) (Indoor.ofZ 0) (Indoor.ofZ 4) VNull VNull 20);
    by vm_compute.
Defined.

(** ** Scores of the classifiers *)

Lemma Qc_this_eq (a b : Qc) : this a = this b -> a = b.
Proof. intros H. by apply Qc_is_canon; rewrite H. Qed.

Lemma gps_score loc :
  Indoor.g_confidence (Indoor.detectIndoorFromGPS loc)
  = Indoor.ratio100
      (3 * b2z (poor_accuracy loc) + b2z (no_altitude loc) + b2z (no_speed loc)) 3
  ∧ Indoor.g_isIndoor (Indoor.detectIndoorFromGPS loc)
    = bool_decide
        (2 <= 3 * b2z (poor_accuracy loc) + b2z (no_altitude loc) + b2z (no_speed loc)).
Proof.
  unfold Indoor.detectIndoorFromGPS, poor_accuracy, no_altitude, no_speed.
  destruct loc as [la lo acc alt sp]. simpl.
  destruct acc as [a|]; simpl;
    [destruct (bool_decide (a = 0%Qc)); simpl;
       [|destruct (bool_decide (Indoor.ofZ 20 < a)%Qc); simpl]|];
    destruct (Indoor.qtruthy alt), (Indoor.qtruthy sp); simpl; split; reflexivity.
Qed.

Lemma wifi_score wd w :
  Indoor.analyzeWiFiNetworks wd = Indoor.Ok w ->
  ∃ k, 0 <= k <= 3 ∧ Indoor.w_confidence w = Indoor.ratio100 k 2
       ∧ Indoor.w_isIndoor w = bool_decide (1 <= k).
Proof.
  assert (H0 : Indoor.ratio100 0 2 = 0%Qc) by (by apply Qc_this_eq).
  unfold Indoor.analyzeWiFiNetworks. destruct wd as [wd|];
    [destruct (Indoor.networks wd) as [nets|]|];
    try (intros [= <-]; exists 0; simpl; by rewrite H0).
  destruct (Indoor.sum_signals nets (Some 0%Qc)) as [total|]; simpl; [|done].
  intros [= <-]. simpl.
  match goal with |- context [Indoor.ratio100 ?k 2] => exists k end.
  split; [|done].
  repeat (match goal with |- context [if ?b then _ else _] => destruct b end);
    try (destruct total); repeat case_bool_decide; lia.
Qed.

Lemma cell_score cd :
  ∃ k, 0 <= k <= 4
       ∧ Indoor.k_confidence (Indoor.analyzeCellularNetwork cd) = Indoor.ratio100 k 3
       ∧ Indoor.k_isIndoor (Indoor.analyzeCellularNetwork cd) = bool_decide (1 <= k).
Proof.
  assert (H0 : Indoor.ratio100 0 3 = 0%Qc) by (by apply Qc_this_eq).
  unfold Indoor.analyzeCellularNetwork. destruct cd as [cd|];
    [|exists 0; simpl; by rewrite H0].
  simpl. match goal with |- context [Indoor.ratio100 ?k 3] => exists k end.
  split; [|done].
  repeat (match goal with |- context [if ?b then _ else _] => destruct b end); lia.
Qed.

Lemma ratio100_pos k n :
  0 <= k <= 5 -> n = 2 ∨ n = 3 ->
  bool_decide (0 < Indoor.ratio100 k n)%Qc = bool_decide (0 < k).
Proof.
  intros Hk Hn.
  assert (k = 0 ∨ k = 1 ∨ k = 2 ∨ k = 3 ∨ k = 4 ∨ k = 5) as Hc by lia.
  destruct Hn as [-> | ->];
    destruct Hc as [-> | [-> | [-> | [-> | [-> | ->]]]]]; by vm_compute.
Qed.

Lemma tally_ratio acc k n ind w :
  0 <= k <= 5 -> n = 2 ∨ n = 3 ->
  Indoor.tally acc (Indoor.ratio100 k n) ind w
  = if bool_decide (0 < k)
    then (acc.1.1 + (if ind then w else 0), (acc.1.2 + Indoor.ratio100 k n)%Qc, acc.2 + 1)
    else acc.
Proof. intros Hk Hn. unfold Indoor.tally. by rewrite ratio100_pos. Qed.

(** The result of the combined classification, by the three scores. *)
Lemma comprehensive_scores loc deviceInfo r :
  Indoor.comprehensiveIndoorDetection loc deviceInfo = Indoor.Ok r ->
  ∃ kg kw kc,
    0 <= kg <= 5 ∧ 0 <= kw <= 3 ∧ 0 <= kc <= 4
    ∧ Indoor.d_gps r = Indoor.detectIndoorFromGPS loc
    ∧ Indoor.analyzeWiFiNetworks (deviceInfo ≫= Indoor.wifi) = Indoor.Ok (Indoor.d_wifi r)
    ∧ Indoor.d_cellular r = Indoor.analyzeCellularNetwork (deviceInfo ≫= Indoor.cellular)
    ∧ kg = 3 * b2z (poor_accuracy loc) + b2z (no_altitude loc) + b2z (no_speed loc)
    ∧ Indoor.g_confidence (Indoor.d_gps r) = Indoor.ratio100 kg 3
    ∧ Indoor.g_isIndoor (Indoor.d_gps r) = bool_decide (2 <= kg)
    ∧ Indoor.w_confidence (Indoor.d_wifi r) = Indoor.ratio100 kw 2
    ∧ Indoor.w_isIndoor (Indoor.d_wifi r) = bool_decide (1 <= kw)
    ∧ Indoor.k_confidence (Indoor.d_cellular r) = Indoor.ratio100 kc 3
    ∧ Indoor.k_isIndoor (Indoor.d_cellular r) = bool_decide (1 <= kc)
    ∧ Indoor.totalScore r
      = (if bool_decide (2 <= kg) then 3 else 0)
        + (if bool_decide (1 <= kw) then 1 else 0)
        + (if bool_decide (1 <= kc) then 1 else 0)
    ∧ Indoor.isIndoor r = bool_decide (2 <= Indoor.totalScore r)
    ∧ Indoor.checksPerformed r
      = b2z (bool_decide (0 < kg)) + b2z (bool_decide (0 < kw))
        + b2z (bool_decide (0 < kc))
    ∧ Indoor.confidence r
      = (if bool_decide (0 < Indoor.checksPerformed r)%Z
         then ((if bool_decide (0 < kg)%Z then Indoor.ratio100 kg 3 else 0)
               + (if bool_decide (0 < kw)%Z then Indoor.ratio100 kw 2 else 0)
               + (if bool_decide (0 < kc)%Z then Indoor.ratio100 kc 3 else 0))
              / Indoor.ofZ (Indoor.checksPerformed r)
         else 0)%Qc.
Proof.
  unfold Indoor.comprehensiveIndoorDetection.
  destruct (Indoor.analyzeWiFiNetworks (deviceInfo ≫= Indoor.wifi)) as [w|] eqn:Hw;
    cbn [Indoor.bind]; [|done].
  destruct (gps_score loc) as [Hg1 Hg2].
  destruct (wifi_score _ _ Hw) as (kw & Hkw & Hw1 & Hw2).
  destruct (cell_score (deviceInfo ≫= Indoor.cellular)) as (kc & Hkc & Hc1 & Hc2).
  set (kg := 3 * b2z (poor_accuracy loc) + b2z (no_altitude loc) + b2z (no_speed loc)) in *.
  assert (Hkg : 0 <= kg <= 5).
  { unfold kg. destruct (poor_accuracy loc), (no_altitude loc), (no_speed loc);
      simpl; lia. }
  revert Hg1 Hg2 Hc1 Hc2.
  generalize (Indoor.detectIndoorFromGPS loc),
    (Indoor.analyzeCellularNetwork (deviceInfo ≫= Indoor.cellular)).
  intros G C Hg1 Hg2 Hc1 Hc2 [= <-]. exists kg, kw, kc.
  cbn [Indoor.isIndoor Indoor.confidence Indoor.d_gps Indoor.d_wifi Indoor.d_cellular
       Indoor.totalScore Indoor.checksPerformed].
  rewrite Hg1, Hg2, Hw1, Hw2, Hc1, Hc2.
  rewrite !tally_ratio by (first [lia | by left | by right]).
  repeat split; try done; try lia;
    destruct (bool_decide (0 < kg)) eqn:E1, (bool_decide (0 < kw)) eqn:E2,
      (bool_decide (0 < kc)) eqn:E3; simpl;
    try (apply bool_decide_eq_true in E1); try (apply bool_decide_eq_false in E1);
    try (apply bool_decide_eq_true in E2); try (apply bool_decide_eq_false in E2);
    try (apply bool_decide_eq_true in E3); try (apply bool_decide_eq_false in E3);
    repeat case_bool_decide; try lia; try done;
    try (f_equal; ring).
Qed.

Lemma comprehensive_rule loc deviceInfo r :
  Indoor.comprehensiveIndoorDetection loc deviceInfo = Indoor.Ok r ->
  Indoor.d_gps r = Indoor.detectIndoorFromGPS loc
  ∧ Indoor.g_isIndoor (Indoor.d_gps r)
    = poor_accuracy loc || (no_altitude loc && no_speed loc)
  ∧ Indoor.isIndoor r
    = Indoor.g_isIndoor (Indoor.d_gps r)
      || (Indoor.w_isIndoor (Indoor.d_wifi r) && Indoor.k_isIndoor (Indoor.d_cellular r))
  ∧ Indoor.totalScore r
    = 3 * b2z (Indoor.g_isIndoor (Indoor.d_gps r))
      + b2z (Indoor.w_isIndoor (Indoor.d_wifi r))
      + b2z (Indoor.k_isIndoor (Indoor.d_cellular r))
  ∧ (poor_accuracy loc = true -> Indoor.isIndoor r = true).
Proof.
  intros Hrun.
  destruct (comprehensive_scores loc deviceInfo r Hrun)
    as (kg & kw & kc & Hkg & Hkw & Hkc & Hg & Hw & Hc & Hkgv & _ & Hgi & _ & Hwi
        & _ & Hci & Hscore & Hind & _).
  rewrite Hind, Hscore, Hgi, Hwi, Hci. split; [done|].
  assert (Hrule : bool_decide (2 <= kg)
                  = poor_accuracy loc || (no_altitude loc && no_speed loc)).
  { rewrite Hkgv. destruct (poor_accuracy loc), (no_altitude loc), (no_speed loc); done. }
  split; [done|]. split; [|split].
  - repeat case_bool_decide; simpl; try done; lia.
  - repeat case_bool_decide; simpl; try done; lia.
  - intros Hp. rewrite Hrule, Hp. simpl. apply bool_decide_eq_true.
    repeat case_bool_decide; lia.
Qed.

(** X15. The decision rules of the classifiers. The GPS detector says
    indoor exactly when the accuracy is poor (absent, zero or above 20)
    or altitude and speed are both missing (absent or zero). The combined
    detector, when it returns, says indoor exactly when the GPS detector
    does or the WiFi and the cellular detectors both do; its score is 3
    for the GPS detector plus 1 for each of the other two that says
    indoor. In particular a location with no accuracy figure is always
    classified indoor, whatever the device reports. *)
Theorem indoor_decision_rule loc deviceInfo r :
  Indoor.comprehensiveIndoorDetection loc deviceInfo = Indoor.Ok r ->
  Indoor.d_gps r = Indoor.detectIndoorFromGPS loc
  ∧ Indoor.g_isIndoor (Indoor.d_gps r)
    = poor_accuracy loc || (no_altitude loc && no_speed loc)
  ∧ Indoor.isIndoor r
    = Indoor.g_isIndoor (Indoor.d_gps r)
      || (Indoor.w_isIndoor (Indoor.d_wifi r) && Indoor.k_isIndoor (Indoor.d_cellular r))
  ∧ Indoor.totalScore r
    = 3 * b2z (Indoor.g_isIndoor (Indoor.d_gps r))
      + b2z (Indoor.w_isIndoor (Indoor.d_wifi r))
      + b2z (Indoor.k_isIndoor (Indoor.d_cellular r))
  ∧ (poor_accuracy loc = true -> Indoor.isIndoor r = true).
Proof. apply comprehensive_rule. Qed.

Lemma indoor_decision_rule_witness :
  let loc := at_ 0 0 in
  let r := bare_result in
  Indoor.d_gps r = Indoor.detectIndoorFromGPS loc
  ∧ Indoor.g_isIndoor (Indoor.d_gps r)
    = poor_accuracy loc || (no_altitude loc && no_speed loc)
  ∧ Indoor.isIndoor r
    = Indoor.g_isIndoor (Indoor.d_gps r)
      || (Indoor.w_isIndoor (Indoor.d_wifi r) && Indoor.k_isIndoor (Indoor.d_cellular r))
  ∧ Indoor.totalScore r
    = 3 * b2z (Indoor.g_isIndoor (Indoor.d_gps r))
      + b2z (Indoor.w_isIndoor (Indoor.d_wifi r))
      + b2z (Indoor.k_isIndoor (Indoor.d_cellular r))
  ∧ (poor_accuracy loc = true -> Indoor.isIndoor r = true).
Proof.
  apply (indoor_decision_rule (at_ 0 0) None).
  reflexivity.
Defined.

Lemma comprehensive_range loc deviceInfo r :
  Indoor.comprehensiveIndoorDetection loc deviceInfo = Indoor.Ok r ->
  (0 <= Indoor.g_confidence (Indoor.d_gps r)
   ∧ Indoor.g_confidence (Indoor.d_gps r) <= Indoor.ofZ 167)%Qc
  ∧ (0 <= Indoor.w_confidence (Indoor.d_wifi r)
     ∧ Indoor.w_confidence (Indoor.d_wifi r) <= Indoor.ofZ 150)%Qc
  ∧ (0 <= Indoor.k_confidence (Indoor.d_cellular r)
     ∧ Indoor.k_confidence (Indoor.d_cellular r) <= Indoor.ofZ 134)%Qc
  ∧ (0 <= Indoor.confidence r ∧ Indoor.confidence r <= Indoor.ofZ 167)%Qc.
Proof.
  intros Hrun.
  destruct (comprehensive_scores loc deviceInfo r Hrun)
    as (kg & kw & kc & Hkg & Hkw & Hkc & _ & _ & _ & _ & Hgc & _ & Hwc & _
        & Hcc & _ & _ & _ & Hchecks & Hconf).
  rewrite Hconf, Hchecks, Hgc, Hwc, Hcc.
  assert (kg = 0 ∨ kg = 1 ∨ kg = 2 ∨ kg = 3 ∨ kg = 4 ∨ kg = 5) as Hg by lia.
  assert (kw = 0 ∨ kw = 1 ∨ kw = 2 ∨ kw = 3) as Hw by lia.
  assert (kc = 0 ∨ kc = 1 ∨ kc = 2 ∨ kc = 3 ∨ kc = 4) as Hc by lia.
  clear Hkg Hkw Hkc.
  destruct Hg as [-> | [-> | [-> | [-> | [-> | ->]]]]];
    destruct Hw as [-> | [-> | [-> | ->]]];
    destruct Hc as [-> | [-> | [-> | [-> | ->]]]];
    by vm_compute.
Qed.

(** X16. The range of the confidence figures, for every input: the GPS
    confidence lies between 0 and 167, the WiFi confidence between 0 and
    150, the cellular confidence between 0 and 134, and the combined
    confidence, a mean of those that are positive, between 0 and 167. The
    bounds are whole numbers because the code divides in doubles: its
    largest GPS figure is 166.66666666666669, just above the quotient
    500/3 of this embedding. *)
Theorem confidence_bounds loc deviceInfo r :
  Indoor.comprehensiveIndoorDetection loc deviceInfo = Indoor.Ok r ->
  (0 <= Indoor.g_confidence (Indoor.d_gps r)
   ∧ Indoor.g_confidence (Indoor.d_gps r) <= Indoor.ofZ 167)%Qc
  ∧ (0 <= Indoor.w_confidence (Indoor.d_wifi r)
     ∧ Indoor.w_confidence (Indoor.d_wifi r) <= Indoor.ofZ 150)%Qc
  ∧ (0 <= Indoor.k_confidence (Indoor.d_cellular r)
     ∧ Indoor.k_confidence (Indoor.d_cellular r) <= Indoor.ofZ 134)%Qc
  ∧ (0 <= Indoor.confidence r ∧ Indoor.confidence r <= Indoor.ofZ 167)%Qc.
Proof. apply comprehensive_range. Qed.

Lemma confidence_bounds_witness :
  let r := bare_result in
  (0 <= Indoor.g_confidence (Indoor.d_gps r)
   ∧ Indoor.g_confidence (Indoor.d_gps r) <= Indoor.ofZ 167)%Qc
  ∧ (0 <= Indoor.w_confidence (Indoor.d_wifi r)
     ∧ Indoor.w_confidence (Indoor.d_wifi r) <= Indoor.ofZ 150)%Qc
  ∧ (0 <= Indoor.k_confidence (Indoor.d_cellular r)
     ∧ Indoor.k_confidence (Indoor.d_cellular r) <= Indoor.ofZ 134)%Qc
  ∧ (0 <= Indoor.confidence r ∧ Indoor.confidence r <= Indoor.ofZ 167)%Qc.
Proof.
  apply (confidence_bounds (at_ 0 0) None).
  reflexivity.
Defined.

(** ** The two endpoints and the classification *)

(** X20. The [/detect_indoor] endpoint answers 400 exactly when the body
    has no location or the location's [lat] or [lng] is absent or zero, so
    a point on the equator or on the prime meridian is rejected. When it
    answers with a classification, the location is the one sent, its
    [lat] and [lng] are truthy, the confidence lies between 0 and 167,
    the verdict is indoor exactly when the GPS detector says so or the
    WiFi and cellular detectors both do, and it is indoor whenever the
    accuracy is absent, zero or above 20. *)
Theorem detect_indoor_answers (location : option body_location)
    (deviceInfo : option Indoor.device_info) :
  (detect_indoor location deviceInfo
     = Answered (BadRequest "Location data (lat, lng) is required")
   <-> location = None
       ∨ ∃ l, location = Some l
              ∧ (b_lat l = None ∨ b_lat l = Some 0%Qc
                 ∨ b_lng l = None ∨ b_lng l = Some 0%Qc))
  ∧ (∀ e, detect_indoor location deviceInfo = Answered (BadRequest e) ->
          e = "Location data (lat, lng) is required")
  ∧ (∀ ind conf gps wifi cell l,
       detect_indoor location deviceInfo = Answered (Classified ind conf gps wifi cell l) ->
       location = Some l
       ∧ Indoor.qtruthy (b_lat l) = true ∧ Indoor.qtruthy (b_lng l) = true
       ∧ gps = Indoor.detectIndoorFromGPS (location_of l)
       ∧ (0 <= conf ∧ conf <= Indoor.ofZ 167)%Qc
       ∧ ind = Indoor.g_isIndoor gps
               || (Indoor.w_isIndoor wifi && Indoor.k_isIndoor cell)
       ∧ (poor_accuracy (location_of l) = true -> ind = true)).
Proof.
  assert (Hq : ∀ x, Indoor.qtruthy x = false <-> x = None ∨ x = Some 0%Qc).
  { intros [q|]; simpl; [|by split; [left|]].
    case_bool_decide as H0; simpl.
    - subst. split; [by right | done].
    - split; [done|]. intros [?|[= ?]]; done. }
  unfold detect_indoor. destruct location as [l|].
  - destruct (Indoor.qtruthy (b_lat l)) eqn:Hlat; simpl.
    + destruct (Indoor.qtruthy (b_lng l)) eqn:Hlng; simpl.
      * destruct (Indoor.comprehensiveIndoorDetection (location_of l) deviceInfo)
          as [r|] eqn:Hrun.
        -- split; [|split; [done|]].
           { split; [done|]. intros [? | (l' & [= <-] & H)]; [done|].
             assert (Indoor.qtruthy (b_lat l) = false ∨ Indoor.qtruthy (b_lng l) = false)
               as [?|?]; [|congruence..].
             rewrite !Hq. tauto. }
           intros ind conf gps wifi cell l' [= <- <- <- <- <- <-].
           destruct (comprehensive_rule _ _ _ Hrun) as (Hg & _ & Hrule & _ & Hpoor).
           destruct (comprehensive_range _ _ _ Hrun) as (_ & _ & _ & Hb).
           done.
        -- split; [|done]. split; [done|].
           intros [? | (l' & [= <-] & H)]; [done|].
           assert (Indoor.qtruthy (b_lat l) = false ∨ Indoor.qtruthy (b_lng l) = false)
             as [?|?]; [|congruence..].
           rewrite !Hq. tauto.
      * split; [|split; [by intros e [= <-] | done]].
        split; [|done]. intros _. right. exists l. split; [done|].
        apply Hq in Hlng. tauto.
    + split; [|split; [by intros e [= <-] | done]].
      split; [|done]. intros _. right. exists l. split; [done|].
      apply Hq in Hlat. tauto.
  - split; [|split; [by intros e [= <-] | done]]. split; [by left | done].
Qed.

(** X18. What a success of the part_002 handler reports beside the route:
    [indoorInfo.start] and [indoorInfo.end] are the combined
    classifications of the two request points, [hasIndoorPoints] is the
    disjunction of their verdicts, and it is true whenever one of the two
    points comes without a usable accuracy (absent, zero, above 20), as
    it does for a request that sends [lat] and [lng] only. *)
Theorem route_indoor_info haversine fuel nodes edges start end_ deviceInfo route info :
  Part002.calculate_route haversine fuel nodes edges start end_ deviceInfo
    = Some (Responded (Success route info)) ->
  ∃ rs re,
    Indoor.comprehensiveIndoorDetection start deviceInfo = Indoor.Ok rs
    ∧ Indoor.comprehensiveIndoorDetection end_ deviceInfo = Indoor.Ok re
    ∧ info = Some {| i_start := rs; i_end := re;
                     hasIndoorPoints := Indoor.isIndoor rs || Indoor.isIndoor re |}
    ∧ Indoor.isIndoor rs
      = poor_accuracy start || (no_altitude start && no_speed start)
        || (Indoor.w_isIndoor (Indoor.d_wifi rs) && Indoor.k_isIndoor (Indoor.d_cellular rs))
    ∧ (poor_accuracy start = true ∨ poor_accuracy end_ = true ->
       Indoor.isIndoor rs || Indoor.isIndoor re = true).
Proof.
  unfold Part002.calculate_route.
  destruct nodes as [ns|]; [|done]. destruct edges as [es|]; [|done].
  case_bool_decide; [done|].
  destruct (Indoor.comprehensiveIndoorDetection start deviceInfo) as [rs|] eqn:Hs; [|done].
  destruct (Indoor.comprehensiveIndoorDetection end_ deviceInfo) as [re|] eqn:He; [|done].
  destruct (_ || _); [done|].
  destruct (Part002.bidirectionalDijkstra _ _ _ _) as [r|]; [|done]. simpl.
  unfold Part002.respond. destruct (bool_decide (length (path r) < 1)%nat); [done|].
  intros [= <- <-]. exists rs, re.
  destruct (comprehensive_rule _ _ _ Hs) as (_ & Hg1 & Hr1 & _ & Hp1).
  destruct (comprehensive_rule _ _ _ He) as (_ & _ & _ & _ & Hp2).
  repeat split; try done.
  - by rewrite Hr1, Hg1.
  - intros [Hp|Hp]; [rewrite (Hp1 Hp) | rewrite (Hp2 Hp)]; [done | apply orb_true_r].
Qed.

Lemma route_indoor_info_witness :
  ∃ rs re,
    Indoor.comprehensiveIndoorDetection (at_ 0 0) None = Indoor.Ok rs
    ∧ Indoor.comprehensiveIndoorDetection (at_ 0 1) None = Indoor.Ok re
    ∧ Some {| i_start := bare_result; i_end := bare_result; hasIndoorPoints := true |}
      = Some {| i_start := rs; i_end := re;
                hasIndoorPoints := Indoor.isIndoor rs || Indoor.isIndoor re |}
    ∧ Indoor.isIndoor rs
      = poor_accuracy (at_ 0 0) || (no_altitude (at_ 0 0) && no_speed (at_ 0 0))
        || (Indoor.w_isIndoor (Indoor.d_wifi rs) && Indoor.k_isIndoor (Indoor.d_cellular rs))
    ∧ (poor_accuracy (at_ 0 0) = true ∨ poor_accuracy (at_ 0 1) = true ->
       Indoor.isIndoor rs || Indoor.isIndoor re = true).
Proof.
  apply (route_indoor_info planar 5 (Some two_nodes) (Some one_edge)
           (at_ 0 0) (at_ 0 1) None
           [ {| c_lat := Indoor.ofZ 0; c_lng := Indoor.ofZ 0 |};
             {| c_lat := Indoor.ofZ 0; c_lng := Indoor.ofZ 1 |} ]).
  reflexivity.
Defined.

Lemma device_info_advisory_when_returning_witness :
  routing_part (Part002.calculate_route planar 5 (Some two_nodes) (Some one_edge)
                  (at_ 0 0) (at_ 0 1) None)
  = routing_part (Part002.calculate_route planar 5 (Some two_nodes) (Some one_edge)
                    (at_ 0 0) (at_ 0 1) (Some cell_only)).
Proof.
  apply (device_info_advisory_when_returning planar 5 (Some two_nodes) (Some one_edge)
           (at_ 0 0) (at_ 0 1) None (Some cell_only)); by vm_compute.
Defined.

(** ** Relaxation lowers distances *)

Lemma relax_all_mono c zc (l : list (jsval * Z)) s :
  dist s !! ToString c = Some (Fin zc) ->
  (∀ n w, (n, w) ∈ l -> 0 <= w) ->
  dist (foldl (relax c) s l) !! ToString c = Some (Fin zc)
  ∧ (∀ k z, dist s !! k = Some (Fin z) ->
       ∃ z', dist (foldl (relax c) s l) !! k = Some (Fin z') ∧ z' <= z)
  ∧ (∀ n w, (n, w) ∈ l ->
       ∃ zk, dist (foldl (relax c) s l) !! ToString n = Some (Fin zk) ∧ zk <= zc + w)
  ∧ (null_inv s -> null_inv (foldl (relax c) s l)).
Proof.
  revert s. induction l as [|[n w] l IH]; intros s Hc Hw; simpl.
  - split; [done|]. split; [eauto with lia|]. split; [|done].
    intros n w H. by apply elem_of_nil in H.
  - assert (Hw0 : 0 <= w) by (apply (Hw n); by left).
    assert (Hw' : ∀ n0 w0, (n0, w0) ∈ l -> 0 <= w0).
    { intros n0 w0 H. apply (Hw n0). by right. }
    destruct (relax_cases c zc s n w Hc) as [[-> (zk & Hk & Hle)] | [-> Hlt]].
    + destruct (IH s Hc Hw') as (H1 & H2 & H3 & H4).
      split; [done|]. split; [done|]. split; [|done].
      intros n0 w0 Hin. apply elem_of_cons in Hin as [[= -> ->]|Hin]; [|by apply H3].
      destruct (H2 _ _ Hk) as (z' & Hz' & Hle'). exists z'. split; [done|lia].
    + assert (Hne : ToString n ≠ ToString c).
      { intros Heq. rewrite Heq in Hlt. specialize (Hlt _ Hc). lia. }
      assert (Hc1 : dist (relaxed c zc s n w) !! ToString c = Some (Fin zc)).
      { simpl. by rewrite lookup_insert_ne. }
      destruct (IH _ Hc1 Hw') as (H1 & H2 & H3 & H4).
      split; [done|]. split; [|split].
      * intros k z Hk. destruct (decide (ToString n = k)) as [<-|Hnk].
        -- specialize (Hlt _ Hk).
           destruct (H2 (ToString n) (zc + w)) as (z' & Hz' & Hle');
             [simpl; by rewrite lookup_insert_eq|].
           exists z'. split; [done|lia].
        -- apply H2. simpl. by rewrite lookup_insert_ne.
      * intros n0 w0 Hin. apply elem_of_cons in Hin as [[= -> ->]|Hin]; [|by apply H3].
        apply H2. simpl. by rewrite lookup_insert_eq.
      * intros Hnull. apply H4. intros k. simpl.
        destruct (decide (ToString n = k)) as [<-|Hnk].
        -- left. exists (zc + w). by rewrite lookup_insert_eq.
        -- rewrite !lookup_insert_ne by done. apply Hnull.
Qed.

(** The two shapes of a pop. *)
Lemma side_step_cases nbrs s :
  (next_visit s = None
   ∧ dist (side_step nbrs s) = dist s ∧ prev (side_step nbrs s) = prev s
   ∧ visited (side_step nbrs s) = visited s
   ∧ ∀ e, e ∈ queue (side_step nbrs s) -> e ∈ queue s)
  ∨ ∃ e rest, queue_sort (queue s) = e :: rest
      ∧ next_visit s = Some (q_node e)
      ∧ side_step nbrs s
        = foldl (relax (q_node e))
            {| dist := dist s; prev := prev s;
               visited := visited s ++ [q_node e]; queue := rest |}
            (nbrs (q_node e)).
Proof.
  unfold next_visit, side_step.
  destruct (queue_sort (queue s)) as [|e rest] eqn:Hsort; [by left|].
  destruct (negb (truthy (q_node e)) || bool_decide (q_node e ∈ visited s)).
  - left. simpl. repeat split; try done.
    intros e' He'. apply queue_sort_head in Hsort as (_ & Hrest & _). by apply Hrest.
  - right. by exists e, rest.
Qed.

(** ** Optimality of one direction *)

Section Optimal.

Variable root : string.
Variable R : string -> string -> Z -> Prop.
Variable ok : jsval -> Prop.
Variable nbrs : jsval -> list (jsval * Z).

Hypothesis ok_inj : ∀ v1 v2, ok v1 -> ok v2 -> ToString v1 = ToString v2 -> v1 = v2.
Hypothesis ok_root : ok (VStr root).
Hypothesis ok_truthy : ∀ v, ok v -> truthy v = true.
Hypothesis nbrs_sound : ∀ c n w, ok c -> (n, w) ∈ nbrs c ->
  (ok n ∨ ToString n = root) ∧ R (ToString c) (ToString n) w ∧ 0 <= w.
Hypothesis R_nonneg : ∀ b c w, R b c w -> 0 <= w.
Hypothesis R_ok : ∀ b c w, R b c w -> ∃ y, ok y ∧ ToString y = c.

(** A walk from the root ends at a settled node that is not farther than
    the walk is long, or passes through a node that is not settled and not
    farther than that. *)
Lemma frontier s k w :
  side_inv root R ok s -> closed R s -> swalk R root k w ->
  (∃ v zv, v ∈ visited s ∧ ToString v = k
           ∧ dist s !! k = Some (Fin zv) ∧ zv <= w)
  ∨ (∃ y zy, ok y ∧ (y ∉ visited s)
             ∧ dist s !! ToString y = Some (Fin zy) ∧ zy <= w).
Proof.
  intros Hinv Hclosed Hwalk.
  induction Hwalk as [|b c d w Hwalk IH HR].
  - destruct (decide (VStr root ∈ visited s)) as [Hin|Hnot].
    + left. exists (VStr root), 0. repeat split; try done.
      apply (inv_root _ _ _ _ Hinv).
    + right. exists (VStr root), 0. repeat split; try done.
      apply (inv_root _ _ _ _ Hinv).
  - pose proof (R_nonneg _ _ _ HR) as Hw.
    destruct IH as [(v & zv & Hv & Hvb & Hd & Hle) | (y & zy & Hy & Hny & Hd & Hle)].
    + subst b. destruct (Hclosed v zv c w Hv Hd HR) as (zc & Hdc & Hlec).
      destruct (decide (Exists (fun v' => ToString v' = c) (visited s))) as [Hex|Hnex].
      * apply Exists_exists in Hex as (v' & Hv' & Hs'). left.
        exists v', zc. repeat split; try done. lia.
      * destruct (R_ok _ _ _ HR) as (y & Hy & Hyc). right. exists y, zc.
        split; [done|]. split.
        -- intros Hin. apply Hnex. apply Exists_exists. by exists y.
        -- rewrite Hyc. split; [done|lia].
    + right. exists y, zy. repeat split; try done. lia.
Qed.

(** The node settled by a pop is at its least distance from the root. *)
Lemma settle_lower s u z w :
  side_inv root R ok s -> closed R s ->
  next_visit s = Some u -> dist s !! ToString u = Some (Fin z) ->
  swalk R root (ToString u) w -> z <= w.
Proof.
  intros Hinv Hclosed Hnext Hd Hwalk.
  unfold next_visit in Hnext.
  destruct (queue_sort (queue s)) as [|e rest] eqn:Hsort; [done|].
  destruct (negb (truthy (q_node e)) || bool_decide (q_node e ∈ visited s)) eqn:Hskip;
    [done|].
  injection Hnext as <-.
  apply orb_false_iff in Hskip as [Htr Hnv].
  apply negb_false_iff in Htr. apply bool_decide_eq_false in Hnv.
  apply queue_sort_head in Hsort as (He & _ & _ & Hmin).
  destruct (inv_queue _ _ _ _ Hinv _ He) as (Hoku & zq & z' & Hqd & Hdu & Hle).
  rewrite Hd in Hdu. injection Hdu as <-.
  destruct (frontier s _ w Hinv Hclosed Hwalk)
    as [(v & zv & Hv & Hvu & _) | (y & zy & Hy & Hny & Hdy & Hley)].
  - destruct (inv_visited _ _ _ _ Hinv _ Hv) as (Hokv & _).
    assert (v = q_node e) as Heq by (apply ok_inj; assumption).
    subst v. done.
  - pose proof (inv_pending _ _ _ _ Hinv y zy Hy (ok_truthy _ Hy) Hny Hdy) as Hpend.
    apply Hmin in Hpend. unfold qle in Hpend. rewrite Hqd in Hpend. simpl in Hpend.
    apply Z.leb_le in Hpend. lia.
Qed.

Lemma side_step_lower s :
  side_inv root R ok s -> closed R s -> lower root R s ->
  lower root R (side_step nbrs s).
Proof.
  intros Hinv Hclosed Hlower.
  destruct (side_step_spec root R ok nbrs ok_inj nbrs_sound s Hinv) as (Hinv' & Hfr & Hnv).
  intros v zv w Hv Hd Hwalk.
  destruct (next_visit s) as [u|] eqn:Hnext.
  - destruct Hnv as (z & Hnu & Hvis & Hdu & Hdu').
    rewrite Hvis in Hv. apply elem_of_app in Hv as [Hv|Hv].
    + destruct (Hfr v Hv) as [Hdv _]. rewrite Hdv in Hd. by eapply Hlower.
    + apply list_elem_of_singleton in Hv as ->.
      rewrite Hdu' in Hd. injection Hd as <-.
      exact (settle_lower s u z w Hinv Hclosed Hnext Hdu Hwalk).
  - rewrite Hnv in Hv. destruct (Hfr v Hv) as [Hdv _]. rewrite Hdv in Hd.
    by eapply Hlower.
Qed.

Lemma side_step_closed s :
  side_inv root R ok s -> closed R s ->
  (∀ c k w, ok c -> R (ToString c) k w -> ∃ n, (n, w) ∈ nbrs c ∧ ToString n = k) ->
  closed R (side_step nbrs s).
Proof.
  intros Hinv Hclosed Hcomplete.
  destruct (side_step_spec root R ok nbrs ok_inj nbrs_sound s Hinv) as (Hinv' & Hfr & Hnv).
  destruct (side_step_cases nbrs s)
    as [(Hnone & Hd & Hp & Hvis & _) | (e & rest & Hsort & Hnext & Hstep)].
  - intros v zv k w Hv Hdv HR. rewrite Hd in *. rewrite Hvis in Hv. by eapply Hclosed.
  - rewrite Hnext in Hnv. destruct Hnv as (z & Hnu & Hvis & Hdu & Hdu').
    set (u := q_node e) in *.
    set (s1 := {| dist := dist s; prev := prev s; visited := visited s ++ [u];
                  queue := rest |}) in *.
    assert (Hoku : ok u).
    { apply queue_sort_head in Hsort as (He & _). by apply (inv_queue _ _ _ _ Hinv _ He). }
    destruct (relax_all_mono u z (nbrs u) s1 Hdu) as (_ & Hmono & Hnew & _).
    { intros n w Hin. by apply (nbrs_sound u n w Hoku Hin). }
    rewrite <- Hstep in Hmono, Hnew.
    intros v zv k w Hv Hdv HR. rewrite Hvis in Hv. apply elem_of_app in Hv as [Hv|Hv].
    + destruct (Hfr v Hv) as [Hsame _]. rewrite Hsame in Hdv.
      destruct (Hclosed v zv k w Hv Hdv HR) as (zk & Hk & Hle).
      destruct (Hmono k zk Hk) as (z' & Hz' & Hle'). exists z'. split; [done|lia].
    + apply list_elem_of_singleton in Hv as ->.
      rewrite Hdu' in Hdv. injection Hdv as <-.
      destruct (Hcomplete u k w Hoku HR) as (n & Hin & <-).
      by apply Hnew.
Qed.

Lemma side_step_null s :
  side_inv root R ok s -> null_inv s -> null_inv (side_step nbrs s).
Proof.
  intros Hinv Hnull.
  destruct (side_step_spec root R ok nbrs ok_inj nbrs_sound s Hinv) as (Hinv' & Hfr & Hnv).
  destruct (side_step_cases nbrs s)
    as [(Hnone & Hd & Hp & Hvis & _) | (e & rest & Hsort & Hnext & Hstep)].
  - intros k. rewrite Hd, Hp. apply Hnull.
  - rewrite Hnext in Hnv. destruct Hnv as (z & Hnu & Hvis & Hdu & Hdu').
    assert (Hoku : ok (q_node e)).
    { apply queue_sort_head in Hsort as (He & _). by apply (inv_queue _ _ _ _ Hinv _ He). }
    rewrite Hstep.
    eapply (relax_all_mono (q_node e) z (nbrs (q_node e))); try done.
    intros n w Hin. by apply (nbrs_sound (q_node e) n w Hoku Hin).
Qed.

End Optimal.

(** ** Walks by string identifiers *)

Lemma swalk_cons R a b c w d :
  R a b w -> swalk R b c d -> swalk R a c (w + d).
Proof.
  intros HR Hw. induction Hw as [|b' c' d' w' Hw IH HR'].
  - replace (w + 0) with (0 + w) by lia. eapply swalk_snoc; [apply swalk_refl | done].
  - replace (w + (d' + w')) with (w + d' + w') by lia. by eapply swalk_snoc.
Qed.

Lemma is_walk_swalk g p d :
  is_walk g p d ->
  ∀ a b, head p = Some a -> last p = Some b ->
    swalk (Rf g) (ToString a) (ToString b) d.
Proof.
  induction 1 as [a0|a0 b0 l w d He Hw IH]; intros a b Ha Hb.
  - simpl in *. injection Ha as <-. injection Hb as <-. apply swalk_refl.
  - simpl in Ha. injection Ha as <-. rewrite last_cons_cons in Hb.
    apply swalk_cons with (b := ToString b0); [exact He|]. by apply IH.
Qed.

Lemma walk_between_swalk g a b p d :
  walk_between g a b p d -> swalk (Rf g) a b d.
Proof.
  intros (Hw & Hh & Hl).
  destruct (head p) as [x|] eqn:Hx; [|done]. destruct (last p) as [y|] eqn:Hy; [|done].
  simpl in *. injection Hh as <-. injection Hl as <-. by eapply is_walk_swalk.
Qed.

(** ** The single-direction search of index.js and part_001 *)

Lemma ok_str_inj v1 v2 : ok_str v1 -> ok_str v2 -> ToString v1 = ToString v2 -> v1 = v2.
Proof. intros [H1 _] [H2 _]. destruct v1, v2; simpl in *; try done. by intros ->. Qed.

Lemma ok_str_val v : ok_str v -> v = VStr (ToString v).
Proof. intros [H _]. by destruct v. Qed.

Lemma str_graph_check_sound g : str_graph_check g = true -> str_graph g.
Proof.
  intros H k es e Hk He. pose proof (all_edges_spec _ _ H k es e Hk He) as Hb.
  simpl in Hb. apply andb_true_iff in Hb as [Hb H3]. apply andb_true_iff in Hb as [H1 H2].
  apply Z.leb_le in H1. done.
Qed.

(** The chain of a node that has no [prev] entry. *)
Lemma chain_unshift_unlinked fuel (p : gmap string jsval) e l :
  p !! e = None -> chain_unshift fuel p (VStr e) [] = Some l ->
  l = [] ∨ l = [VStr e].
Proof.
  intros Hp. destruct fuel as [|f]; cbn [chain_unshift];
    destruct (truthy (VStr e)); try done; try (intros [= <-]; by left).
  unfold prev_get. cbn [ToString]. rewrite Hp. cbn [default].
  destruct f; cbn [chain_unshift truthy]; intros [= <-]; by right.
Qed.

Section Single.

Variable g : graph.
Variable s : string.

Hypothesis Hg : str_graph g.
Hypothesis Hs : s ≠ "".

Lemma ok_str_root : ok_str (VStr s).
Proof. split; [done|]. simpl. by rewrite bool_decide_eq_false_2. Qed.

Lemma ok_str_truthy v : ok_str v -> truthy v = true.
Proof. by intros [_ H]. Qed.

Lemma neighbors_str c n w :
  ok_str c -> (n, w) ∈ neighbors g c ->
  (ok_str n ∨ ToString n = s) ∧ Rf g (ToString c) (ToString n) w ∧ 0 <= w.
Proof.
  intros _ Hin. unfold neighbors in Hin.
  destruct (graph_get g (ToString c)) as [es|] eqn:Hget; simpl in Hin;
    [|by apply elem_of_nil in Hin].
  apply list_elem_of_fmap in Hin as (e & [= -> ->] & He).
  destruct (Hg _ _ _ (graph_get_elem _ _ _ Hget) He) as (Hw & Hstr & Htr).
  split; [by left|]. split; [by exists es, e | done].
Qed.

Lemma no_neighbors_str c n w :
  ok_str c -> (n, w) ∈ (fun _ : jsval => @nil (jsval * Z)) c ->
  (ok_str n ∨ ToString n = s) ∧ Rf g (ToString c) (ToString n) w ∧ 0 <= w.
Proof. intros _ Hin. by apply elem_of_nil in Hin. Qed.

Lemma neighbors_complete c k w :
  ok_str c -> Rf g (ToString c) k w -> ∃ n, (n, w) ∈ neighbors g c ∧ ToString n = k.
Proof.
  intros _ (es & e & Hget & He & Hk & Hw). simpl in *.
  exists (e_node e). split; [|done]. unfold neighbors. simpl in Hget. rewrite Hget. simpl.
  apply list_elem_of_fmap. exists e. by rewrite Hw.
Qed.

Lemma Rf_nonneg b c w : Rf g b c w -> 0 <= w.
Proof.
  intros (es & e & Hget & He & Hk & <-).
  by destruct (Hg _ _ _ (graph_get_elem _ _ _ Hget) He).
Qed.

Lemma Rf_ok b c w : Rf g b c w -> ∃ y, ok_str y ∧ ToString y = c.
Proof.
  intros (es & e & Hget & He & Hk & _).
  destruct (Hg _ _ _ (graph_get_elem _ _ _ Hget) He) as (_ & H1 & H2).
  by exists (e_node e).
Qed.

Variable e : string.

(** What the loop establishes: the end node is settled at its least
    distance, or the queue has run out with the end node not settled. *)
Lemma dijkstra_loop_spec fuel st st' :
  side_inv s (Rf g) ok_str st -> closed (Rf g) st -> lower s (Rf g) st ->
  null_inv st -> VStr e ∉ visited st ->
  Index.dijkstra_loop fuel g (VStr e) st = Some st' ->
  side_inv s (Rf g) ok_str st' ∧ lower s (Rf g) st' ∧ null_inv st'
  ∧ (VStr e ∈ visited st'
     ∨ (VStr e ∉ visited st') ∧ queue st' = [] ∧ closed (Rf g) st').
Proof.
  revert st. induction fuel as [|f IH]; intros st Hinv Hcl Hlo Hnu Hne; simpl;
    destruct (queue_sort (queue st)) as [|x rest] eqn:Hsort.
  1, 3: intros [= <-]; split; [done|]; split; [done|]; split; [done|]; right;
    split; [done|]; split; [|done];
    pose proof (queue_sort_length (queue st)) as Hlen; rewrite Hsort in Hlen;
    by destruct (queue st).
  - done.
  - destruct (negb (truthy (q_node x)) || bool_decide (q_node x ∈ visited st)) eqn:Hskip.
    + assert (Heq : with_queue st rest = side_step (neighbors g) st).
      { unfold side_step. by rewrite Hsort, Hskip. }
      rewrite Heq.
      destruct (side_step_spec s (Rf g) ok_str (neighbors g) ok_str_inj neighbors_str
                  st Hinv) as (Hinv' & _ & Hnv).
      assert (Hnext : next_visit st = None).
      { unfold next_visit. by rewrite Hsort, Hskip. }
      rewrite Hnext in Hnv. apply IH; try done.
      * apply (side_step_closed s (Rf g) ok_str (neighbors g) ok_str_inj neighbors_str);
          try done. apply neighbors_complete.
      * apply (side_step_lower s (Rf g) ok_str (neighbors g) ok_str_inj ok_str_root
                 ok_str_truthy neighbors_str Rf_nonneg Rf_ok); done.
      * apply (side_step_null s (Rf g) ok_str (neighbors g) ok_str_inj neighbors_str);
          done.
      * by rewrite Hnv.
    + assert (Hnext : next_visit st = Some (q_node x)).
      { unfold next_visit. by rewrite Hsort, Hskip. }
      unfold strict_eq. destruct (bool_decide (q_node x = VStr e)) eqn:Hend;
        [apply bool_decide_eq_true in Hend | apply bool_decide_eq_false in Hend].
      * assert (Heq : expand relax (q_node x) [] (with_queue st rest)
                      = side_step (fun _ => []) st).
        { unfold side_step. by rewrite Hsort, Hskip. }
        rewrite Heq. intros [= <-].
        destruct (side_step_spec s (Rf g) ok_str (fun _ => []) ok_str_inj
                    no_neighbors_str st Hinv) as (Hinv' & _ & Hnv).
        rewrite Hnext in Hnv. destruct Hnv as (z & _ & Hvis & _).
        split; [done|]. split; [|split].
        -- apply (side_step_lower s (Rf g) ok_str (fun _ => []) ok_str_inj ok_str_root
                    ok_str_truthy no_neighbors_str Rf_nonneg Rf_ok); done.
        -- apply (side_step_null s (Rf g) ok_str (fun _ => []) ok_str_inj
                    no_neighbors_str); done.
        -- left. rewrite Hvis, <- Hend. apply elem_of_app. right.
           by apply list_elem_of_singleton.
      * assert (Heq : expand relax (q_node x) (neighbors g (q_node x)) (with_queue st rest)
                      = side_step (neighbors g) st).
        { unfold side_step. by rewrite Hsort, Hskip. }
        rewrite Heq.
        destruct (side_step_spec s (Rf g) ok_str (neighbors g) ok_str_inj neighbors_str
                    st Hinv) as (Hinv' & _ & Hnv).
        rewrite Hnext in Hnv. destruct Hnv as (z & _ & Hvis & _).
        apply IH; try done.
        -- apply (side_step_closed s (Rf g) ok_str (neighbors g) ok_str_inj neighbors_str);
             try done. apply neighbors_complete.
        -- apply (side_step_lower s (Rf g) ok_str (neighbors g) ok_str_inj ok_str_root
                    ok_str_truthy neighbors_str Rf_nonneg Rf_ok); done.
        -- apply (side_step_null s (Rf g) ok_str (neighbors g) ok_str_inj neighbors_str);
             done.
        -- rewrite Hvis. intros Hin. apply elem_of_app in Hin as [Hin|Hin]; [done|].
           apply list_elem_of_singleton in Hin. congruence.
Qed.

Lemma start_side_inv :
  is_Some ((init_maps g).1 !! s) ->
  side_inv s (Rf g) ok_str (start_side g (VStr s))
  ∧ closed (Rf g) (start_side g (VStr s))
  ∧ lower s (Rf g) (start_side g (VStr s))
  ∧ null_inv (start_side g (VStr s)).
Proof.
  intros Hk. split; [|split; [|split]].
  - apply init_side_inv; [apply ok_str_inj | apply ok_str_root | done].
  - intros v zv k w Hv. by apply elem_of_nil in Hv.
  - intros v zv w Hv. by apply elem_of_nil in Hv.
  - intros k. simpl. destruct (decide (s = k)) as [<-|Hne].
    + left. exists 0. by rewrite lookup_insert_eq.
    + right. destruct (init_maps_ok g k) as [[_ H]|[_ H]]; [by left | by right].
Qed.

(** The search proper, after the two early returns. *)
Lemma dijkstra_result fuel r :
  s ≠ e -> is_Some ((init_maps g).1 !! s) ->
  Index.dijkstra fuel g (VStr s) (VStr e) = Some r ->
  (r = no_path ∧ ∀ w, ¬ swalk (Rf g) s e w)
  ∨ ∃ d, distance r = Some (Fin d)
         ∧ head (path r) = Some (VStr s) ∧ last (path r) = Some (VStr e)
         ∧ is_walk g (path r) d
         ∧ ∀ w, swalk (Rf g) s e w -> d <= w.
Proof.
  intros Hse [x Hx]. unfold Index.dijkstra, strict_eq.
  rewrite bool_decide_eq_false_2 by congruence. simpl. rewrite Hx.
  change {| dist := <[s:=Fin 0]> (init_maps g).1; prev := (init_maps g).2;
            visited := []; queue := [{| q_node := VStr s; q_dist := Fin 0 |}] |}
    with (start_side g (VStr s)).
  destruct (Index.dijkstra_loop fuel g (VStr e) (start_side g (VStr s))) as [st|] eqn:Hloop;
    simpl; [|done].
  destruct start_side_inv as (Hi0 & Hc0 & Hl0 & Hn0); [by eexists|].
  destruct (dijkstra_loop_spec fuel _ st Hi0 Hc0 Hl0 Hn0) as (Hinv & Hlo & Hnu & Hend);
    [by intros H; apply elem_of_nil in H | done |].
  rewrite (bool_decide_eq_false_2 (VStr e = VStr s)) by congruence.
  rewrite orb_false_r. intros Hrun.
  destruct Hend as [Hin | (Hnot & Hq & Hcl)].
  - right. destruct (inv_visited _ _ _ _ Hinv _ Hin) as (_ & _ & z & Hd).
    simpl in Hd. apply list_elem_of_lookup in Hin as [j Hj].
    destruct (inv_tree _ _ _ _ Hinv e z) as (c & zc & w & Hp & _ & _ & _ & Hcv & _);
      [congruence | done |].
    destruct (inv_visited _ _ _ _ Hinv _ Hcv) as (_ & Htc & _).
    rewrite Hp in Hrun.
    rewrite bool_decide_eq_false_2 in Hrun by (intros [= ->]; done). simpl in Hrun.
    rewrite chain_unshift_eq in Hrun.
    destruct (chain fuel (prev st) (VStr e)) as [l|] eqn:Hch; [|done]. simpl in Hrun.
    destruct (chain_tree s (Rf g) ok_str ok_str_inj ok_str_root st Hinv j (VStr e) fuel l
                Hj Hch) as (z' & t & -> & Hd' & Hrp & _).
    simpl in Hd'. rewrite Hd in Hd'. injection Hd' as <-.
    rewrite app_nil_r in Hrun.
    pose proof (rpath_last _ _ _ _ Hrp) as Hlast.
    assert (Hhead : head (reverse (VStr e :: t)) = Some (VStr s)).
    { by rewrite head_reverse. }
    rewrite Hhead in Hrun. simpl in Hrun.
    rewrite bool_decide_eq_true_2 in Hrun by done. simpl in Hrun.
    injection Hrun as <-. exists z. simpl. rewrite Hd.
    split; [done|]. split; [done|]. split; [by rewrite last_reverse|].
    split; [by apply (rpath_fwd g s)|].
    intros w' Hw. apply (Hlo (VStr e) z w'); try done. by eapply list_elem_of_lookup_2.
  - left.
    assert (Hno : ∀ w, ¬ swalk (Rf g) s e w).
    { intros w Hw.
      destruct (frontier s (Rf g) ok_str ok_str_root Rf_nonneg Rf_ok st e w Hinv Hcl Hw)
        as [(v & zv & Hv & Hve & _) | (y & zy & Hy & Hny & Hdy & _)].
      - destruct (inv_visited _ _ _ _ Hinv _ Hv) as (Hokv & _).
        apply ok_str_val in Hokv. rewrite Hve in Hokv. by subst v.
      - pose proof (inv_pending _ _ _ _ Hinv y zy Hy (ok_str_truthy _ Hy) Hny Hdy) as Hp.
        rewrite Hq in Hp. by apply elem_of_nil in Hp. }
    split; [|done].
    assert (Hinf : ¬ ∃ z, dist st !! e = Some (Fin z)).
    { intros (z & Hd).
      destruct (inv_tree _ _ _ _ Hinv e z) as (c & zc & w & _ & Hdc & HR & _ & Hcv & _);
        [congruence | done |].
      destruct (Rf_ok _ _ _ HR) as (y & Hy & Hye).
      pose proof (ok_str_val _ Hy) as Hyv. rewrite Hye in Hyv. subst y.
      pose proof (inv_pending _ _ _ _ Hinv (VStr e) z Hy (ok_str_truthy _ Hy) Hnot Hd) as Hp.
      rewrite Hq in Hp. by apply elem_of_nil in Hp. }
    destruct (Hnu e) as [Hfin | [Hp | Hp]]; [done | |]; rewrite Hp in Hrun; simpl in Hrun.
    + destruct (chain_unshift fuel (prev st) (VStr e) []) as [l|] eqn:Hch; [|done].
      simpl in Hrun.
      destruct (chain_unshift_unlinked _ _ _ _ Hp Hch) as [-> | ->]; simpl in Hrun.
      * by injection Hrun as <-.
      * rewrite bool_decide_eq_false_2 in Hrun by congruence. simpl in Hrun.
        by injection Hrun as <-.
    + by injection Hrun as <-.
Qed.

End Single.

(** ** Termination of the single-direction search *)

Lemma queue_sort_nonempty l x rest : queue_sort l = x :: rest -> l ≠ [].
Proof. intros H ->. done. Qed.

(** The loop ends within [side_measure] pops, whatever the graph. *)
Lemma dijkstra_loop_terminates g start end_ fuel st :
  side_bounded (universe_fwd g start) st ->
  (side_measure (universe_fwd g start) (length (edges_of g)) st <= fuel)%nat ->
  ∃ st', Index.dijkstra_loop fuel g end_ st = Some st'
         ∧ side_bounded (universe_fwd g start) st'.
Proof.
  revert st. induction fuel as [|f IH]; intros st Hb Hm; simpl;
    destruct (queue_sort (queue st)) as [|x rest] eqn:Hsort; eauto.
  - pose proof (queue_sort_length (queue st)) as Hlen. rewrite Hsort in Hlen.
    unfold side_measure in Hm. simpl in Hlen. exfalso.
    assert (length (queue st) <= 0)%nat
      by (eapply Nat.le_trans; [apply Nat.le_add_r | exact Hm]).
    lia.
  - pose proof (queue_sort_nonempty _ _ _ Hsort) as Hne.
    destruct (side_step_measure (universe_fwd g start) (length (edges_of g))
                (neighbors g) st Hb Hne) as [Hb1 Hm1].
    { intros c. apply neighbors_universe. }
    { intros c. apply (neighbors_universe g start c). }
    destruct (side_step_measure (universe_fwd g start) (length (edges_of g))
                (fun _ => []) st Hb Hne) as [Hb2 Hm2].
    { intros c nb H. by apply elem_of_nil in H. }
    { intros c. simpl. lia. }
    unfold side_step in Hb1, Hm1, Hb2, Hm2. rewrite Hsort in Hb1, Hm1, Hb2, Hm2.
    destruct (negb (truthy (q_node x)) || bool_decide (q_node x ∈ visited st)).
    + apply IH; [done | lia].
    + destruct (strict_eq (q_node x) end_); [eauto|]. apply IH; [done | lia].
Qed.

Lemma start_side_bounded g start :
  side_bounded (universe_fwd g start) (start_side g start).
Proof.
  split; [constructor|]. split; simpl.
  - intros v Hv. by apply elem_of_nil in Hv.
  - intros x Hx. apply list_elem_of_singleton in Hx as ->. by left.
Qed.

Lemma chain_unshift_unlinked_total fuel (p : gmap string jsval) e :
  p !! e = None -> (0 < fuel)%nat ->
  ∃ l, chain_unshift fuel p (VStr e) [] = Some l.
Proof.
  intros Hp Hf. destruct fuel as [|f]; [lia|]. cbn [chain_unshift].
  destruct (truthy (VStr e)); [|eauto].
  unfold prev_get. cbn [ToString]. rewrite Hp. cbn [default].
  destruct f; cbn [chain_unshift truthy]; eauto.
Qed.

Lemma dijkstra_returns g s e :
  str_graph g -> s ≠ "" ->
  ∃ r, Index.dijkstra (dijkstra_fuel g (VStr s)) g (VStr s) (VStr e) = Some r.
Proof.
  intros Hg Hs. unfold Index.dijkstra.
  destruct (strict_eq (VStr s) (VStr e)) eqn:Hse; [eauto|].
  apply bool_decide_eq_false in Hse.
  destruct ((init_maps g).1 !! ToString (VStr s)) as [x|] eqn:Hx; [|eauto].
  change {| dist := <[ToString (VStr s):=Fin 0]> (init_maps g).1; prev := (init_maps g).2;
            visited := []; queue := [{| q_node := VStr s; q_dist := Fin 0 |}] |}
    with (start_side g (VStr s)).
  assert (Hfuel : (side_measure (universe_fwd g (VStr s)) (length (edges_of g))
                     (start_side g (VStr s)) <= dijkstra_fuel g (VStr s))%nat).
  { unfold dijkstra_fuel. lia. }
  assert (Hbig : (length (universe_fwd g (VStr s)) < dijkstra_fuel g (VStr s))%nat).
  { unfold dijkstra_fuel, side_measure. cbn [start_side visited queue length].
    rewrite Nat.sub_0_r. generalize (length (universe_fwd g (VStr s))),
      (length (edges_of g)). intros nU nE. nia. }
  revert Hfuel Hbig. generalize (dijkstra_fuel g (VStr s)). intros fuel Hfuel Hbig.
  destruct (dijkstra_loop_terminates g (VStr s) (VStr e) fuel _
              (start_side_bounded g (VStr s)) Hfuel) as (st & Hloop & Hb).
  rewrite Hloop. simpl.
  destruct (start_side_inv g s Hs) as (Hi0 & Hc0 & Hl0 & Hn0); [by eexists|].
  destruct (dijkstra_loop_spec g s Hg Hs e fuel _ st Hi0 Hc0 Hl0 Hn0)
    as (Hinv & Hlo & Hnu & Hend); [by intros H; apply elem_of_nil in H | done |].
  assert (Hchain : ∃ p, (if negb (bool_decide (prev st !! e = Some VNull))
                            || strict_eq (VStr e) (VStr s)
                         then chain_unshift fuel (prev st) (VStr e) []
                         else Some []) = Some p).
  { destruct (negb (bool_decide (prev st !! e = Some VNull))
              || strict_eq (VStr e) (VStr s)) eqn:Hcond; [|eauto].
    destruct (decide (VStr e ∈ visited st)) as [Hin|Hnot].
    - apply list_elem_of_lookup in Hin as [j Hj].
      assert (Hj' : (j < fuel)%nat).
      { apply lookup_lt_Some in Hj. destruct Hb as (Hnd & Hv & _).
        pose proof (NoDup_length_le _ _ Hnd Hv). lia. }
      rewrite chain_unshift_eq.
      destruct (chain_total s (Rf g) ok_str st Hinv j _ _ Hj Hj') as [l ->]. simpl. eauto.
    - destruct Hend as [Hin | (_ & Hq & Hcl)]; [done|].
      assert (Hinf : ¬ ∃ z, dist st !! e = Some (Fin z)).
      { intros (z & Hd).
        destruct (inv_tree _ _ _ _ Hinv e z) as (c & zc & w & _ & Hdc & HR & _ & Hcv & _);
          [congruence | done |].
        destruct (Rf_ok g Hg _ _ _ HR) as (y & Hy & Hye).
        pose proof (ok_str_val _ Hy) as Hyv. rewrite Hye in Hyv. subst y.
        pose proof (inv_pending _ _ _ _ Hinv (VStr e) z Hy (ok_str_truthy _ Hy) Hnot Hd)
          as Hp.
        rewrite Hq in Hp. by apply elem_of_nil in Hp. }
      destruct (Hnu e) as [Hfin | [Hp | Hp]]; [done | |].
      + apply chain_unshift_unlinked_total; [done | lia].
      + unfold strict_eq in Hcond. rewrite Hp in Hcond.
        rewrite bool_decide_eq_true_2 in Hcond by done.
        rewrite bool_decide_eq_false_2 in Hcond by congruence. done. }
  destruct Hchain as [p Hp]. simpl in Hp. rewrite Hp. simpl.
  destruct (negb (strict_eq (default VUndef (head p)) (VStr s))); eauto.
Qed.

Lemma swalk_first R a b d : swalk R a b d -> a = b ∨ ∃ c w, R a c w.
Proof.
  induction 1 as [|b c d w Hw IH HR]; [by left|].
  destruct IH as [->|IH]; [right; eauto | by right].
Qed.

(** A start that the search does not know has no outgoing edge. *)
Lemma unknown_start_no_walk g s e d :
  (init_maps g).1 !! s = None -> s ≠ e -> ¬ swalk (Rf g) s e d.
Proof.
  intros Hx Hse Hw. destruct (swalk_first _ _ _ _ Hw) as [?|(c & w & HR)]; [done|].
  destruct HR as (es & x & Hget & _). simpl in Hget. apply graph_get_elem in Hget.
  destruct (init_maps_known g s) as [Hin _].
  destruct Hin as [Hin _]; [left; eauto | congruence].
Qed.

Lemma dijkstra_optimal fuel g s e r :
  str_graph g -> s ≠ "" -> s ≠ e ->
  Index.dijkstra fuel g (VStr s) (VStr e) = Some r ->
  (r = no_path ∧ ∀ p d, ¬ walk_between g s e p d)
  ∨ ∃ d, distance r = Some (Fin d)
         ∧ head (path r) = Some (VStr s) ∧ last (path r) = Some (VStr e)
         ∧ is_walk g (path r) d
         ∧ ∀ p d', walk_between g s e p d' -> d <= d'.
Proof.
  intros Hg Hs Hse Hrun.
  destruct ((init_maps g).1 !! s) as [x|] eqn:Hx.
  - destruct (dijkstra_result g s Hg Hs e fuel r Hse) as [[-> Hno] | (d & H1 & H2 & H3 & H4 & H5)];
      [by eexists | done | |].
    + left. split; [done|]. intros p d Hw. apply (Hno d). by eapply walk_between_swalk.
    + right. exists d. repeat split; try done.
      intros p d' Hw. apply H5. by eapply walk_between_swalk.
  - left. unfold Index.dijkstra, strict_eq in Hrun.
    rewrite bool_decide_eq_false_2 in Hrun by congruence. simpl in Hrun.
    rewrite Hx in Hrun. injection Hrun as <-. split; [done|].
    intros p d Hw. apply (unknown_start_no_walk g s e d Hx Hse). by eapply walk_between_swalk.
Qed.

(** X7. The single-direction search of index.js and part_001 is exact.
    On an edge object whose weights are at least 0 and whose destinations
    are non-empty strings, called with a non-empty start and another end,
    a result is either the empty path with distance [Infinity], and then
    the graph has no walk from start to end, or a path that starts at
    start, ends at end, is a walk of the graph whose weights add up to the
    returned distance, and no walk from start to end weighs less. The
    identifiers are plain property names and the weights total at most
    2^52, so that the sums of the code are the sums of integers. *)
Theorem dijkstra_shortest fuel g s e r :
  plain_graph g -> exact_sums g -> plain_key s -> plain_key e ->
  str_graph g -> s ≠ "" -> s ≠ e ->
  Index.dijkstra fuel g (VStr s) (VStr e) = Some r ->
  (r = no_path ∧ ∀ p d, ¬ walk_between g s e p d)
  ∨ ∃ d, distance r = Some (Fin d)
         ∧ head (path r) = Some (VStr s) ∧ last (path r) = Some (VStr e)
         ∧ is_walk g (path r) d
         ∧ ∀ p d', walk_between g s e p d' -> d <= d'.
Proof. intros _ _ _ _. apply dijkstra_optimal. Qed.

Lemma dijkstra_shortest_witness :
  let r := {| path := [VStr "s"; VStr "u"; VStr "v"; VStr "t"];
              distance := Some (Fin 24) |} in
  (r = no_path ∧ ∀ p d, ¬ walk_between detour_graph "s" "t" p d)
  ∨ ∃ d, distance r = Some (Fin d)
         ∧ head (path r) = Some (VStr "s") ∧ last (path r) = Some (VStr "t")
         ∧ is_walk detour_graph (path r) d
         ∧ ∀ p d', walk_between detour_graph "s" "t" p d' -> d <= d'.
Proof.
  apply (dijkstra_shortest 20 detour_graph "s" "t").
  - apply plain_graph_check_sound. vm_compute. reflexivity.
  - by vm_compute.
  - apply (bool_decide_unpack _). vm_compute. exact I.
  - apply (bool_decide_unpack _). vm_compute. exact I.
  - apply str_graph_check_sound. vm_compute. reflexivity.
  - discriminate.
  - discriminate.
  - vm_compute. reflexivity.
Defined.

(** X8. On an edge object whose weights are at least 0 and whose
    destinations are non-empty strings, with plain property names for
    identifiers, the single-direction search returns: [dijkstra_fuel]
    passes of its loops are enough, and more fuel gives the same
    result. *)
Theorem dijkstra_terminates g s e :
  plain_graph g -> plain_key s -> plain_key e ->
  str_graph g -> s ≠ "" ->
  ∃ r, Index.dijkstra (dijkstra_fuel g (VStr s)) g (VStr s) (VStr e) = Some r
       ∧ ∀ fuel, (dijkstra_fuel g (VStr s) <= fuel)%nat ->
           Index.dijkstra fuel g (VStr s) (VStr e) = Some r
           ∧ Part001.dijkstra fuel g (VStr s) (VStr e) = Some r.
Proof.
  intros _ _ _ Hg Hs. destruct (dijkstra_returns g s e Hg Hs) as [r Hr]. exists r.
  split; [done|]. intros fuel Hle.
  pose proof (dijkstra_mono _ _ _ _ _ _ Hr Hle) as Hm. done.
Qed.

Lemma dijkstra_terminates_witness :
  ∃ r, Index.dijkstra (dijkstra_fuel detour_graph (VStr "s")) detour_graph
         (VStr "s") (VStr "t") = Some r
       ∧ ∀ fuel, (dijkstra_fuel detour_graph (VStr "s") <= fuel)%nat ->
           Index.dijkstra fuel detour_graph (VStr "s") (VStr "t") = Some r
           ∧ Part001.dijkstra fuel detour_graph (VStr "s") (VStr "t") = Some r.
Proof.
  apply (dijkstra_terminates detour_graph "s" "t").
  - apply plain_graph_check_sound. vm_compute. reflexivity.
  - apply (bool_decide_unpack _). vm_compute. exact I.
  - apply (bool_decide_unpack _). vm_compute. exact I.
  - apply str_graph_check_sound. vm_compute. reflexivity.
  - discriminate.
Defined.

(** ** The bidirectional search against the single-direction search *)

Lemma str_graph_wf g : NoDup g.*1 -> str_graph g -> wf_graph g.
Proof.
  intros Hnd Hg. split; [done| |].
  - intros k es e Hk He. by destruct (Hg k es e Hk He).
  - exists is_str. split; [by left|]. intros k es e Hk He.
    by destruct (Hg k es e Hk He) as (_ & ? & _).
Qed.

Lemma chain_truthy fuel (p : gmap string jsval) u l :
  truthy u = true -> chain fuel p u = Some l -> ∃ t, l = u :: t.
Proof.
  intros Htr. destruct fuel as [|f]; simpl; rewrite Htr; [done|].
  destruct (chain f p (prev_get p u)) as [t|]; [|done]. simpl. intros [= <-]. eauto.
Qed.

(** A non-empty result of the bidirectional search is a walk from start
    to end whose weight is the returned distance. *)
Lemma bidirectional_sound fuel g s e r :
  wf_graph g -> s ≠ e ->
  Part002.bidirectionalDijkstra fuel g (VStr s) (VStr e) = Some r ->
  r = no_path
  ∨ ∃ d, path r ≠ [] ∧ distance r = Some (Fin d)
         ∧ head (path r) = Some (VStr s) ∧ last (path r) = Some (VStr e)
         ∧ is_walk g (path r) d.
Proof.
  intros [Hkeys Hweights (kind & Hkind & Hdests)] Hse Hrun.
  unfold Part002.bidirectionalDijkstra, strict_eq in Hrun.
  rewrite bool_decide_eq_false_2 in Hrun by congruence. simpl in Hrun.
  destruct ((init_maps g).1 !! s) as [ds|] eqn:Hs; [|left; by injection Hrun as <-].
  destruct ((init_maps g).1 !! e) as [de|] eqn:He; [|left; by injection Hrun as <-].
  destruct (Part002.bidi_loop fuel g (Part002.bidi_init g (VStr s) (VStr e)))
    as [st|] eqn:Hloop; [|done].
  simpl in Hrun.
  assert (Hinv : bidi_inv kind g s e st).
  { eapply bidi_loop_inv; try done. apply bidi_init_inv; try done; by eexists. }
  destruct (decide (path r = [])) as [Hnil|Hne].
  - left. unfold Part002.reconstruct, strict_eq in Hrun.
    destruct Hinv as (HF & _ & [[Hm _] | (a & b & HmF & _)]).
    + rewrite Hm in Hrun. simpl in Hrun. by injection Hrun as <-.
    + destruct (inv_visited _ _ _ _ HF _ HmF) as (_ & Htr & _).
      rewrite bool_decide_eq_false_2 in Hrun by (intros Heq; by rewrite Heq in Htr).
      simpl in Hrun. rewrite chain_unshift_eq in Hrun.
      destruct (chain fuel (prev (Part002.fwd st)) (Part002.meetingNode st))
        as [lF|] eqn:HcF; [|done].
      destruct (chain_truthy _ _ _ _ Htr HcF) as [t ->].
      simpl in Hrun. rewrite chain_push_eq in Hrun.
      destruct (chain fuel (prev (Part002.bwd st))
                  (prev_get (prev (Part002.bwd st)) (Part002.meetingNode st)))
        as [tB|]; [|done].
      simpl in Hrun. injection Hrun as <-. simpl in Hnil.
      rewrite app_nil_r, reverse_cons in Hnil.
      apply app_eq_nil in Hnil as [Hnil _]. by apply app_eq_nil in Hnil as [_ ?].
  - right. destruct (reconstruct_sound kind g s e Hkind fuel st r Hinv Hrun Hne)
      as (d & l1 & l2 & H1 & H2 & H3 & _ & _ & _ & H4).
    by exists d.
Qed.

(** X9. On a well-formed edge object with plain property names for
    identifiers and weights that total at most 2^52, the bidirectional
    search, called with distinct string identifiers, returns within
    [search_fuel] passes;
    its result is the empty path with distance [Infinity] or a non-empty
    walk of the graph from start to end whose weights add up to the
    returned distance. So it reports no route whenever the graph has no
    walk from start to end. *)
Theorem bidirectional_result g s e :
  plain_graph g -> exact_sums g -> plain_key s -> plain_key e ->
  wf_graph g -> s ≠ e ->
  ∃ r, Part002.bidirectionalDijkstra (search_fuel g (VStr s) (VStr e)) g
         (VStr s) (VStr e) = Some r
       ∧ (r = no_path
          ∨ ∃ d, path r ≠ [] ∧ distance r = Some (Fin d)
                 ∧ walk_between g s e (path r) d)
       ∧ ((∀ p d, ¬ walk_between g s e p d) -> r = no_path).
Proof.
  intros _ _ _ _ Hwf Hse. destruct (bidirectional_terminates g s e Hwf) as [r Hr].
  exists r. split; [done|].
  destruct (bidirectional_sound _ g s e r Hwf Hse Hr)
    as [-> | (d & Hne & Hd & Hh & Hl & Hw)].
  - split; [by left | done].
  - assert (Hwb : walk_between g s e (path r) d).
    { split; [done|]. by rewrite Hh, Hl. }
    split; [right; by exists d|]. intros Hno. by destruct (Hno _ _ Hwb).
Qed.

Lemma bidirectional_result_witness :
  ∃ r, Part002.bidirectionalDijkstra (search_fuel detour_graph (VStr "s") (VStr "t"))
         detour_graph (VStr "s") (VStr "t") = Some r
       ∧ (r = no_path
          ∨ ∃ d, path r ≠ [] ∧ distance r = Some (Fin d)
                 ∧ walk_between detour_graph "s" "t" (path r) d)
       ∧ ((∀ p d, ¬ walk_between detour_graph "s" "t" p d) -> r = no_path).
Proof.
  apply (bidirectional_result detour_graph "s" "t").
  - apply plain_graph_check_sound. vm_compute. reflexivity.
  - by vm_compute.
  - apply (bool_decide_unpack _). vm_compute. exact I.
  - apply (bool_decide_unpack _). vm_compute. exact I.
  - apply wf_graph_check_sound. vm_compute. reflexivity.
  - discriminate.
Defined.

(** X10. The single-direction search never does worse than the
    bidirectional one. On an edge object with unique keys, weights at
    least 0 that total at most 2^52, and non-empty string destinations
    that are plain property names, whenever the bidirectional
    search returns a non-empty path, the single-direction search of
    part_001, if it returns, returns a non-empty path too, and its
    distance is at most the distance the bidirectional search reports. *)
Theorem bidirectional_never_shorter fuel fuel' g s e rb rd :
  plain_graph g -> exact_sums g -> plain_key s -> plain_key e ->
  NoDup g.*1 -> str_graph g -> s ≠ "" -> s ≠ e ->
  Part002.bidirectionalDijkstra fuel g (VStr s) (VStr e) = Some rb ->
  path rb ≠ [] ->
  Part001.dijkstra fuel' g (VStr s) (VStr e) = Some rd ->
  ∃ db dd, distance rb = Some (Fin db) ∧ distance rd = Some (Fin dd)
           ∧ dd <= db
           ∧ path rd ≠ []
           ∧ walk_between g s e (path rb) db ∧ walk_between g s e (path rd) dd.
Proof.
  intros _ _ _ _ Hnd Hg Hs Hse Hb Hne Hd.
  destruct (bidirectional_sound _ g s e rb (str_graph_wf g Hnd Hg) Hse Hb)
    as [-> | (db & _ & Hdb & Hh & Hl & Hw)]; [done|].
  assert (Hwb : walk_between g s e (path rb) db).
  { split; [done|]. by rewrite Hh, Hl. }
  destruct (dijkstra_optimal fuel' g s e rd Hg Hs Hse Hd)
    as [[-> Hno] | (dd & Hdd & Hh' & Hl' & Hw' & Hmin)].
  - by destruct (Hno _ _ Hwb).
  - exists db, dd. split; [done|]. split; [done|].
    split; [by apply (Hmin (path rb))|].
    split; [intros Hnil; by rewrite Hnil in Hh'|].
    split; [done|]. split; [done|]. by rewrite Hh', Hl'.
Qed.

Lemma bidirectional_never_shorter_witness :
  ∃ db dd, Some (Fin 26) = Some (Fin db) ∧ Some (Fin 24) = Some (Fin dd)
           ∧ dd <= db
           ∧ [VStr "s"; VStr "u"; VStr "v"; VStr "t"] ≠ []
           ∧ walk_between detour_graph "s" "t" [VStr "s"; VStr "m"; VStr "t"] db
           ∧ walk_between detour_graph "s" "t"
               [VStr "s"; VStr "u"; VStr "v"; VStr "t"] dd.
Proof.
  apply (bidirectional_never_shorter 20 20 detour_graph "s" "t"
           {| path := [VStr "s"; VStr "m"; VStr "t"]; distance := Some (Fin 26) |}
           {| path := [VStr "s"; VStr "u"; VStr "v"; VStr "t"];
              distance := Some (Fin 24) |}).
  - apply plain_graph_check_sound. vm_compute. reflexivity.
  - by vm_compute.
  - apply (bool_decide_unpack _). vm_compute. exact I.
  - apply (bool_decide_unpack _). vm_compute. exact I.
  - apply (bool_decide_unpack _). vm_compute. exact I.
  - apply str_graph_check_sound. vm_compute. reflexivity.
  - discriminate.
  - discriminate.
  - vm_compute. reflexivity.
  - discriminate.
  - vm_compute. reflexivity.
Defined.

(** ** Routes *)

Lemma omap_length_le {A B} (f : A -> option B) (l : list A) :
  (length (omap f l) <= length l)%nat.
Proof.
  induction l as [|a l IH]; [done|]. cbn [omap list_omap].
  destruct (f a); cbn [length]; fold (omap f l); lia.
Qed.

Lemma coords_of_length nodes p : (length (coords_of nodes p) <= length p)%nat.
Proof. apply omap_length_le. Qed.

Lemma find_is_Some {A} (f : A -> bool) (l : list A) x :
  x ∈ l -> f x = true -> is_Some (find f l).
Proof.
  intros Hin Hf. destruct (find f l) as [y|] eqn:Hfind; [by eexists|].
  apply list_elem_of_In in Hin. pose proof (find_none f l Hfind x Hin). congruence.
Qed.

Lemma find_elem {A} (f : A -> bool) (l : list A) y :
  find f l = Some y -> y ∈ l ∧ f y = true.
Proof. intros H. apply find_some in H as [H1 H2]. by rewrite list_elem_of_In. Qed.

(** The coordinate of a path id: that of the first node carrying it. *)
Lemma coords_of_cons nodes id p :
  coords_of nodes (id :: p)
  = match find (fun n => bool_decide (ToString (n_id n) = ToString id)) nodes with
    | Some n => {| c_lat := n_lat n; c_lng := n_lng n |} :: coords_of nodes p
    | None => coords_of nodes p
    end.
Proof.
  unfold coords_of. cbn [omap list_omap].
  by destruct (find _ nodes).
Qed.

Lemma coords_of_app nodes p q :
  coords_of nodes (p ++ q) = coords_of nodes p ++ coords_of nodes q.
Proof.
  induction p as [|id p IH]; [done|]. rewrite <- app_comm_cons, !coords_of_cons, IH.
  by destruct (find _ nodes).
Qed.

Lemma coords_of_strict_cons nodes id p :
  coords_of_strict nodes (id :: p)
  = match find (fun n => strict_eq (n_id n) id) nodes with
    | Some n => {| c_lat := n_lat n; c_lng := n_lng n |} :: coords_of_strict nodes p
    | None => coords_of_strict nodes p
    end.
Proof.
  unfold coords_of_strict. cbn [omap list_omap].
  by destruct (find _ nodes).
Qed.

(** A path of two nodes or more whose ends name nodes of the list gives a
    route of two coordinates or more. *)
Lemma coords_of_ends nodes p a b na nb :
  head p = Some a -> last p = Some b -> (2 <= length p)%nat ->
  na ∈ nodes -> ToString (n_id na) = ToString a ->
  nb ∈ nodes -> ToString (n_id nb) = ToString b ->
  (2 <= length (coords_of nodes p))%nat.
Proof.
  intros Hh Hl Hlen Hna Ha Hnb Hb.
  destruct p as [|x q]; [done|]. simpl in Hh. injection Hh as ->.
  destruct q as [|y q] using rev_ind; [simpl in Hlen; lia|]. clear IHq.
  rewrite app_comm_cons, last_snoc in Hl. injection Hl as ->.
  rewrite coords_of_cons, coords_of_app, coords_of_cons.
  destruct (find_is_Some (fun n => bool_decide (ToString (n_id n) = ToString a))
              nodes na Hna) as [n1 ->]; [by apply bool_decide_eq_true|].
  destruct (find_is_Some (fun n => bool_decide (ToString (n_id n) = ToString b))
              nodes nb Hnb) as [n2 ->]; [by apply bool_decide_eq_true|].
  simpl. rewrite length_app. simpl. lia.
Qed.

Lemma str_id_truthy n :
  is_str (n_id n) = true -> truthy (n_id n) = true ->
  n_id n = VStr (ToString (n_id n)) ∧ ToString (n_id n) ≠ "".
Proof.
  destruct (n_id n) as [| |z|x]; simpl; try done. intros _ Htr. split; [done|].
  intros ->. done.
Qed.

Lemma ends_length (p : list jsval) a b :
  head p = Some a -> last p = Some b -> a ≠ b -> (2 <= length p)%nat.
Proof.
  destruct p as [|x [|y l]]; simpl; try done; [|lia].
  intros [= ->] [= ->]. done.
Qed.

(** The two snaps of a part_001 or part_002 request that reaches the
    search. *)
Lemma snaps_of_request haversine nodes start end_ :
  let startNode :=
    findNearestNode haversine (Indoor.lat start) (Indoor.lng start) nodes VNull in
  let endNode0 :=
    findNearestNode haversine (Indoor.lat end_) (Indoor.lng end_) nodes VNull in
  let endNode :=
    if bool_decide (ToString startNode = ToString endNode0)
    then findNearestNode haversine (Indoor.lat end_) (Indoor.lng end_) nodes startNode
    else endNode0 in
  negb (truthy startNode) || negb (truthy endNode) = false ->
  ∃ na nb, na ∈ nodes ∧ nb ∈ nodes ∧ n_id na = startNode ∧ n_id nb = endNode
           ∧ truthy (n_id na) = true ∧ truthy (n_id nb) = true.
Proof.
  intros startNode endNode0 endNode Htr.
  apply orb_false_iff in Htr as [H1 H2].
  apply negb_false_iff in H1. apply negb_false_iff in H2.
  assert (Ha : ∃ na, na ∈ nodes ∧ n_id na = startNode).
  { destruct (findNearestNode_elem haversine (Indoor.lat start) (Indoor.lng start)
                nodes VNull) as [H | (n & Hn & H)].
    - unfold startNode in H1. by rewrite H in H1.
    - by exists n. }
  assert (Hb : ∃ nb, nb ∈ nodes ∧ n_id nb = endNode).
  { unfold endNode in *. case_bool_decide as Hc.
    - destruct (findNearestNode_elem haversine (Indoor.lat end_) (Indoor.lng end_)
                  nodes startNode) as [H | (n & Hn & H)].
      + by rewrite H in H2.
      + by exists n.
    - destruct (findNearestNode_elem haversine (Indoor.lat end_) (Indoor.lng end_)
                  nodes VNull) as [H | (n & Hn & H)].
      + unfold endNode0 in H2. by rewrite H in H2.
      + by exists n. }
  destruct Ha as (na & Hna & Ea), Hb as (nb & Hnb & Eb).
  exists na, nb. rewrite Ea, Eb. done.
Qed.

(** X11. A success of the part_001 handler carries a shortest route. On
    loaded data whose nodes have string ids and whose edge object has
    weights at least 0 that total at most 2^52 and non-empty string
    destinations, all identifiers being plain property names, a success
    response comes from two nodes of the list with distinct ids, the
    first of them the start snap; the path behind it is a walk of at least
    two nodes from one to the other, no walk between them weighs less,
    and the route lists the coordinates of the path's nodes, at most one
    per node. *)
Theorem part001_route_is_shortest haversine fuel nodes edges start end_ route info :
  plain_graph edges -> exact_sums edges -> plain_nodes nodes ->
  str_graph edges -> (∀ n, n ∈ nodes -> is_str (n_id n) = true) ->
  Part001.calculate_route haversine fuel (Some nodes) (Some edges) start end_
    = Some (Responded (Success route info)) ->
  ∃ na nb p d,
    na ∈ nodes ∧ nb ∈ nodes ∧ ToString (n_id na) ≠ ToString (n_id nb)
    ∧ n_id na
      = findNearestNode haversine (Indoor.lat start) (Indoor.lng start) nodes VNull
    ∧ Part001.dijkstra fuel edges (n_id na) (n_id nb)
      = Some {| path := p; distance := Some (Fin d) |}
    ∧ walk_between edges (ToString (n_id na)) (ToString (n_id nb)) p d
    ∧ (∀ p' d', walk_between edges (ToString (n_id na)) (ToString (n_id nb)) p' d' ->
         d <= d')
    ∧ (2 <= length p)%nat
    ∧ route = coords_of nodes p ∧ (2 <= length route <= length p)%nat
    ∧ info = None.
Proof.
  intros _ _ _ Hg Hstr. unfold Part001.calculate_route.
  case_bool_decide as Hdiff; [done|].
  destruct (negb _ || negb _) eqn:Htr; [done|].
  destruct (snaps_of_request haversine nodes start end_ Htr)
    as (na & nb & Hna & Hnb & Ea & Eb & Ta & Tb).
  destruct (str_id_truthy na (Hstr _ Hna) Ta) as [Va Na].
  destruct (str_id_truthy nb (Hstr _ Hnb) Tb) as [Vb Nb].
  rewrite <- Ea, <- Eb in *.
  destruct (Part001.dijkstra fuel edges (VStr (ToString (n_id na)))
              (VStr (ToString (n_id nb)))) as [r|] eqn:Hrun; [|done].
  simpl. unfold Part001.respond.
  destruct (bool_decide (length (path r) < 1)%nat) eqn:Hlen; [done|].
  apply bool_decide_eq_false in Hlen. intros [= <- <-].
  destruct (dijkstra_optimal fuel edges _ _ r Hg Na Hdiff Hrun)
    as [[-> _] | (d & Hd & Hh & Hl & Hw & Hmin)]; [simpl in Hlen; lia|].
  assert (Hlen2 : (2 <= length (path r))%nat).
  { eapply ends_length; [exact Hh | exact Hl | congruence]. }
  exists na, nb, (path r), d. rewrite <- Va, <- Vb in Hrun.
  repeat split; try done.
  - rewrite Hrun. f_equal. destruct r. simpl in *. by rewrite Hd.
  - by rewrite Hh.
  - by rewrite Hl.
  - by eapply (coords_of_ends nodes (path r) _ _ na nb).
  - apply coords_of_length.
Qed.

Lemma part001_route_is_shortest_witness :
  ∃ na nb p d,
    na ∈ two_nodes ∧ nb ∈ two_nodes ∧ ToString (n_id na) ≠ ToString (n_id nb)
    ∧ n_id na = findNearestNode planar (Indoor.lat (at_ 0 0)) (Indoor.lng (at_ 0 0))
                  two_nodes VNull
    ∧ Part001.dijkstra 5 one_edge (n_id na) (n_id nb)
      = Some {| path := p; distance := Some (Fin d) |}
    ∧ walk_between one_edge (ToString (n_id na)) (ToString (n_id nb)) p d
    ∧ (∀ p' d', walk_between one_edge (ToString (n_id na)) (ToString (n_id nb)) p' d' ->
         d <= d')
    ∧ (2 <= length p)%nat
    ∧ [ {| c_lat := Indoor.ofZ 0; c_lng := Indoor.ofZ 0 |};
        {| c_lat := Indoor.ofZ 0; c_lng := Indoor.ofZ 1 |} ] = coords_of two_nodes p
    ∧ (2 <= length [ {| c_lat := Indoor.ofZ 0; c_lng := Indoor.ofZ 0 |};
                     {| c_lat := Indoor.ofZ 0; c_lng := Indoor.ofZ 1 |} ] <= length p)%nat
    ∧ @None indoor_info = None.
Proof.
  apply (part001_route_is_shortest planar 5 two_nodes one_edge (at_ 0 0) (at_ 0 1)).
  - apply plain_graph_check_sound. vm_compute. reflexivity.
  - by vm_compute.
  - apply plain_nodes_check_sound. vm_compute. reflexivity.
  - apply str_graph_check_sound. vm_compute. reflexivity.
  - intros n Hn. repeat (apply elem_of_cons in Hn as [->|Hn]; [reflexivity|]).
    by apply elem_of_nil in Hn.
  - reflexivity.
Defined.

(** X12. A success of the part_002 handler carries a route of the graph.
    On loaded data whose edge object is well formed, with weights that
    total at most 2^52 and plain property names for all identifiers, a
    success response
    comes from two nodes of the list with truthy ids of distinct string
    forms, the first of them the start snap; the path behind it is a walk
    of at least two nodes from one to the other, its weights add up to
    the distance of the search, and the route lists the coordinates of the
    path's nodes, at most one per node. *)
Theorem part002_route_is_walk haversine fuel nodes edges start end_ deviceInfo
    route info :
  plain_graph edges -> exact_sums edges -> plain_nodes nodes ->
  wf_graph edges ->
  Part002.calculate_route haversine fuel (Some nodes) (Some edges) start end_ deviceInfo
    = Some (Responded (Success route info)) ->
  ∃ na nb p d,
    na ∈ nodes ∧ nb ∈ nodes ∧ ToString (n_id na) ≠ ToString (n_id nb)
    ∧ truthy (n_id na) = true ∧ truthy (n_id nb) = true
    ∧ n_id na
      = findNearestNode haversine (Indoor.lat start) (Indoor.lng start) nodes VNull
    ∧ Part002.bidirectionalDijkstra fuel edges (VStr (ToString (n_id na)))
        (VStr (ToString (n_id nb)))
      = Some {| path := p; distance := Some (Fin d) |}
    ∧ walk_between edges (ToString (n_id na)) (ToString (n_id nb)) p d
    ∧ (2 <= length p)%nat
    ∧ route = coords_of nodes p ∧ (2 <= length route <= length p)%nat.
Proof.
  intros _ _ _ Hwf. unfold Part002.calculate_route.
  case_bool_decide as Hdiff; [done|].
  destruct (Indoor.comprehensiveIndoorDetection start deviceInfo) as [rs|]; [|done].
  destruct (Indoor.comprehensiveIndoorDetection end_ deviceInfo) as [re|]; [|done].
  destruct (negb _ || negb _) eqn:Htr; [done|].
  destruct (snaps_of_request haversine nodes start end_ Htr)
    as (na & nb & Hna & Hnb & Ea & Eb & Ta & Tb).
  rewrite <- Ea, <- Eb in *.
  destruct (Part002.bidirectionalDijkstra fuel edges (VStr (ToString (n_id na)))
              (VStr (ToString (n_id nb)))) as [r|] eqn:Hrun; [|done].
  simpl. unfold Part002.respond.
  destruct (bool_decide (length (path r) < 1)%nat) eqn:Hlen; [done|].
  apply bool_decide_eq_false in Hlen. intros [= <- <-].
  destruct (bidirectional_sound fuel edges _ _ r Hwf Hdiff Hrun)
    as [-> | (d & _ & Hd & Hh & Hl & Hw)]; [simpl in Hlen; lia|].
  assert (Hlen2 : (2 <= length (path r))%nat).
  { eapply ends_length; [exact Hh | exact Hl | congruence]. }
  exists na, nb, (path r), d. repeat split; try done.
  - rewrite Hrun. f_equal. destruct r. simpl in *. by rewrite Hd.
  - by rewrite Hh.
  - by rewrite Hl.
  - by eapply (coords_of_ends nodes (path r) _ _ na nb).
  - apply coords_of_length.
Qed.

Lemma part002_route_is_walk_witness :
  ∃ na nb p d,
    na ∈ two_nodes ∧ nb ∈ two_nodes ∧ ToString (n_id na) ≠ ToString (n_id nb)
    ∧ truthy (n_id na) = true ∧ truthy (n_id nb) = true
    ∧ n_id na = findNearestNode planar (Indoor.lat (at_ 0 0)) (Indoor.lng (at_ 0 0))
                  two_nodes VNull
    ∧ Part002.bidirectionalDijkstra 5 one_edge (VStr (ToString (n_id na)))
        (VStr (ToString (n_id nb)))
      = Some {| path := p; distance := Some (Fin d) |}
    ∧ walk_between one_edge (ToString (n_id na)) (ToString (n_id nb)) p d
    ∧ (2 <= length p)%nat
    ∧ [ {| c_lat := Indoor.ofZ 0; c_lng := Indoor.ofZ 0 |};
        {| c_lat := Indoor.ofZ 0; c_lng := Indoor.ofZ 1 |} ] = coords_of two_nodes p
    ∧ (2 <= length [ {| c_lat := Indoor.ofZ 0; c_lng := Indoor.ofZ 0 |};
                     {| c_lat := Indoor.ofZ 0; c_lng := Indoor.ofZ 1 |} ] <= length p)%nat.
Proof.
  apply (part002_route_is_walk planar 5 two_nodes one_edge (at_ 0 0) (at_ 0 1) None
           _ (Some {| i_start := bare_result; i_end := bare_result;
                      hasIndoorPoints := true |})).
  - apply plain_graph_check_sound. vm_compute. reflexivity.
  - by vm_compute.
  - apply plain_nodes_check_sound. vm_compute. reflexivity.
  - apply wf_graph_check_sound. vm_compute. reflexivity.
  - reflexivity.
Defined.

(** ** The first search and destinations without edges *)

Lemma relax0_unknown k c s nb : unknown k s -> unknown k (relax0 c s nb).
Proof.
  intros [Hd Hp]. unfold relax0.
  destruct (onum_add (dist s !! ToString c) (Fin nb.2)) as [a|]; [|done].
  destruct (onum_ltb (Some a) (dist s !! ToString nb.1)) eqn:Hlt; [|done].
  assert (Hne : ToString nb.1 ≠ k).
  { intros Heq. rewrite Heq, Hd in Hlt. done. }
  split; simpl; by rewrite lookup_insert_ne.
Qed.

Lemma expand0_unknown k c nbrs s :
  unknown k s -> unknown k (expand relax0 c nbrs s).
Proof.
  intros Hu. unfold expand.
  assert (H0 : unknown k {| dist := dist s; prev := prev s;
                            visited := visited s ++ [c]; queue := queue s |}) by done.
  revert H0. generalize ({| dist := dist s; prev := prev s;
                            visited := visited s ++ [c]; queue := queue s |}).
  induction nbrs as [|nb l IH]; intros s0 H0; simpl; [done|].
  apply IH. by apply relax0_unknown.
Qed.

Lemma loop0_unknown k fuel g end_ s s' :
  unknown k s -> Part000.dijkstra_loop fuel g end_ s = Some s' -> unknown k s'.
Proof.
  revert s. induction fuel as [|f IH]; intros s Hu; simpl;
    destruct (queue_sort (queue s)) as [|x rest]; try done; try (by intros [= <-]).
  destruct (bool_decide (q_node x ∈ visited s)); [by apply IH|].
  destruct (strict_eq (q_node x) end_).
  - intros [= <-]. by apply expand0_unknown.
  - apply IH. by apply expand0_unknown.
Qed.

Lemma relax0_bounded U c s nb :
  side_bounded U s -> nb.1 ∈ U ->
  side_bounded U (relax0 c s nb)
  ∧ visited (relax0 c s nb) = visited s
  ∧ (length (queue (relax0 c s nb)) <= S (length (queue s)))%nat.
Proof.
  intros (Hnd & Hv & Hq) Hnb. unfold relax0.
  destruct (onum_add (dist s !! ToString c) (Fin nb.2)) as [a|]; simpl;
    [match goal with |- context [if ?b then _ else _] => destruct b end; simpl|];
    (split; [|split; [done|]]);
    try (split; [done|split; [done|]]); try done; try lia.
  - intros e He. apply elem_of_app in He as [He|He]; [by apply Hq|].
    by apply list_elem_of_singleton in He as ->.
  - rewrite length_app. simpl. lia.
Qed.

Lemma relax0_all_bounded U c (l : list (jsval * Z)) s :
  side_bounded U s -> (∀ nb, nb ∈ l -> nb.1 ∈ U) ->
  side_bounded U (foldl (relax0 c) s l)
  ∧ visited (foldl (relax0 c) s l) = visited s
  ∧ (length (queue (foldl (relax0 c) s l)) <= length (queue s) + length l)%nat.
Proof.
  revert s. induction l as [|nb l IH]; intros s Hs Hl; simpl.
  - split; [done|]. split; [done|lia].
  - destruct (relax0_bounded U c s nb Hs) as (H1 & H2 & H3); [apply Hl; by left|].
    destruct (IH (relax0 c s nb) H1) as (H4 & H5 & H6).
    { intros nb' Hnb'. apply Hl. by right. }
    split; [done|]. split; [congruence | lia].
Qed.

(** Settling a node lowers the measure. *)
Lemma expand0_measure U E c nbrs s x rest :
  side_bounded U s -> queue_sort (queue s) = x :: rest -> c = q_node x ->
  c ∉ visited s ->
  (∀ nb, nb ∈ nbrs -> nb.1 ∈ U) -> (length nbrs <= E)%nat ->
  side_bounded U (expand relax0 c nbrs (with_queue s rest))
  ∧ (side_measure U E (expand relax0 c nbrs (with_queue s rest))
     < side_measure U E s)%nat.
Proof.
  intros (Hnd & Hv & Hq) Hsort -> Hnv Hn HE. unfold side_measure.
  pose proof (queue_sort_length (queue s)) as Hlen. rewrite Hsort in Hlen.
  apply queue_sort_head in Hsort as (He & Hrest & _ & _). simpl in Hlen.
  set (s1 := {| dist := dist (with_queue s rest); prev := prev (with_queue s rest);
                visited := visited (with_queue s rest) ++ [q_node x];
                queue := queue (with_queue s rest) |}).
  assert (Hs1 : side_bounded U s1).
  { split; [|split]; simpl.
    - apply NoDup_app. split; [done|]. split; [|apply NoDup_singleton].
      intros y Hy Hy'. apply list_elem_of_singleton in Hy' as ->. done.
    - intros v Hin. apply elem_of_app in Hin as [Hin|Hin]; [by apply Hv|].
      apply list_elem_of_singleton in Hin as ->. by apply Hq.
    - intros e' He'. by apply Hq, Hrest. }
  unfold expand. fold s1.
  destruct (relax0_all_bounded U (q_node x) nbrs s1 Hs1 Hn) as (Hb & Hvis & Hql).
  split; [done|]. rewrite Hvis. simpl in *.
  destruct Hs1 as (Hnd1 & Hv1 & _). simpl in *.
  pose proof (NoDup_length_le _ U Hnd1 Hv1) as Hle.
  rewrite length_app in *. simpl in *.
  nia.
Qed.

Lemma loop0_terminates g start end_ fuel st :
  side_bounded (universe_fwd g start) st ->
  (side_measure (universe_fwd g start) (length (edges_of g)) st <= fuel)%nat ->
  ∃ st', Part000.dijkstra_loop fuel g end_ st = Some st'.
Proof.
  revert st. induction fuel as [|f IH]; intros st Hb Hm; simpl;
    destruct (queue_sort (queue st)) as [|x rest] eqn:Hsort; eauto.
  - pose proof (queue_sort_length (queue st)) as Hlen. rewrite Hsort in Hlen.
    unfold side_measure in Hm. simpl in Hlen. exfalso.
    assert (length (queue st) <= 0)%nat
      by (eapply Nat.le_trans; [apply Nat.le_add_r | exact Hm]).
    lia.
  - case_bool_decide as Hvis.
    + apply IH.
      * destruct Hb as (Hnd & Hv & Hq). split; [done|]. split; [done|].
        intros e' He'. apply Hq.
        apply queue_sort_head in Hsort as (_ & Hrest & _). by apply Hrest.
      * pose proof (queue_sort_length (queue st)) as Hlen. rewrite Hsort in Hlen.
        unfold side_measure in *. simpl in *. lia.
    + destruct (strict_eq (q_node x) end_); [eauto|].
      destruct (expand0_measure (universe_fwd g start) (length (edges_of g))
                  (q_node x) (neighbors g (q_node x)) st x rest Hb Hsort eq_refl Hvis)
        as [Hb' Hm'].
      { apply neighbors_universe. }
      { apply (neighbors_universe g start). }
      apply IH; [done | lia].
Qed.

Lemma chain_unshift_alone fuel (p : gmap string jsval) u :
  p !! ToString u = None -> (0 < fuel)%nat ->
  chain_unshift fuel p u [] = Some (if truthy u then [u] else []).
Proof.
  intros Hp Hf. destruct fuel as [|f]; [lia|]. cbn [chain_unshift].
  destruct (truthy u); [|done].
  unfold prev_get. rewrite Hp. cbn [default].
  by destruct f.
Qed.

Lemma start_side0_unknown g start k :
  k ∉ g.*1 -> ToString start ≠ k -> unknown k (start_side0 g start).
Proof.
  intros Hk Hne. destruct (init_keys_lookup g (∅, ∅) k) as [_ Hout].
  destruct (Hout Hk) as [H1 H2]. split; simpl.
  - rewrite lookup_insert_ne by done. rewrite H1. apply lookup_empty.
  - rewrite H2. apply lookup_empty.
Qed.

Lemma dijkstra0_sink g start end_ fuel :
  ToString end_ ∉ g.*1 -> ToString start ≠ ToString end_ ->
  (dijkstra_fuel g start <= fuel)%nat ->
  Part000.dijkstra fuel g start end_
  = Some {| path := if truthy end_ then [end_] else []; distance := None |}.
Proof.
  intros Hk Hne Hfuel. unfold Part000.dijkstra.
  change {| dist := <[ToString start:=Fin 0]> (init_keys g (∅, ∅)).1;
            prev := (init_keys g (∅, ∅)).2; visited := [];
            queue := [{| q_node := start; q_dist := Fin 0 |}] |}
    with (start_side0 g start).
  assert (Hb : side_bounded (universe_fwd g start) (start_side0 g start)).
  { split; [constructor|]. split; simpl.
    - intros v Hv. by apply elem_of_nil in Hv.
    - intros x Hx. apply list_elem_of_singleton in Hx as ->. by left. }
  destruct (loop0_terminates g start end_ fuel (start_side0 g start) Hb) as [st Hloop].
  { unfold dijkstra_fuel in Hfuel. unfold side_measure in *. simpl in *. lia. }
  rewrite Hloop. simpl.
  destruct (loop0_unknown (ToString end_) fuel g end_ _ st
              (start_side0_unknown g start _ Hk Hne) Hloop) as [Hd Hp].
  rewrite Hp, Hd. simpl.
  rewrite chain_unshift_alone; [done | done |].
  unfold dijkstra_fuel in Hfuel. lia.
Qed.

(** X13. In part_000 a destination that is not a source key of the edge
    object is never reached: it has no distance entry, so no relaxation
    ever updates it. For identifiers that are plain property names: asked
    for such an end, other than the start, the
    search returns the one-node path [[end]] with an undefined distance,
    whether or not the graph has a walk to it, and the handler answers
    with a success whose route is the end node alone. *)
Theorem part000_sink_is_never_reached haversine g nodes start end_ fuel :
  let startNode :=
    findNearestNode0 haversine (Indoor.lat start) (Indoor.lng start) nodes in
  let endNode :=
    findNearestNode0 haversine (Indoor.lat end_) (Indoor.lng end_) nodes in
  plain_graph g -> plain_id startNode -> plain_id endNode ->
  truthy startNode = true -> truthy endNode = true ->
  ToString endNode ∉ g.*1 -> ToString startNode ≠ ToString endNode ->
  (dijkstra_fuel g startNode <= fuel)%nat ->
  Part000.dijkstra fuel g startNode endNode
    = Some {| path := [endNode]; distance := None |}
  ∧ Part000.calculate_route haversine fuel (Some nodes) (Some g) start end_
    = Some (Responded (Success (coords_of_strict nodes [endNode]) None)).
Proof.
  intros startNode endNode _ _ _ Hts Hte Hk Hne Hfuel.
  pose proof (dijkstra0_sink g startNode endNode fuel Hk Hne Hfuel) as Hrun.
  rewrite Hte in Hrun. split; [done|].
  unfold Part000.calculate_route. fold startNode endNode.
  rewrite Hts, Hte. simpl. rewrite Hrun. done.
Qed.

Lemma part000_sink_is_never_reached_witness :
  Part000.dijkstra 20 one_edge
    (findNearestNode0 planar (Indoor.lat (at_ 0 0)) (Indoor.lng (at_ 0 0)) two_nodes)
    (findNearestNode0 planar (Indoor.lat (at_ 0 1)) (Indoor.lng (at_ 0 1)) two_nodes)
    = Some {| path := [findNearestNode0 planar (Indoor.lat (at_ 0 1))
                         (Indoor.lng (at_ 0 1)) two_nodes];
              distance := None |}
  ∧ Part000.calculate_route planar 20 (Some two_nodes) (Some one_edge) (at_ 0 0) (at_ 0 1)
    = Some (Responded (Success
        (coords_of_strict two_nodes
           [findNearestNode0 planar (Indoor.lat (at_ 0 1)) (Indoor.lng (at_ 0 1))
              two_nodes]) None)).
Proof.
  apply (part000_sink_is_never_reached planar one_edge two_nodes (at_ 0 0) (at_ 0 1) 20).
  - apply plain_graph_check_sound. vm_compute. reflexivity.
  - apply plain_id_check_sound. vm_compute. reflexivity.
  - apply plain_id_check_sound. vm_compute. reflexivity.
  - reflexivity.
  - reflexivity.
  - vm_compute. intros H. repeat (apply elem_of_cons in H as [H|H]; [discriminate|]).
    by apply elem_of_nil in H.
  - by vm_compute.
  - vm_compute. lia.
Defined.

(** ** Route coordinates *)

Lemma coords_of_elem nodes p c :
  c ∈ coords_of nodes p ->
  ∃ id n, id ∈ p ∧ n ∈ nodes ∧ ToString (n_id n) = ToString id
          ∧ c = {| c_lat := n_lat n; c_lng := n_lng n |}.
Proof.
  induction p as [|id p IH]; [intros H; by apply elem_of_nil in H|].
  rewrite coords_of_cons.
  destruct (find _ nodes) as [n|] eqn:Hfind.
  - intros Hc. apply elem_of_cons in Hc as [->|Hc].
    + apply find_elem in Hfind as [Hn Hid]. apply bool_decide_eq_true in Hid.
      exists id, n. split; [by left | done].
    + destruct (IH Hc) as (id' & n' & Hid' & H). exists id', n'. split; [by right | done].
  - intros Hc. destruct (IH Hc) as (id' & n' & Hid' & H).
    exists id', n'. split; [by right | done].
Qed.

Lemma coords_of_full nodes p :
  (∀ id, id ∈ p -> ∃ n, n ∈ nodes ∧ ToString (n_id n) = ToString id) ->
  length (coords_of nodes p) = length p.
Proof.
  induction p as [|id p IH]; intros Hall; [done|]. rewrite coords_of_cons.
  destruct (Hall id) as (n & Hn & Hid); [by left|].
  destruct (find_is_Some (fun n => bool_decide (ToString (n_id n) = ToString id))
              nodes n Hn) as [n1 ->]; [by apply bool_decide_eq_true|].
  cbn [length]. rewrite IH; [done|]. intros id' Hid'. apply Hall. by right.
Qed.

Lemma coords_of_strict_le nodes p :
  (length (coords_of_strict nodes p) <= length (coords_of nodes p))%nat.
Proof.
  induction p as [|id p IH]; [done|]. rewrite coords_of_cons, coords_of_strict_cons.
  destruct (find (fun n => strict_eq (n_id n) id) nodes) as [n|] eqn:Hstrict.
  - apply find_elem in Hstrict as [Hn Hid]. apply bool_decide_eq_true in Hid.
    destruct (find_is_Some (fun n => bool_decide (ToString (n_id n) = ToString id))
                nodes n Hn) as [n1 ->]; [apply bool_decide_eq_true; by rewrite Hid|].
    cbn [length]. lia.
  - destruct (find (fun n => bool_decide (ToString (n_id n) = ToString id)) nodes);
      cbn [length]; lia.
Qed.

(** X14. What the handlers make of a path. The route has at most one
    coordinate per path id, in path order; each coordinate is that of a
    node of the list whose id has the string form of a path id; a path id
    that no node carries is dropped without notice, so the route has as
    many coordinates as the path has ids exactly when every id names a
    node. The lookup of part_000 and index.js compares with [===] and
    finds no more than the string comparison of part_001 and part_002;
    it finds nothing when the node ids are numbers and the path ids
    strings. *)
Theorem route_coordinates (nodes : list node) (p : list jsval) :
  (length (coords_of_strict nodes p) <= length (coords_of nodes p))%nat
  ∧ (length (coords_of nodes p) <= length p)%nat
  ∧ (∀ c, c ∈ coords_of nodes p ->
       ∃ id n, id ∈ p ∧ n ∈ nodes ∧ ToString (n_id n) = ToString id
               ∧ c = {| c_lat := n_lat n; c_lng := n_lng n |})
  ∧ ((∀ id, id ∈ p -> ∃ n, n ∈ nodes ∧ ToString (n_id n) = ToString id) ->
     length (coords_of nodes p) = length p)
  ∧ (∀ p1 id p2, p = p1 ++ id :: p2 ->
       (∀ n, n ∈ nodes -> ToString (n_id n) ≠ ToString id) ->
       coords_of nodes p = coords_of nodes (p1 ++ p2))
  ∧ ((∀ n, n ∈ nodes -> is_num (n_id n) = true) ->
     (∀ id, id ∈ p -> is_str id = true) ->
     coords_of_strict nodes p = []).
Proof.
  split; [apply coords_of_strict_le|]. split; [apply coords_of_length|].
  split; [apply coords_of_elem|]. split; [apply coords_of_full|]. split.
  - intros p1 id p2 -> Hno. rewrite !coords_of_app, coords_of_cons.
    destruct (find _ nodes) as [n|] eqn:Hfind; [|done].
    apply find_elem in Hfind as [Hn Hid]. apply bool_decide_eq_true in Hid.
    by destruct (Hno n Hn).
  - intros Hnum Hstr. induction p as [|id p IH]; [done|].
    rewrite coords_of_strict_cons.
    destruct (find _ nodes) as [n|] eqn:Hfind.
    + apply find_elem in Hfind as [Hn Hid]. apply bool_decide_eq_true in Hid.
      pose proof (Hnum n Hn) as H1. pose proof (Hstr id) as H2.
      rewrite Hid in H1. destruct id; simpl in *; try done.
      by specialize (H2 ltac:(by left)).
    + apply IH. intros id' Hid'. apply Hstr. by right.
Qed.

(** ** The same snap for both points, version by version *)

Lemma init_keys_prev_falsy g k :
  truthy (default VUndef ((init_keys g (∅, ∅)).2 !! k)) = false.
Proof.
  assert (H0 : maps_ok (init_keys g (∅, ∅))).
  { apply init_keys_ok. intros k'. left. simpl. by rewrite !lookup_empty. }
  destruct (H0 k) as [[_ ->]|[_ ->]]; done.
Qed.

Lemma dijkstra0_same g x fuel :
  truthy x = true -> (0 < fuel)%nat ->
  Part000.dijkstra fuel g x x = Some {| path := [x]; distance := Some (Fin 0) |}.
Proof.
  intros Htr Hf. destruct fuel as [|f]; [lia|].
  unfold Part000.dijkstra. cbn [Part000.dijkstra_loop queue queue_sort foldr sort_insert
    q_node visited].
  rewrite bool_decide_eq_false_2 by (intros H; by apply elem_of_nil in H).
  unfold strict_eq. rewrite !bool_decide_eq_true_2 by done.
  cbn [mbind option_bind]. rewrite orb_true_r.
  cbn [chain_unshift]. rewrite Htr.
  assert (Hp : truthy (prev_get
            (prev (expand relax0 x []
               (with_queue
                  {| dist := <[ToString x:=Fin 0]> (init_keys g (∅, ∅)).1;
                     prev := (init_keys g (∅, ∅)).2; visited := [];
                     queue := [{| q_node := x; q_dist := Fin 0 |}] |} []))) x) = false).
  { apply init_keys_prev_falsy. }
  assert (Hc : ∀ p u l, truthy u = false -> chain_unshift f p u l = Some l).
  { intros p u l Hu. destruct f; simpl; by rewrite Hu. }
  rewrite Hc by done. simpl. by rewrite lookup_insert_eq.
Qed.

(** X21. Two request points that snap to one node, with a truthy id
    that is a plain property name. part_000 has no shortcut, yet its search returns the one-node path
    with distance 0 after a single pop, and its handler answers with a
    success whose route is that node alone; index.js returns the same
    from its shortcut and its handler answers 'No route found.'. *)
Theorem same_snap_by_version haversine fuel nodes edges start end_ a :
  findNearestNode0 haversine (Indoor.lat start) (Indoor.lng start) nodes = a ->
  findNearestNode0 haversine (Indoor.lat end_) (Indoor.lng end_) nodes = a ->
  plain_id a -> truthy a = true -> (0 < fuel)%nat ->
  Part000.dijkstra fuel edges a a = Some {| path := [a]; distance := Some (Fin 0) |}
  ∧ Index.dijkstra fuel edges a a = Some {| path := [a]; distance := Some (Fin 0) |}
  ∧ Part000.calculate_route haversine fuel (Some nodes) (Some edges) start end_
    = Some (Responded (Success (coords_of_strict nodes [a]) None))
  ∧ Index.calculate_route haversine fuel (Some nodes) (Some edges) start end_
    = Some (Responded (Failure "No route found.")).
Proof.
  intros Ha Hb _ Htr Hf.
  pose proof (dijkstra0_same edges a fuel Htr Hf) as H0.
  assert (H1 : Index.dijkstra fuel edges a a
               = Some {| path := [a]; distance := Some (Fin 0) |}).
  { unfold Index.dijkstra, strict_eq. by rewrite bool_decide_eq_true_2. }
  split; [done|]. split; [done|]. split.
  - unfold Part000.calculate_route. rewrite Ha, Hb, Htr. simpl. by rewrite H0.
  - unfold Index.calculate_route. rewrite Ha, Hb, Htr. simpl. by rewrite H1.
Qed.

Lemma same_snap_by_version_witness :
  Part000.dijkstra 1 one_edge (VStr "a") (VStr "a")
  = Some {| path := [VStr "a"]; distance := Some (Fin 0) |}
  ∧ Index.dijkstra 1 one_edge (VStr "a") (VStr "a")
    = Some {| path := [VStr "a"]; distance := Some (Fin 0) |}
  ∧ Part000.calculate_route planar 1 (Some two_nodes) (Some one_edge) (at_ 0 0) (at_ 0 0)
    = Some (Responded (Success (coords_of_strict two_nodes [VStr "a"]) None))
  ∧ Index.calculate_route planar 1 (Some two_nodes) (Some one_edge) (at_ 0 0) (at_ 0 0)
    = Some (Responded (Failure "No route found.")).
Proof.
  apply (same_snap_by_version planar 1 two_nodes one_edge (at_ 0 0) (at_ 0 0) (VStr "a")).
  - by vm_compute.
  - by vm_compute.
  - apply plain_id_check_sound. vm_compute. reflexivity.
  - reflexivity.
  - lia.
Defined.

(** ** part_000 against index.js when no node is a destination only *)

Lemma init_dest_fold_known es m :
  (∀ e, e ∈ es -> is_Some (m.1 !! ToString (e_node e))) -> foldl init_dest m es = m.
Proof.
  induction es as [|e es IH]; intros H; simpl; [done|].
  assert (He : init_dest m e = m).
  { unfold init_dest. destruct (H e) as [x ->]; [by left | done]. }
  rewrite He. apply IH. intros e' He'. apply H. by right.
Qed.

Lemma init_dests_known g0 m :
  (∀ k es e, (k, es) ∈ g0 -> e ∈ es -> is_Some (m.1 !! ToString (e_node e))) ->
  init_dests g0 m = m.
Proof.
  unfold init_dests. induction g0 as [|[k es] g0 IH]; intros H; simpl; [done|].
  rewrite init_dest_fold_known.
  - apply IH. intros k' es' e Hk He. apply (H k' es'); [by right | done].
  - intros e He. apply (H k es); [by left | done].
Qed.

Lemma init_maps_no_sinks g : dests_are_keys g -> init_maps g = init_keys g (∅, ∅).
Proof.
  intros Hd. unfold init_maps. apply init_dests_known. intros k es e Hk He.
  destruct (init_keys_lookup g (∅, ∅) (ToString (e_node e))) as [H _].
  destruct (H (Hd k es e Hk He)) as [-> _]. by eexists.
Qed.

Lemma dests_are_keys_check_sound g : dests_are_keys_check g = true -> dests_are_keys g.
Proof.
  intros H k es e Hk He. pose proof (all_edges_spec _ _ H k es e Hk He) as Hb.
  simpl in Hb. by apply bool_decide_eq_true in Hb.
Qed.

Lemma relax_known c s nb :
  is_Some (dist s !! ToString nb.1) -> relax c s nb = relax0 c s nb.
Proof.
  intros [x Hx]. unfold relax, relax0. cbn zeta. rewrite Hx.
  destruct (onum_add (dist s !! ToString c) (Fin nb.2)) as [a|]; [|by destruct s].
  rewrite Hx.
  destruct (onum_ltb (Some a) (Some x)); [done | by destruct s].
Qed.

Lemma relax0_keys g c s nb :
  keys_known g s -> truthy nb.1 = true -> keys_known g (relax0 c s nb).
Proof.
  intros [Hk Hq] Htr. unfold relax0.
  destruct (onum_add (dist s !! ToString c) (Fin nb.2)) as [a|]; [|done].
  destruct (onum_ltb (Some a) (dist s !! ToString nb.1)); [|done].
  split; simpl.
  - intros k Hin. destruct (Hk k Hin) as [H1 H2].
    destruct (decide (ToString nb.1 = k)) as [<-|Hne].
    + rewrite !lookup_insert_eq. by split; eexists.
    + by rewrite !lookup_insert_ne.
  - intros x Hx. apply elem_of_app in Hx as [Hx|Hx]; [by apply Hq|].
    apply list_elem_of_singleton in Hx. by subst x.
Qed.

Lemma relax_fold_agree g c l s :
  keys_known g s ->
  (∀ nb, nb ∈ l -> ToString nb.1 ∈ g.*1 ∧ truthy nb.1 = true) ->
  foldl (relax c) s l = foldl (relax0 c) s l ∧ keys_known g (foldl (relax0 c) s l).
Proof.
  revert s. induction l as [|nb l IH]; intros s Hk Hl; simpl; [done|].
  destruct (Hl nb) as [Hin Htr]; [by left|].
  rewrite relax_known by (by destruct Hk as [Hk _]; destruct (Hk _ Hin)).
  apply IH; [by apply relax0_keys|]. intros nb' H'. apply Hl. by right.
Qed.

Section NoSinks.

Variable g : graph.
Variable s e : string.

Hypothesis Hg : str_graph g.
Hypothesis Hd : dests_are_keys g.
Hypothesis Hs : s ≠ "".

Lemma neighbors_keys c nb :
  nb ∈ neighbors g c -> ToString nb.1 ∈ g.*1 ∧ truthy nb.1 = true.
Proof.
  intros Hin. unfold neighbors in Hin.
  destruct (graph_get g (ToString c)) as [es|] eqn:Hget; simpl in Hin;
    [|by apply elem_of_nil in Hin].
  apply list_elem_of_fmap in Hin as (x & -> & He). simpl.
  pose proof (graph_get_elem _ _ _ Hget) as Hk.
  split; [by apply (Hd _ _ _ Hk He)|]. by destruct (Hg _ _ _ Hk He) as (_ & _ & ?).
Qed.

Lemma expand_agree c rest st :
  keys_known g st -> (∀ x, x ∈ rest -> x ∈ queue st) ->
  expand relax c (neighbors g c) (with_queue st rest)
  = expand relax0 c (neighbors g c) (with_queue st rest)
  ∧ keys_known g (expand relax0 c (neighbors g c) (with_queue st rest))
  ∧ keys_known g (expand relax0 c [] (with_queue st rest))
  ∧ keys_known g (with_queue st rest).
Proof.
  intros [Hk Hq] Hrest.
  assert (H0 : keys_known g
            {| dist := dist (with_queue st rest); prev := prev (with_queue st rest);
               visited := visited (with_queue st rest) ++ [c];
               queue := queue (with_queue st rest) |}).
  { split; simpl; [done|]. intros x Hx. apply Hq. by apply Hrest. }
  destruct (relax_fold_agree g c (neighbors g c) _ H0 (neighbors_keys c)) as [H1 H2].
  split; [done|]. split; [done|]. split; [done|].
  split; simpl; [done|]. intros x Hx. apply Hq. by apply Hrest.
Qed.

(** From a state in which every key is known, the two loops take the
    same steps. *)
Lemma loops_agree fuel st :
  keys_known g st ->
  Part000.dijkstra_loop fuel g (VStr e) st = Index.dijkstra_loop fuel g (VStr e) st
  ∧ ∀ st', Index.dijkstra_loop fuel g (VStr e) st = Some st' -> keys_known g st'.
Proof.
  revert st. induction fuel as [|f IH]; intros st Hk; simpl;
    destruct (queue_sort (queue st)) as [|x rest] eqn:Hsort.
  1, 3: split; [done|]; by intros st' [= <-].
  - done.
  - destruct (queue_sort_head _ _ _ Hsort) as (Hx & Hrest & _).
    destruct Hk as [Hk Hq]. rewrite (Hq x Hx). simpl.
    destruct (expand_agree (q_node x) rest st (conj Hk Hq) Hrest) as (He & Hk1 & Hk2 & Hk3).
    destruct (bool_decide (q_node x ∈ visited st)); [by apply IH|].
    destruct (strict_eq (q_node x) (VStr e)).
    + split; [done|]. by intros st' [= <-].
    + rewrite He. by apply IH.
Qed.

Hypothesis Hsk : s ∈ g.*1.
Hypothesis Hek : e ∈ g.*1.
Hypothesis Hse : s ≠ e.

Lemma start_side_keys : keys_known g (start_side g (VStr s)).
Proof.
  split; simpl.
  - intros k Hin. rewrite init_maps_no_sinks by done.
    destruct (init_keys_lookup g (∅, ∅) k) as [H _]. destruct (H Hin) as [H1 H2].
    split; [|by rewrite H2]. destruct (decide (s = k)) as [<-|Hne].
    + by rewrite lookup_insert_eq.
    + by rewrite lookup_insert_ne, H1.
  - intros x Hx. apply list_elem_of_singleton in Hx. subst x. simpl.
    by rewrite bool_decide_eq_false_2.
Qed.

(** After the loop, the chain from the end node starts at the start
    node, or the end node has its initial entries. *)
Lemma final_state fuel st p :
  Index.dijkstra_loop fuel g (VStr e) (start_side g (VStr s)) = Some st ->
  (if negb (bool_decide (prev st !! e = Some VNull))
   then chain_unshift fuel (prev st) (VStr e) [] else Some []) = Some p ->
  head p = Some (VStr s)
  ∨ p = [] ∧ dist st !! e = Some Inf.
Proof.
  intros Hloop Hp.
  assert (Hx : is_Some ((init_maps g).1 !! s)).
  { rewrite init_maps_no_sinks by done.
    destruct (init_keys_lookup g (∅, ∅) s) as [H _]. destruct (H Hsk) as [-> _]. by eexists. }
  destruct (start_side_inv g s Hs Hx) as (Hi0 & Hc0 & Hl0 & Hn0).
  destruct (dijkstra_loop_spec g s Hg Hs e fuel _ st Hi0 Hc0 Hl0 Hn0)
    as (Hinv & Hlo & Hnu & Hend);
    [by intros H; apply elem_of_nil in H | done |].
  destruct (loops_agree fuel _ start_side_keys) as [_ Hkeys].
  destruct (Hkeys st Hloop) as [Hk _]. destruct (Hk e Hek) as [[de Hde] [pe Hpe]].
  destruct Hend as [Hin | (Hnot & Hq & Hcl)].
  - left. destruct (inv_visited _ _ _ _ Hinv _ Hin) as (_ & _ & z & Hdz).
    simpl in Hdz. apply list_elem_of_lookup in Hin as [j Hj].
    destruct (inv_tree _ _ _ _ Hinv e z) as (c & zc & w & Hpc & _ & _ & _ & Hcv & _);
      [congruence | done |].
    destruct (inv_visited _ _ _ _ Hinv _ Hcv) as (_ & Htc & _).
    rewrite Hpc in Hp.
    rewrite bool_decide_eq_false_2 in Hp by (intros [= ->]; done). simpl in Hp.
    rewrite chain_unshift_eq in Hp.
    destruct (chain fuel (prev st) (VStr e)) as [l|] eqn:Hch; [|done]. simpl in Hp.
    destruct (chain_tree s (Rf g) ok_str ok_str_inj (ok_str_root s Hs) st Hinv j (VStr e)
                fuel l Hj Hch) as (z' & t & -> & _ & Hrp & _).
    rewrite app_nil_r in Hp. injection Hp as <-.
    pose proof (rpath_last _ _ _ _ Hrp) as Hlast. by rewrite head_reverse.
  - right.
    assert (Hinf : ¬ ∃ z, dist st !! e = Some (Fin z)).
    { intros (z & Hdz).
      destruct (inv_tree _ _ _ _ Hinv e z) as (c & zc & w & _ & Hdc & HR & _ & Hcv & _);
        [congruence | done |].
      destruct (Rf_ok g Hg _ _ _ HR) as (y & Hy & Hye).
      pose proof (ok_str_val _ Hy) as Hyv. rewrite Hye in Hyv. subst y.
      pose proof (inv_pending _ _ _ _ Hinv (VStr e) z Hy (ok_str_truthy _ Hy) Hnot Hdz) as Hpd.
      rewrite Hq in Hpd. by apply elem_of_nil in Hpd. }
    assert (Hde' : dist st !! e = Some Inf).
    { rewrite Hde. destruct de as [z|]; [|done]. exfalso. apply Hinf. by exists z. }
    destruct (Hnu e) as [Hfin | [Hpn | Hpn]]; [done | congruence |].
    rewrite Hpn in Hp. rewrite bool_decide_eq_true_2 in Hp by done. simpl in Hp.
    by injection Hp as <-.
Qed.

Lemma dijkstra0_agrees fuel :
  Part000.dijkstra fuel g (VStr s) (VStr e) = Index.dijkstra fuel g (VStr s) (VStr e).
Proof.
  unfold Part000.dijkstra, Index.dijkstra, strict_eq.
  rewrite !bool_decide_eq_false_2 by congruence.
  rewrite <- init_maps_no_sinks by done. cbn zeta.
  destruct (init_keys_lookup g (∅, ∅) s) as [H _]. destruct (H Hsk) as [Hds _].
  rewrite <- init_maps_no_sinks in Hds by done. simpl ToString. rewrite Hds.
  change {| dist := <[s:=Fin 0]> (init_maps g).1; prev := (init_maps g).2;
            visited := []; queue := [{| q_node := VStr s; q_dist := Fin 0 |}] |}
    with (start_side g (VStr s)).
  destruct (loops_agree fuel _ start_side_keys) as [-> _].
  destruct (Index.dijkstra_loop fuel g (VStr e) (start_side g (VStr s))) as [st|] eqn:Hloop;
    [|done]. cbn [mbind option_bind].
  rewrite !orb_false_r.
  destruct (if negb (bool_decide (prev st !! e = Some VNull))
            then chain_unshift fuel (prev st) (VStr e) [] else Some []) as [p|] eqn:Hp;
    [|done]. cbn [mbind option_bind].
  destruct (final_state fuel st p Hloop Hp) as [Hh | [-> Hinf]].
  - rewrite Hh. simpl. by rewrite bool_decide_eq_true_2.
  - simpl. by rewrite Hinf.
Qed.

End NoSinks.

(** X22. On an edge object with string destinations that are plain
    property names and weights that are not negative and total at most
    2^52, in which every destination is also a source key, the
    search of part_000 returns what the search of index.js returns, for
    two different source keys as endpoints: no path exactly when no walk
    joins them, and a shortest walk otherwise. *)
Theorem part000_agrees_without_sinks fuel g s e :
  plain_graph g -> exact_sums g ->
  str_graph g -> dests_are_keys g -> s ≠ "" -> s ∈ g.*1 -> e ∈ g.*1 -> s ≠ e ->
  Part000.dijkstra fuel g (VStr s) (VStr e) = Index.dijkstra fuel g (VStr s) (VStr e)
  ∧ ∀ r, Part000.dijkstra fuel g (VStr s) (VStr e) = Some r ->
      (r = no_path ∧ ∀ p d, ¬ walk_between g s e p d)
      ∨ ∃ d, distance r = Some (Fin d)
             ∧ head (path r) = Some (VStr s) ∧ last (path r) = Some (VStr e)
             ∧ is_walk g (path r) d
             ∧ ∀ p d', walk_between g s e p d' -> d <= d'.
Proof.
  intros _ _ Hg Hd Hs Hsk Hek Hse.
  pose proof (dijkstra0_agrees g s e Hg Hd Hs Hsk Hek Hse fuel) as Heq.
  split; [done|]. intros r Hr. rewrite Heq in Hr. by apply (dijkstra_optimal fuel g s e r).
Qed.

Lemma part000_agrees_without_sinks_witness :
  Part000.dijkstra 20 ring_graph (VStr "s") (VStr "t")
  = Index.dijkstra 20 ring_graph (VStr "s") (VStr "t")
  ∧ ∀ r, Part000.dijkstra 20 ring_graph (VStr "s") (VStr "t") = Some r ->
      (r = no_path ∧ ∀ p d, ¬ walk_between ring_graph "s" "t" p d)
      ∨ ∃ d, distance r = Some (Fin d)
             ∧ head (path r) = Some (VStr "s") ∧ last (path r) = Some (VStr "t")
             ∧ is_walk ring_graph (path r) d
             ∧ ∀ p d', walk_between ring_graph "s" "t" p d' -> d <= d'.
Proof.
  apply (part000_agrees_without_sinks 20 ring_graph "s" "t").
  - apply plain_graph_check_sound. vm_compute. reflexivity.
  - by vm_compute.
  - apply str_graph_check_sound. vm_compute. reflexivity.
  - apply dests_are_keys_check_sound. vm_compute. reflexivity.
  - discriminate.
  - apply (bool_decide_unpack _). vm_compute. exact I.
  - apply (bool_decide_unpack _). vm_compute. exact I.
  - discriminate.
Defined.

(** ** The handler of index.js *)

Lemma coords_of_strict_app nodes p q :
  coords_of_strict nodes (p ++ q) = coords_of_strict nodes p ++ coords_of_strict nodes q.
Proof.
  induction p as [|id p IH]; [done|].
  rewrite <- app_comm_cons, !coords_of_strict_cons, IH.
  by destruct (find _ nodes).
Qed.

Lemma coords_of_strict_length nodes p :
  (length (coords_of_strict nodes p) <= length p)%nat.
Proof. apply omap_length_le. Qed.

Lemma coords_of_strict_ends nodes p na nb :
  head p = Some (n_id na) -> last p = Some (n_id nb) -> (2 <= length p)%nat ->
  na ∈ nodes -> nb ∈ nodes ->
  (2 <= length (coords_of_strict nodes p))%nat.
Proof.
  intros Hh Hl Hlen Hna Hnb.
  destruct p as [|x q]; [done|]. simpl in Hh. injection Hh as ->.
  destruct q as [|y q] using rev_ind; [simpl in Hlen; lia|]. clear IHq.
  rewrite app_comm_cons, last_snoc in Hl. injection Hl as ->.
  rewrite coords_of_strict_cons, coords_of_strict_app, coords_of_strict_cons.
  destruct (find_is_Some (fun n => strict_eq (n_id n) (n_id na)) nodes na Hna)
    as [n1 ->]; [by apply bool_decide_eq_true|].
  destruct (find_is_Some (fun n => strict_eq (n_id n) (n_id nb)) nodes nb Hnb)
    as [n2 ->]; [by apply bool_decide_eq_true|].
  cbn [length]. rewrite length_app. cbn [length]. lia.
Qed.

Lemma snap0_elem haversine lat lng nodes :
  truthy (findNearestNode0 haversine lat lng nodes) = true ->
  ∃ n, n ∈ nodes ∧ n_id n = findNearestNode0 haversine lat lng nodes.
Proof.
  intros Htr.
  destruct (findNearestNode_elem haversine lat lng nodes VNull) as [H | (n & Hn & H)].
  - change (findNearestNode haversine lat lng nodes VNull)
      with (findNearestNode0 haversine lat lng nodes) in H. by rewrite H in Htr.
  - by exists n.
Qed.

(** X23. A success of the index.js handler carries a shortest route. On
    nodes with string ids and an edge object with weights at least 0 that
    total at most 2^52 and non-empty string destinations, all identifiers
    being plain property names, a success response comes from two
    different nodes of the list, the nearest to the start point and the
    nearest to the end point; the path behind it is a walk of at least two
    nodes from one to the other, no walk between them weighs less, and
    the route lists the coordinates of the path's nodes, at least two and
    at most one per node. *)
Theorem index_route_is_shortest haversine fuel nodes edges start end_ route info :
  plain_graph edges -> exact_sums edges -> plain_nodes nodes ->
  str_graph edges -> (∀ n, n ∈ nodes -> is_str (n_id n) = true) ->
  Index.calculate_route haversine fuel (Some nodes) (Some edges) start end_
    = Some (Responded (Success route info)) ->
  ∃ na nb p d,
    na ∈ nodes ∧ nb ∈ nodes ∧ n_id na ≠ n_id nb
    ∧ n_id na = findNearestNode0 haversine (Indoor.lat start) (Indoor.lng start) nodes
    ∧ n_id nb = findNearestNode0 haversine (Indoor.lat end_) (Indoor.lng end_) nodes
    ∧ Index.dijkstra fuel edges (n_id na) (n_id nb)
      = Some {| path := p; distance := Some (Fin d) |}
    ∧ walk_between edges (ToString (n_id na)) (ToString (n_id nb)) p d
    ∧ (∀ p' d', walk_between edges (ToString (n_id na)) (ToString (n_id nb)) p' d' ->
         d <= d')
    ∧ (2 <= length p)%nat
    ∧ route = coords_of_strict nodes p ∧ (2 <= length route <= length p)%nat
    ∧ info = None.
Proof.
  intros _ _ _ Hg Hstr. unfold Index.calculate_route.
  destruct (negb _ || negb _) eqn:Htr; [done|].
  apply orb_false_iff in Htr as [H1 H2].
  apply negb_false_iff in H1. apply negb_false_iff in H2.
  destruct (snap0_elem _ _ _ _ H1) as (na & Hna & Ea).
  destruct (snap0_elem _ _ _ _ H2) as (nb & Hnb & Eb).
  rewrite <- Ea, <- Eb in *.
  destruct (str_id_truthy na (Hstr _ Hna) H1) as [Va Na].
  destruct (str_id_truthy nb (Hstr _ Hnb) H2) as [Vb Nb].
  destruct (Index.dijkstra fuel edges (n_id na) (n_id nb)) as [r|] eqn:Hrun; [|done].
  simpl. unfold Index.respond.
  destruct (bool_decide (length (path r) <= 1)%nat) eqn:Hlen; [done|].
  apply bool_decide_eq_false in Hlen. intros [= <- <-].
  assert (Hdiff : ToString (n_id na) ≠ ToString (n_id nb)).
  { intros Heq. unfold Index.dijkstra, strict_eq in Hrun.
    rewrite bool_decide_eq_true_2 in Hrun by (rewrite Va, Vb; by f_equal).
    injection Hrun as <-. simpl in Hlen. lia. }
  rewrite Va, Vb in Hrun.
  destruct (dijkstra_optimal fuel edges _ _ r Hg Na Hdiff Hrun)
    as [[-> _] | (d & Hd & Hh & Hl & Hw & Hmin)]; [simpl in Hlen; lia|].
  rewrite <- Va, <- Vb in Hrun. rewrite <- Va in Hh. rewrite <- Vb in Hl.
  exists na, nb, (path r), d.
  split; [done|]. split; [done|]. split; [congruence|]. split; [done|]. split; [done|].
  split; [rewrite Hrun; f_equal; destruct r; simpl in *; by rewrite Hd|].
  split; [split; [done|]; split; [by rewrite Hh | by rewrite Hl]|].
  split; [done|]. split; [lia|]. split; [done|]. split; [|done]. split.
  - apply (coords_of_strict_ends nodes (path r) na nb); try done. lia.
  - apply coords_of_strict_length.
Qed.

Lemma index_route_is_shortest_witness :
  ∃ na nb p d,
    na ∈ two_nodes ∧ nb ∈ two_nodes ∧ n_id na ≠ n_id nb
    ∧ n_id na = findNearestNode0 planar (Indoor.lat (at_ 0 0)) (Indoor.lng (at_ 0 0))
                  two_nodes
    ∧ n_id nb = findNearestNode0 planar (Indoor.lat (at_ 0 1)) (Indoor.lng (at_ 0 1))
                  two_nodes
    ∧ Index.dijkstra 5 one_edge (n_id na) (n_id nb)
      = Some {| path := p; distance := Some (Fin d) |}
    ∧ walk_between one_edge (ToString (n_id na)) (ToString (n_id nb)) p d
    ∧ (∀ p' d', walk_between one_edge (ToString (n_id na)) (ToString (n_id nb)) p' d' ->
         d <= d')
    ∧ (2 <= length p)%nat
    ∧ [ {| c_lat := Indoor.ofZ 0; c_lng := Indoor.ofZ 0 |};
        {| c_lat := Indoor.ofZ 0; c_lng := Indoor.ofZ 1 |} ] = coords_of_strict two_nodes p
    ∧ (2 <= length [ {| c_lat := Indoor.ofZ 0; c_lng := Indoor.ofZ 0 |};
                     {| c_lat := Indoor.ofZ 0; c_lng := Indoor.ofZ 1 |} ] <= length p)%nat
    ∧ @None indoor_info = None.
Proof.
  apply (index_route_is_shortest planar 5 two_nodes one_edge (at_ 0 0) (at_ 0 1)).
  - apply plain_graph_check_sound. vm_compute. reflexivity.
  - by vm_compute.
  - apply plain_nodes_check_sound. vm_compute. reflexivity.
  - apply str_graph_check_sound. vm_compute. reflexivity.
  - intros n Hn. repeat (apply elem_of_cons in Hn as [->|Hn]; [reflexivity|]).
    by apply elem_of_nil in Hn.
  - vm_compute. reflexivity.
Defined.

(** ** The WiFi and cellular detectors *)

Lemma sum_signals_heard qs acc :
  Indoor.sum_signals (heard <$> qs) (Some acc) = Indoor.Ok (Some (foldl Qcplus acc qs)).
Proof. revert acc. induction qs as [|q qs IH]; intros acc; simpl; [done | apply IH]. Qed.

Lemma sum_signals_nan (nets : list Indoor.network) :
  Indoor.sum_signals (Some <$> nets) None = Indoor.Ok None.
Proof.
  induction nets as [|n nets IH]; simpl; [done|]. by destruct (Indoor.signalStrength n).
Qed.

Lemma sum_signals_missing (nets : list Indoor.network) acc :
  (∃ n, n ∈ nets ∧ Indoor.signalStrength n = None) ->
  Indoor.sum_signals (Some <$> nets) acc = Indoor.Ok None.
Proof.
  revert acc. induction nets as [|n nets IH]; intros acc (m & Hm & Hs); simpl.
  - by apply elem_of_nil in Hm.
  - apply elem_of_cons in Hm as [<-|Hm].
    + rewrite Hs. destruct acc; apply sum_signals_nan.
    + apply IH. by exists m.
Qed.

(** X24. The decision rules of the WiFi and cellular detectors. For a
    list of networks that all carry a signal strength, the WiFi detector
    reports their number and their mean (NaN for the empty list) and says
    indoor exactly when there are more than 5 networks or the mean is
    above -50. One network without a signal strength makes the mean NaN,
    and the count alone decides. The cellular detector says indoor exactly
    when the signal is below 0.6, the type is 'slow-2g' or '2g', or the
    downlink is below 1, each absent or zero figure counting as 0: a
    report without a signal strength or without a downlink is always
    indoor. *)
Theorem device_detector_rules :
  (∀ qs : list Qc, ∃ w,
     Indoor.analyzeWiFiNetworks (Some {| Indoor.networks := Some (heard <$> qs) |})
     = Indoor.Ok w
     ∧ Indoor.w_networkCount w = Some (Z.of_nat (length qs))
     ∧ Indoor.w_averageSignal w
       = (if bool_decide (qs = []) then None
          else Some (foldl Qcplus 0 qs / Indoor.ofZ (Z.of_nat (length qs)))%Qc)
     ∧ Indoor.w_isIndoor w
       = bool_decide (5 < length qs)%nat
         || (negb (bool_decide (qs = []))
             && bool_decide (Indoor.ofZ (-50)
                             < foldl Qcplus 0 qs / Indoor.ofZ (Z.of_nat (length qs)))%Qc))
  ∧ (∀ nets : list Indoor.network,
       (∃ n, n ∈ nets ∧ Indoor.signalStrength n = None) ->
       ∃ w, Indoor.analyzeWiFiNetworks (Some {| Indoor.networks := Some (Some <$> nets) |})
            = Indoor.Ok w
            ∧ Indoor.w_averageSignal w = None
            ∧ Indoor.w_isIndoor w = bool_decide (5 < length nets)%nat)
  ∧ (∀ cd, let k := Indoor.analyzeCellularNetwork (Some cd) in
       Indoor.k_isIndoor k
       = bool_decide (Indoor.k_signalStrength k < Indoor.ofZ 6 / Indoor.ofZ 10)%Qc
         || bool_decide (Indoor.k_networkType k = "slow-2g")
         || bool_decide (Indoor.k_networkType k = "2g")
         || bool_decide (Indoor.k_downlink k < Indoor.ofZ 1)%Qc)
  ∧ (∀ cd, Indoor.qtruthy (Indoor.c_signalStrength cd) = false
           ∨ Indoor.qtruthy (Indoor.c_downlink cd) = false ->
       Indoor.k_isIndoor (Indoor.analyzeCellularNetwork (Some cd)) = true).
Proof.
  split; [|split; [|split]].
  - intros qs. unfold Indoor.analyzeWiFiNetworks. cbn [Indoor.networks].
    rewrite sum_signals_heard. cbn [Indoor.bind]. eexists. split; [reflexivity|].
    cbn [Indoor.w_networkCount Indoor.w_averageSignal Indoor.w_isIndoor].
    rewrite length_fmap. split; [done|].
    assert (Hz : bool_decide (Z.of_nat (length qs) = 0) = bool_decide (qs = [])).
    { apply bool_decide_ext. destruct qs; simpl; split; try done; lia. }
    rewrite Hz. split; [done|].
    destruct (bool_decide (qs = [])) eqn:Hnil.
    + apply bool_decide_eq_true in Hnil. subst qs. done.
    + simpl.
      destruct (bool_decide (Indoor.ofZ (-50)
                  < foldl Qcplus 0 qs / Indoor.ofZ (Z.of_nat (length qs)))%Qc);
        repeat case_bool_decide; simpl; try done; lia.
  - intros nets Hmiss. unfold Indoor.analyzeWiFiNetworks. cbn [Indoor.networks].
    rewrite (sum_signals_missing nets _ Hmiss). cbn [Indoor.bind].
    eexists. split; [reflexivity|].
    cbn [Indoor.w_averageSignal Indoor.w_isIndoor]. split; [done|].
    rewrite length_fmap. repeat case_bool_decide; simpl; try done; lia.
  - intros cd. simpl.
    assert (Hlt : ∀ x : Qc, (x < Indoor.ofZ 3 / Indoor.ofZ 10)%Qc ->
                            (x < Indoor.ofZ 6 / Indoor.ofZ 10)%Qc).
    { intros x Hx. eapply Qclt_trans; [exact Hx | by vm_compute]. }
    repeat (match goal with |- context [if ?b then _ else _] => destruct b eqn:? end);
      repeat case_bool_decide; simpl; try done; try lia;
      exfalso; eauto.
  - intros cd Hno. simpl.
    assert (H0 : (0 < Indoor.ofZ 3 / Indoor.ofZ 10)%Qc) by (by vm_compute).
    assert (H1 : (0 < Indoor.ofZ 1)%Qc) by (by vm_compute).
    destruct Hno as [-> | ->]; apply bool_decide_eq_true;
      repeat (match goal with |- context [if ?b then _ else _] => destruct b eqn:? end);
      repeat case_bool_decide; simpl; try done; try lia.
Qed.
